(** * spaceKLIP.psf : the JWST_PSF synthesis engine

    A shallow embedding of [src/spaceKLIP/psf.py].

    - Pixel values, coordinates and angles are float64 in the source.  The
      model is generic in the scalar type [F] and in its arithmetic
      ([Num F]); equations that need algebraic laws name the laws they use.
    - numpy arrays are a shape and the row-major list of their elements.
    - The methods of [JWST_PSF] run in a state-and-error monad over the
      instance attributes ([self]); every call into webbpsf_ext, scipy or
      astropy is an opaque function of the record [External], and is
      recorded in the list of calls of the world. *)

From Stdlib Require Import List String Ascii ZArith QArith Qcanon Bool Arith Lia.
Import ListNotations.
Local Open Scope string_scope.
Local Open Scope list_scope.
Local Open Scope nat_scope.

(** ** Scalars *)

Class Num (F : Type) : Type := {
  fzero : F;
  fone : F;
  fadd : F -> F -> F;
  fsub : F -> F -> F;
  fmul : F -> F -> F;
  fdiv : F -> F -> F;
  fneg : F -> F;
  of_Z : Z -> F
}.

Definition of_nat {F : Type} `{Num F} (n : nat) : F := of_Z (Z.of_nat n).

(** The laws of exact arithmetic that some equations below rely on.
    float64 satisfies the first six on finite values. *)
Class Exact (F : Type) `{Num F} : Prop := {
  add_0_l : forall x, fadd fzero x = x;
  add_0_r : forall x, fadd x fzero = x;
  mul_0_l : forall x, fmul fzero x = fzero;
  mul_1_l : forall x, fmul fone x = x;
  sub_diag : forall x, fsub x x = fzero;
  sub_0_r : forall x, fsub x fzero = x;
  div_0_l : forall s, fdiv fzero s = fzero;
  div_add : forall x y s, fdiv (fadd x y) s = fadd (fdiv x s) (fdiv y s);
  div_diag : forall s, s <> fzero -> fdiv s s = fone
}.

(** ** Python exceptions *)

Inductive pyerr : Type :=
| AttributeError (attr : string)
| TypeError (msg : string)
| IndexError (msg : string)
| ValueError (msg : string)
| UnboundLocalError (name : string)
| ExternalError (callee : string).

(** ** numpy arrays *)

Module Np.
Section Arrays.
Context {F : Type} `{Num F}.

Record ndarray : Type := mk_nd { shape : list nat; data : list F }.

Definition prod (s : list nat) : nat := fold_right Nat.mul 1 s.
Definition size (a : ndarray) : nat := prod (shape a).

(** A Python float, or [np.asarray] of one: a 0-d array. *)
Definition scalar (x : F) : ndarray := mk_nd [] [x].
(** [np.asarray([x1, ..., xn])]. *)
Definition vector (xs : list F) : ndarray := mk_nd [List.length xs] xs.

(** [n] consecutive chunks of [k] elements. *)
Fixpoint chunks (k n : nat) (d : list F) : list (list F) :=
  match n with
  | O => []
  | S n' => firstn k d :: chunks k n' (skipn k d)
  end.

(** Iteration over the first axis ([for im in a], [enumerate(a)]). *)
Definition frames (a : ndarray) : pyerr + list ndarray :=
  match shape a with
  | [] => inl (TypeError "iteration over a 0-d array")
  | n :: rest => inr (List.map (mk_nd rest) (chunks (prod rest) n (data a)))
  end.

(** [np.asarray] / [np.array] of a list of equally shaped arrays. *)
Definition stack (l : list ndarray) : ndarray :=
  match l with
  | [] => mk_nd [0] []
  | a :: _ => mk_nd (List.length l :: shape a) (List.concat (List.map data l))
  end.

(** [a.reshape(dims)]; a dimension [None] is numpy's [-1]. *)
Definition known (dims : list (option nat)) : nat :=
  prod (List.map (fun d => match d with Some n => n | None => 1 end) dims).
Definition wildcards (dims : list (option nat)) : nat :=
  List.length (List.filter (fun d => match d with None => true | Some _ => false end) dims).

Definition reshape (a : ndarray) (dims : list (option nat)) : pyerr + ndarray :=
  match wildcards dims with
  | 0 =>
      if size a =? known dims
      then inr (mk_nd (List.map (fun d => match d with Some n => n | None => 1 end) dims) (data a))
      else inl (ValueError "cannot reshape array")
  | 1 =>
      if (known dims =? 0) || negb (size a mod known dims =? 0)
      then inl (ValueError "cannot reshape array")
      else inr (mk_nd (List.map (fun d => match d with
                                          | Some n => n
                                          | None => size a / known dims
                                          end) dims) (data a))
  | _ => inl (ValueError "can only specify one unknown dimension")
  end.

(** [a.squeeze()]: drop every axis of length one. *)
Definition squeeze (a : ndarray) : ndarray :=
  mk_nd (List.filter (fun n => negb (n =? 1)) (shape a)) (data a).

(** [np.array([a]).ravel()]. *)
Definition ravel (a : ndarray) : list F := data a.

(** Elementwise operation with a Python scalar. *)
Definition map (f : F -> F) (a : ndarray) : ndarray :=
  mk_nd (shape a) (List.map f (data a)).

(** Broadcasting of two shapes of the same rank. *)
Fixpoint bshape (s1 s2 : list nat) : option (list nat) :=
  match s1, s2 with
  | [], [] => Some []
  | n1 :: r1, n2 :: r2 =>
      match bshape r1 r2 with
      | None => None
      | Some r =>
          if n1 =? n2 then Some (n1 :: r)
          else if n1 =? 1 then Some (n2 :: r)
          else if n2 =? 1 then Some (n1 :: r)
          else None
      end
  | _, _ => None
  end.

Fixpoint zip_with {A B C : Type} (f : A -> B -> C) (l1 : list A) (l2 : list B) : list C :=
  match l1, l2 with
  | a :: l1', b :: l2' => f a b :: zip_with f l1' l2'
  | _, _ => []
  end.

(** The elements of the broadcast of two arrays of the same rank: an axis
    of length one is repeated along the other operand's axis. *)
Fixpoint bdata (op : F -> F -> F) (s1 s2 : list nat) (d1 d2 : list F) {struct s1} : list F :=
  match s1, s2 with
  | n1 :: r1, n2 :: r2 =>
      let c1 := chunks (prod r1) n1 d1 in
      let c2 := chunks (prod r2) n2 d2 in
      if n1 =? n2 then List.concat (zip_with (bdata op r1 r2) c1 c2)
      else if n1 =? 1 then List.concat (List.map (fun y => bdata op r1 r2 d1 y) c2)
      else List.concat (List.map (fun x => bdata op r1 r2 x d2) c1)
  | _, _ =>
      match d1, d2 with
      | a :: _, b :: _ => [op a b]
      | _, _ => []
      end
  end.

(** [a op b] for arrays of the same rank. *)
Definition binop (op : F -> F -> F) (a b : ndarray) : pyerr + ndarray :=
  match bshape (shape a) (shape b) with
  | Some s => inr (mk_nd s (bdata op (shape a) (shape b) (data a) (data b)))
  | None => inl (ValueError "operands could not be broadcast together")
  end.

(** [np.sum(a)] over all axes. *)
Definition sum (a : ndarray) : F := fold_left fadd (data a) fzero.

(** Sequencing of operations that may raise. *)
Definition and_then {A B : Type} (r : pyerr + A) (k : A -> pyerr + B) : pyerr + B :=
  match r with
  | inl e => inl e
  | inr a => k a
  end.

End Arrays.
Arguments ndarray F : clear implicits.
End Np.

(** ** Python strings *)

Module Py.

Definition upper_ascii (c : ascii) : ascii :=
  let n := nat_of_ascii c in
  if (97 <=? n) && (n <=? 122) then ascii_of_nat (n - 32) else c.

(** [s.upper()] on ASCII text. *)
Fixpoint upper (s : string) : string :=
  match s with
  | EmptyString => EmptyString
  | String c s' => String (upper_ascii c) (upper s')
  end.

Fixpoint last_char (s : string) : option ascii :=
  match s with
  | EmptyString => None
  | String c EmptyString => Some c
  | String _ s' => last_char s'
  end.

(** [s[-1]] where [s] is a [str] or [None]. *)
Definition subscript_last (s : option string) : pyerr + ascii :=
  match s with
  | None => inl (TypeError "'NoneType' object is not subscriptable")
  | Some str =>
      match last_char str with
      | Some c => inr c
      | None => inl (IndexError "string index out of range")
      end
  end.

(** [pat in s]. *)
Fixpoint contains (pat s : string) : bool :=
  String.prefix pat s ||
  match s with
  | EmptyString => false
  | String _ s' => contains pat s'
  end.

(** [l[i]] on a list. *)
Definition index {A : Type} (l : list A) (i : nat) : pyerr + A :=
  match nth_error l i with
  | Some a => inr a
  | None => inl (IndexError "index out of bounds")
  end.

(** [enumerate(l)]. *)
Definition enumerate {A : Type} (l : list A) : list (nat * A) :=
  List.combine (List.seq 0 (List.length l)) l.

End Py.

(** ** The collaborators: webbpsf_ext, pysiaf, scipy, astropy, pysynphot *)

Module Webbpsf.

(** The two extension classes [__init__] chooses from. *)
Inductive inst_kind : Type := NIRCam_ext | MIRI_ext.

(** The bound methods kept as [_func_on] and [_func_off]. *)
Inductive psf_func : Type := calc_psf_from_coeff | calc_psf.

(** A spectrum object of pysynphot or of synphot. *)
Inductive Spectrum : Type :=
| PysynphotSpectrum (name : string)
| SynphotSpectrum (name : string).

Definition Bandpass : Type := string.

Section Interface.
Context {F : Type} `{Num F}.

(** The attributes of [siaf_ap] that the source reads. *)
Record Siaf : Type := mk_siaf {
  V3IdlYAngle : F;
  XSciScale : F;
  YSciScale : F
}.

(** An instance of [NIRCam_ext] or [MIRI_ext]: its configuration, and what
    the source changes in it ([options], OPD, coefficients). *)
Record Inst : Type := mk_inst {
  kind : inst_kind;
  filter : string;
  image_mask : option string;
  pupil_mask : option string;
  fov_pix : nat;
  oversample : nat;
  siaf_ap : Siaf;
  bandpass : Bandpass;
  opd_date : option string;
  jitter : option string;
  jitter_sigma : option F;
  psf_coeff : bool;
  wfemask_coeff : bool
}.

Definition coords : Type := (Np.ndarray F * Np.ndarray F)%type.

(** Everything the source calls and does not define. *)
Record External : Type := mk_ext {
  inst_accepts : inst_kind -> string -> option string -> option string -> bool;
  inst_siaf : inst_kind -> string -> option string -> Siaf;
  inst_bandpass : inst_kind -> string -> option string -> option string -> Bandpass;
  calc : psf_func -> Inst -> option Spectrum -> option coords -> option string -> Np.ndarray F;
  transmission_at : Inst -> string -> F -> F -> F * F * F;
  fourier_imshift_data : list nat -> list F -> F -> F -> list F;
  pad_or_cut_data : Np.ndarray F -> nat -> list F;
  frebin : Np.ndarray F -> F -> Np.ndarray F;
  rtheta_to_xy : Np.ndarray F -> Np.ndarray F -> Np.ndarray F * Np.ndarray F;
  siaf_convert : Siaf -> Np.ndarray F -> Np.ndarray F -> string -> string
                 -> Np.ndarray F * Np.ndarray F;
  rotate_data : list nat -> list F -> F -> list F;
  interp_at : list F -> Np.ndarray F -> F -> list F;
  gauss_fit : nat -> Np.ndarray F -> F -> F -> F -> F * F;
  amax : Np.ndarray F -> F;
  sp_renorm : Spectrum -> Bandpass -> option Spectrum;
  array_spectrum : Spectrum -> option Spectrum
}.

(** One record per call into a collaborator, with its arguments. *)
Inductive event : Type :=
| EInstExt (k : inst_kind) (filt : string) (image_mask pupil_mask : option string)
           (fov_pix oversample : nat)
| ELoadWssOpd (date : string)
| EGenPsfCoeff
| EGenWfemaskCoeff
| ERenorm (sp : Spectrum)
| EArraySpectrum (sp : Spectrum)
| ECalc (f : psf_func) (io : Inst) (sp : option Spectrum) (cv : option coords)
        (frame : option string)
| ETransmissionMap (cv : coords) (frame : string)
| EInterp1d (xq : Np.ndarray F)
| EFourierImshift (a : Np.ndarray F) (dx dy : F)
| EPadOrCut (a : Np.ndarray F) (n : nat)
| EGaussFit (a : Np.ndarray F) (amplitude x_mean y_mean : F)
| ERthetaToXy (r th : Np.ndarray F)
| EConvert (x y : Np.ndarray F) (frame_in frame_out : string)
| ERotate (a : Np.ndarray F) (angle : F) (reshape : bool) (mode : string) (cval : F)
          (axes : Z * Z)
| EFrebin (a : Np.ndarray F) (scale : F).

End Interface.
Arguments Siaf F : clear implicits.
Arguments Inst F : clear implicits.
Arguments coords F : clear implicits.
Arguments External F : clear implicits.
Arguments event F : clear implicits.
End Webbpsf.

(** ** The class JWST_PSF *)

Module JWST_PSF.
Import Webbpsf.

Section Class.
Context {F : Type} `{Num F}.
Variable ext : External F.

Local Abbreviation ndarray := (Np.ndarray F).

(** The instance attributes.  An attribute that was never assigned is
    [None]; reading it raises [AttributeError]. *)
Record Engine : Type := mk_engine {
  inst_ext : option inst_kind;
  psf_bar_xvals : option (list F);
  psf_on : option ndarray;
  psf_off : option ndarray;
  _xy_off_to_cen : option (F * F);
  inst_on : option (Inst F);
  inst_off : option (Inst F);
  _use_coeff : option bool;
  _func_on : option psf_func;
  _func_off : option psf_func;
  sp : option (option Spectrum);
  xoff : option F;
  yoff : option F
}.

(** A freshly allocated object, before [__init__] runs. *)
Definition new_object : Engine :=
  mk_engine None None None None None None None None None None None None None.

Definition set_inst_ext v (e : Engine) : Engine :=
  mk_engine (Some v) (psf_bar_xvals e) (psf_on e) (psf_off e) (_xy_off_to_cen e)
    (inst_on e) (inst_off e) (_use_coeff e) (_func_on e) (_func_off e) (sp e) (xoff e) (yoff e).
Definition set_psf_bar_xvals v (e : Engine) : Engine :=
  mk_engine (inst_ext e) (Some v) (psf_on e) (psf_off e) (_xy_off_to_cen e)
    (inst_on e) (inst_off e) (_use_coeff e) (_func_on e) (_func_off e) (sp e) (xoff e) (yoff e).
Definition set_psf_on v (e : Engine) : Engine :=
  mk_engine (inst_ext e) (psf_bar_xvals e) (Some v) (psf_off e) (_xy_off_to_cen e)
    (inst_on e) (inst_off e) (_use_coeff e) (_func_on e) (_func_off e) (sp e) (xoff e) (yoff e).
Definition set_psf_off v (e : Engine) : Engine :=
  mk_engine (inst_ext e) (psf_bar_xvals e) (psf_on e) (Some v) (_xy_off_to_cen e)
    (inst_on e) (inst_off e) (_use_coeff e) (_func_on e) (_func_off e) (sp e) (xoff e) (yoff e).
Definition set_xy_off_to_cen v (e : Engine) : Engine :=
  mk_engine (inst_ext e) (psf_bar_xvals e) (psf_on e) (psf_off e) (Some v)
    (inst_on e) (inst_off e) (_use_coeff e) (_func_on e) (_func_off e) (sp e) (xoff e) (yoff e).
Definition set_inst_on v (e : Engine) : Engine :=
  mk_engine (inst_ext e) (psf_bar_xvals e) (psf_on e) (psf_off e) (_xy_off_to_cen e)
    (Some v) (inst_off e) (_use_coeff e) (_func_on e) (_func_off e) (sp e) (xoff e) (yoff e).
Definition set_inst_off v (e : Engine) : Engine :=
  mk_engine (inst_ext e) (psf_bar_xvals e) (psf_on e) (psf_off e) (_xy_off_to_cen e)
    (inst_on e) (Some v) (_use_coeff e) (_func_on e) (_func_off e) (sp e) (xoff e) (yoff e).
Definition set_use_coeff v (e : Engine) : Engine :=
  mk_engine (inst_ext e) (psf_bar_xvals e) (psf_on e) (psf_off e) (_xy_off_to_cen e)
    (inst_on e) (inst_off e) (Some v) (_func_on e) (_func_off e) (sp e) (xoff e) (yoff e).
Definition set_func_on v (e : Engine) : Engine :=
  mk_engine (inst_ext e) (psf_bar_xvals e) (psf_on e) (psf_off e) (_xy_off_to_cen e)
    (inst_on e) (inst_off e) (_use_coeff e) (Some v) (_func_off e) (sp e) (xoff e) (yoff e).
Definition set_func_off v (e : Engine) : Engine :=
  mk_engine (inst_ext e) (psf_bar_xvals e) (psf_on e) (psf_off e) (_xy_off_to_cen e)
    (inst_on e) (inst_off e) (_use_coeff e) (_func_on e) (Some v) (sp e) (xoff e) (yoff e).
Definition set_sp v (e : Engine) : Engine :=
  mk_engine (inst_ext e) (psf_bar_xvals e) (psf_on e) (psf_off e) (_xy_off_to_cen e)
    (inst_on e) (inst_off e) (_use_coeff e) (_func_on e) (_func_off e) (Some v) (xoff e) (yoff e).
Definition set_xoff v (e : Engine) : Engine :=
  mk_engine (inst_ext e) (psf_bar_xvals e) (psf_on e) (psf_off e) (_xy_off_to_cen e)
    (inst_on e) (inst_off e) (_use_coeff e) (_func_on e) (_func_off e) (sp e) (Some v) (yoff e).
Definition set_yoff v (e : Engine) : Engine :=
  mk_engine (inst_ext e) (psf_bar_xvals e) (psf_on e) (psf_off e) (_xy_off_to_cen e)
    (inst_on e) (inst_off e) (_use_coeff e) (_func_on e) (_func_off e) (sp e) (xoff e) (Some v).

(** *** The monad of a method body

    The world is the object and the calls made so far.  An exception
    leaves the world as it was when it was raised. *)

Record World : Type := mk_world { self : Engine; calls : list (event F) }.

Definition M (A : Type) : Type := World -> (pyerr + A) * World.

Definition ret {A : Type} (a : A) : M A := fun w => (inr a, w).
Definition raise {A : Type} (e : pyerr) : M A := fun w => (inl e, w).
Definition bind {A B : Type} (m : M A) (k : A -> M B) : M B :=
  fun w =>
    match m w with
    | (inl e, w') => (inl e, w')
    | (inr a, w') => k a w'
    end.
Definition lift {A : Type} (r : pyerr + A) : M A := fun w => (r, w).

(** [self.name] *)
Definition getattr {A : Type} (name : string) (field : Engine -> option A) : M A :=
  fun w =>
    match field (self w) with
    | Some a => (inr a, w)
    | None => (inl (AttributeError name), w)
    end.

(** [self.name = v] *)
Definition setattr (upd : Engine -> Engine) : M unit :=
  fun w => (inr tt, mk_world (upd (self w)) (calls w)).

(** A call into a collaborator that returns [v]. *)
Definition call {A : Type} (ev : event F) (v : A) : M A :=
  fun w => (inr v, mk_world (self w) (calls w ++ [ev])).

(** A call into a collaborator that returns or raises. *)
Definition call_result {A : Type} (ev : event F) (r : pyerr + A) : M A :=
  fun w => (r, mk_world (self w) (calls w ++ [ev])).

Notation "x <- m ;; k" := (bind m (fun x => k))
  (at level 61, m at next level, right associativity).
Notation "' p <- m ;; k" := (bind m (fun x => let 'p := x in k))
  (at level 61, p pattern, m at next level, right associativity).
Notation "m ;;; k" := (bind m (fun _ => k))
  (at level 61, right associativity).

(** [for a in l: body(a)], collecting what the bodies return. *)
Fixpoint for_each {A B : Type} (l : list A) (body : A -> M B) : M (list B) :=
  match l with
  | [] => ret []
  | a :: l' => b <- body a ;; bs <- for_each l' body ;; ret (b :: bs)
  end.

(** [for a in l: s = body(s, a)], the loop variables threaded through. *)
Fixpoint for_fold {A S : Type} (l : list A) (body : S -> A -> M S) (s : S) : M S :=
  match l with
  | [] => ret s
  | a :: l' => s' <- body s a ;; for_fold l' body s'
  end.

(** *** Wrappers of the collaborators: the shapes they return *)

(** [fourier_imshift(a, dx, dy, pad=True)] returns an array of the shape
    of [a]. *)
Definition fourier_imshift (a : ndarray) (dx dy : F) : M ndarray :=
  call (EFourierImshift a dx dy)
       (Np.mk_nd (Np.shape a) (fourier_imshift_data ext (Np.shape a) (Np.data a) dx dy)).

(** [pad_or_cut_to_size(a, n)] returns the last two axes at size [n]. *)
Definition pad_or_cut_to_size (a : ndarray) (n : nat) : M ndarray :=
  call (EPadOrCut a n)
       (Np.mk_nd (firstn (List.length (Np.shape a) - 2) (Np.shape a) ++ [n; n])
                 (pad_or_cut_data ext a n)).

(** [rotate(a, angle, reshape=False, mode='constant', cval=0, axes=(-1,-2))]
    returns an array of the shape of [a]. *)
Definition rotate (a : ndarray) (angle : F) : M ndarray :=
  call (ERotate a angle false "constant" fzero (-1, -2)%Z)
       (Np.mk_nd (Np.shape a) (rotate_data ext (Np.shape a) (Np.data a) angle)).

Definition shape_eqb (s1 s2 : list nat) : bool :=
  if list_eq_dec Nat.eq_dec s1 s2 then true else false.

(** Modelled from the spec: [_transmission_map] of webbpsf_ext is not in
    the repository.  Section 6: [get_transmission(position_batch, frame)
    -> (amplitude[], aux_coords[])], the amplitude transmission and the
    ideal-frame coordinates per query; the three results have the shape
    of the query. *)
Definition _transmission_map (io : Inst F) (cv : coords F) (frame : string)
  : M (ndarray * ndarray * ndarray) :=
  let '(cx, cy) := cv in
  call_result (ETransmissionMap cv frame)
    (if shape_eqb (Np.shape cx) (Np.shape cy)
     then
       let pts := Np.zip_with (transmission_at ext io frame) (Np.data cx) (Np.data cy) in
       inr (Np.mk_nd (Np.shape cx) (List.map (fun p => fst (fst p)) pts),
            Np.mk_nd (Np.shape cx) (List.map (fun p => snd (fst p)) pts),
            Np.mk_nd (Np.shape cx) (List.map (fun p => snd p) pts))
     else inl (ValueError "inhomogeneous coordinate arrays")).

(** [interp1d(xvals, psf_arr, kind='linear', fill_value='extrapolate',
    axis=0)(xq)]: one interpolated frame per query value, of shape
    [xq.shape + psf_arr.shape[1:]]. *)
Definition interp1d (xvals : list F) (psf_arr xq : ndarray) : M ndarray :=
  call (EInterp1d xq)
       (Np.mk_nd (Np.shape xq ++ tl (Np.shape psf_arr))
                 (List.concat (List.map (interp_at ext xvals psf_arr) (Np.data xq)))).

(** [sp.renorm(1, 'counts', bandpass)] *)
Definition renorm (s : Spectrum) (bp : Bandpass) : M Spectrum :=
  call_result (ERenorm s)
    (match sp_renorm ext s bp with
     | Some s' => inr s'
     | None => inl (ExternalError "renorm")
     end).

(** [try: body except: handler] *)
Definition try_except {A : Type} (body handler : M A) : M A :=
  fun w =>
    match body w with
    | (inl _, w') => handler w'
    | (inr a, w') => (inr a, w')
    end.

(** *** Properties *)

Definition fov_pix : M nat := io <- getattr "inst_on" inst_on ;; ret (Webbpsf.fov_pix io).
Definition oversample : M nat := io <- getattr "inst_on" inst_on ;; ret (Webbpsf.oversample io).
Definition filter : M string := io <- getattr "inst_on" inst_on ;; ret (Webbpsf.filter io).
Definition image_mask : M (option string) :=
  io <- getattr "inst_on" inst_on ;; ret (Webbpsf.image_mask io).
Definition pupil_mask : M (option string) :=
  io <- getattr "inst_on" inst_on ;; ret (Webbpsf.pupil_mask io).
Definition use_coeff : M bool := getattr "_use_coeff" _use_coeff.
Definition bandpass : M Bandpass := io <- getattr "inst_on" inst_on ;; ret (Webbpsf.bandpass io).

(** *** _calc_psf_off_shift *)

(** [np.arange(n).mean()] *)
Definition arange_mean (n : nat) : F :=
  fdiv (of_nat (List.fold_right Nat.add 0 (List.seq 0 n))) (of_nat n).

(** [a.max()] *)
Definition max (a : ndarray) : M F :=
  if Np.size a =? 0
  then raise (ValueError "zero-size array to reduction operation maximum")
  else ret (amax ext a).

(** The loop variables of the centroiding loop. *)
Record centroid_vars : Type := mk_cv {
  psf_template : ndarray;
  cv_xoff : F;
  cv_yoff : F
}.

(** The body of [for ii in range(2)]. *)
Definition centroid_pass (xysub : nat) (xc yc : F) (v : centroid_vars) (ii : nat)
  : M centroid_vars :=
  psf_off <- pad_or_cut_to_size (psf_template v) xysub ;;
  amplitude <- max psf_off ;;
  pfit <- call (EGaussFit psf_off amplitude xc yc)
               (gauss_fit ext xysub psf_off amplitude xc yc) ;;
  let xcen_psf := fsub xc (fst pfit) in
  let ycen_psf := fsub yc (snd pfit) in
  let xoff := fadd (cv_xoff v) xcen_psf in
  let yoff := fadd (cv_yoff v) ycen_psf in
  tmpl <- fourier_imshift (psf_template v) xcen_psf ycen_psf ;;
  ret (mk_cv tmpl xoff yoff).

Definition _calc_psf_off_shift (xysub : nat) : M unit :=
  let xc := arange_mean xysub in
  let yc := arange_mean xysub in
  off <- getattr "psf_off" psf_off ;;
  psf_template <- pad_or_cut_to_size off (xysub + 10) ;;
  v <- for_fold (List.seq 0 2) (centroid_pass xysub xc yc) (mk_cv psf_template fzero fzero) ;;
  setattr (set_xy_off_to_cen (cv_xoff v, cv_yoff v)).

(** *** _recenter_psfs, _shift_psfs *)

Definition _recenter_psfs (xysub : nat) : M unit :=
  _calc_psf_off_shift xysub ;;;
  xy <- getattr "_xy_off_to_cen" _xy_off_to_cen ;;
  let '(xoff, yoff) := xy in
  on <- getattr "psf_on" psf_on ;;
  on' <- fourier_imshift on xoff yoff ;;
  setattr (set_psf_on on') ;;;
  off <- getattr "psf_off" psf_off ;;
  off' <- fourier_imshift off xoff yoff ;;
  setattr (set_psf_off off').

Definition _shift_psfs (shifts : F * F) : M unit :=
  let '(xoff, yoff) := shifts in
  on <- getattr "psf_on" psf_on ;;
  on' <- fourier_imshift on xoff yoff ;;
  setattr (set_psf_on on') ;;;
  off <- getattr "psf_off" psf_off ;;
  off' <- fourier_imshift off xoff yoff ;;
  setattr (set_psf_off off') ;;;
  setattr (set_xoff xoff) ;;;
  setattr (set_yoff yoff).

(** *** rth_to_xy *)

Definition rth_to_xy (r th : ndarray) (PA_V3 : F) (frame_out : string) (addV3Yidl : bool)
  : M (ndarray * ndarray) :=
  PA_ap <- (if addV3Yidl
            then io <- getattr "inst_on" inst_on ;;
                 ret (fadd PA_V3 (V3IdlYAngle (Webbpsf.siaf_ap io)))
            else ret PA_V3) ;;
  let th_fin := Np.map (fun t => fsub t PA_ap) th in
  xy <- call (ERthetaToXy r th_fin) (rtheta_to_xy ext r th_fin) ;;
  let '(xidl, yidl) := xy in
  if (frame_out =? "idl")%string
  then ret (xidl, yidl)
  else io <- getattr "inst_on" inst_on ;;
       call (EConvert xidl yidl "idl" frame_out)
            (siaf_convert ext (Webbpsf.siaf_ap io) xidl yidl "idl" frame_out).

(** *** gen_psf_idl *)

(** Lines 347-348:
    [avals.reshape([-1,1,1]) * psf_off.reshape([1,ny,nx])
     + bvals.reshape([-1,1,1]) * psf_on.reshape([1,ny,nx])],
    the operands evaluated from left to right. *)
Definition blend (avals bvals psf_off psf_on : ndarray) (ny nx : nat) : pyerr + ndarray :=
  Np.and_then (Np.reshape avals [None; Some 1; Some 1]) (fun a3 =>
  Np.and_then (Np.reshape psf_off [Some 1; Some ny; Some nx]) (fun off3 =>
  Np.and_then (Np.binop fmul a3 off3) (fun lhs =>
  Np.and_then (Np.reshape bvals [None; Some 1; Some 1]) (fun b3 =>
  Np.and_then (Np.reshape psf_on [Some 1; Some ny; Some nx]) (fun on3 =>
  Np.and_then (Np.binop fmul b3 on3) (fun rhs =>
  Np.binop fadd lhs rhs)))))).

(** The branch [if quick:] (lines 329-348): the blend of the two
    reference PSFs, one frame per queried position. *)
Definition quick_psfs (coord_vals : coords F) (coord_frame : string) (ny nx : nat)
  : M ndarray :=
  io <- getattr "inst_on" inst_on ;;
  tm <- _transmission_map io coord_vals coord_frame ;;
  let '(t_temp, cx_idl, cy_idl) := tm in
  let trans := Np.map (fun t => fmul t t) t_temp in
  let avals := trans in
  let bvals := Np.map (fun a => fsub fone a) avals in
  mask <- image_mask ;;
  c <- lift (Py.subscript_last mask) ;;
  on <- (if Ascii.eqb c "B"
         then xvals <- getattr "psf_bar_xvals" psf_bar_xvals ;;
              psf_arr <- getattr "psf_on" psf_on ;;
              interp1d xvals psf_arr cx_idl
         else getattr "psf_on" psf_on) ;;
  off <- getattr "psf_off" psf_off ;;
  lift (blend avals bvals off on ny nx).

(** The branch [else:] (lines 351-362): a PSF computed by webbpsf_ext and
    moved by the centering offset. *)
Definition slow_psfs (coord_vals : coords F) (coord_frame : string)
           (sp_arg : option Spectrum) (ny nx : nat) : M ndarray :=
  calc_psf <- getattr "_func_on" _func_on ;;
  sp' <- (match sp_arg with
          | None => getattr "sp" sp
          | Some s => ret (Some s)
          end) ;;
  io <- getattr "inst_on" inst_on ;;
  psfs <- call (ECalc calc_psf io sp' (Some coord_vals) (Some coord_frame))
               (calc ext calc_psf io sp' (Some coord_vals) (Some coord_frame)) ;;
  psfs <- lift (Np.reshape psfs [None; Some ny; Some nx]) ;;
  xy <- getattr "_xy_off_to_cen" _xy_off_to_cen ;;
  let '(xoff, yoff) := xy in
  fourier_imshift psfs xoff yoff.

(** The branch [if do_shift:] (lines 365-379). *)
Definition shift_psfs (psfs : ndarray) (coord_vals : coords F) (coord_frame : string)
           (siaf : Siaf F) (osamp : nat) : M ndarray :=
  xy <- (if (coord_frame =? "idl")%string
         then ret coord_vals
         else call (EConvert (fst coord_vals) (snd coord_vals) coord_frame "idl")
                   (siaf_convert ext siaf (fst coord_vals) (snd coord_vals)
                                 coord_frame "idl")) ;;
  let '(xidl, yidl) := xy in
  let dx_pix :=
    Np.ravel (Np.map (fun x => fdiv (fmul (of_nat osamp) x) (XSciScale siaf)) xidl) in
  let dy_pix :=
    Np.ravel (Np.map (fun y => fdiv (fmul (of_nat osamp) y) (YSciScale siaf)) yidl) in
  ims <- lift (Np.frames psfs) ;;
  psfs_sh <- for_each (Py.enumerate ims)
               (fun i_im =>
                  dx <- lift (Py.index dx_pix (fst i_im)) ;;
                  dy <- lift (Py.index dy_pix (fst i_im)) ;;
                  fourier_imshift (snd i_im) dx dy) ;;
  ret (Np.stack psfs_sh).

Definition gen_psf_idl (coord_vals : coords F) (coord_frame : string) (quick : bool)
           (sp_arg : option Spectrum) (return_oversample do_shift : bool) : M ndarray :=
  io <- getattr "inst_on" inst_on ;;
  let siaf := Webbpsf.siaf_ap io in
  let osamp := Webbpsf.oversample io in
  fp <- fov_pix ;;
  let nx := fp * osamp in
  let ny := nx in
  sp_arg <- (match sp_arg with
             | Some s => bp <- bandpass ;; s' <- renorm s bp ;; ret (Some s')
             | None => ret None
             end) ;;
  psfs <- (if quick
           then quick_psfs coord_vals coord_frame ny nx
           else slow_psfs coord_vals coord_frame sp_arg ny nx) ;;
  psfs <- (if do_shift
           then shift_psfs psfs coord_vals coord_frame siaf osamp
           else ret psfs) ;;
  psfs <- (if negb return_oversample
           then let scale := fdiv fone (of_nat osamp) in
                call (EFrebin psfs scale) (frebin ext psfs scale)
           else ret psfs) ;;
  ret (Np.squeeze psfs).

(** *** gen_psf *)

(** Lines 423-427: the location in the ideal frame.  With another [mode]
    the names [xidl], [yidl] are unbound where line 430 reads them. *)
Definition locate (loc : coords F) (mode : string) (PA_V3 : F) (addV3Yidl : bool)
  : M (coords F) :=
  if (mode =? "rth")%string
  then rth_to_xy (fst loc) (snd loc) PA_V3 "idl" addV3Yidl
  else if (mode =? "xy")%string
       then ret loc
       else raise (UnboundLocalError "xidl").

Definition gen_psf (loc : coords F) (mode : string) (PA_V3 : F)
           (return_oversample do_shift addV3Yidl normalize : bool)
           (quick : bool) (sp_arg : option Spectrum) : M ndarray :=
  io <- getattr "inst_on" inst_on ;;
  let siaf := Webbpsf.siaf_ap io in
  let osamp := Webbpsf.oversample io in
  fp <- fov_pix ;;
  let nx := fp * osamp in
  let ny := nx in
  xy <- locate loc mode PA_V3 addV3Yidl ;;
  psf <- gen_psf_idl xy "idl" quick sp_arg true do_shift ;;
  psf <- (if do_shift
          then psf3 <- lift (Np.reshape psf [None; Some ny; Some nx]) ;;
               let PA_ap := fadd PA_V3 (V3IdlYAngle siaf) in
               rotate psf3 (fneg PA_ap)
          else ret psf) ;;
  psf <- (if negb return_oversample
          then let scale := fdiv fone (of_nat osamp) in
               call (EFrebin psf scale) (frebin ext psf scale)
          else ret psf) ;;
  let psf := Np.squeeze psf in
  if normalize
  then ret (Np.map (fun x => fdiv x (Np.sum psf)) psf)
  else ret psf.

(** *** __init__ *)

(** [inst.options['jitter'] = j], [inst.options['jitter_sigma'] = v], and
    what [load_wss_opd_by_date], [gen_psf_coeff], [gen_wfemask_coeff]
    leave in the instrument object. *)
Definition with_jitter (j : option string) (sigma : F) (io : Inst F) : Inst F :=
  mk_inst (kind io) (Webbpsf.filter io) (Webbpsf.image_mask io) (Webbpsf.pupil_mask io)
    (Webbpsf.fov_pix io) (Webbpsf.oversample io) (siaf_ap io) (Webbpsf.bandpass io)
    (opd_date io) (match j with Some _ => j | None => jitter io end) (Some sigma)
    (psf_coeff io) (wfemask_coeff io).
Definition with_opd_date (d : string) (io : Inst F) : Inst F :=
  mk_inst (kind io) (Webbpsf.filter io) (Webbpsf.image_mask io) (Webbpsf.pupil_mask io)
    (Webbpsf.fov_pix io) (Webbpsf.oversample io) (siaf_ap io) (Webbpsf.bandpass io)
    (Some d) (jitter io) (jitter_sigma io) (psf_coeff io) (wfemask_coeff io).
Definition with_psf_coeff (io : Inst F) : Inst F :=
  mk_inst (kind io) (Webbpsf.filter io) (Webbpsf.image_mask io) (Webbpsf.pupil_mask io)
    (Webbpsf.fov_pix io) (Webbpsf.oversample io) (siaf_ap io) (Webbpsf.bandpass io)
    (opd_date io) (jitter io) (jitter_sigma io) true (wfemask_coeff io).
Definition with_wfemask_coeff (io : Inst F) : Inst F :=
  mk_inst (kind io) (Webbpsf.filter io) (Webbpsf.image_mask io) (Webbpsf.pupil_mask io)
    (Webbpsf.fov_pix io) (Webbpsf.oversample io) (siaf_ap io) (Webbpsf.bandpass io)
    (opd_date io) (jitter io) (jitter_sigma io) (psf_coeff io) true.

(** [self.inst_ext(filter=, image_mask=, pupil_mask=, fov_pix=, oversample=)] *)
Definition new_inst (k : inst_kind) (filt : string) (im pm : option string)
           (fp os : nat) : M (Inst F) :=
  call_result (EInstExt k filt im pm fp os)
    (if inst_accepts ext k filt im pm
     then inr (mk_inst k filt im pm fp os (inst_siaf ext k filt im)
                       (inst_bandpass ext k filt im pm) None None None false false)
     else inl (ValueError "unsupported instrument configuration")).

(** Lines 70-78: the Lyot stop chosen from the name of the mask. *)
Definition choose_pupil_mask (image_mask : option string) : M (option string) :=
  match image_mask with
  | None => ret None
  | Some m =>
      c <- lift (Py.subscript_last image_mask) ;;
      if Ascii.eqb c "R" then ret (Some "CIRCLYOT")
      else if Ascii.eqb c "B" then ret (Some "WEDGELYOT")
      else ret (Some (if Py.contains "FQPM" m then "MASKFQPM" else "MASKLYOT"))
  end.

(** [np.linspace(-8, 8, 9)] *)
Definition bar_xvals : list F := List.map of_Z [-8; -6; -4; -2; 0; 2; 4; 6; 8]%Z.

Definition __init__ (inst filt : string) (image_mask : option string)
           (fov_pix oversample : nat) (sp_arg : option Spectrum) (use_coeff : bool)
           (date : option string) : M unit :=
  (* Assign extension to use based on instrument *)
  (if (Py.upper inst =? "NIRCAM")%string then setattr (set_inst_ext NIRCam_ext)
   else if (Py.upper inst =? "MIRI")%string then setattr (set_inst_ext MIRI_ext)
   else ret tt) ;;;
  (* Choose Lyot stop based on coronagraphic mask input *)
  pupil_mask <- choose_pupil_mask image_mask ;;
  k <- getattr "inst_ext" inst_ext ;;
  inst_on <- new_inst k filt image_mask pupil_mask fov_pix oversample ;;
  k <- getattr "inst_ext" inst_ext ;;
  inst_off <- new_inst k filt None pupil_mask fov_pix oversample ;;
  (* Load date-specific OPD files? *)
  insts <- (match date with
            | Some d =>
                call (ELoadWssOpd d) tt ;;;
                call (ELoadWssOpd d) tt ;;;
                ret (with_opd_date d inst_on, with_opd_date d inst_off)
            | None => ret (inst_on, inst_off)
            end) ;;
  let '(inst_on, inst_off) := insts in
  (* Generating initial PSFs... *)
  cfg <- (if use_coeff
          then call EGenPsfCoeff tt ;;;
               call EGenPsfCoeff tt ;;;
               call EGenWfemaskCoeff tt ;;;
               ret (with_wfemask_coeff (with_psf_coeff (with_jitter None fzero inst_on)),
                    with_psf_coeff (with_jitter None fzero inst_off),
                    calc_psf_from_coeff, calc_psf_from_coeff)
          else ret (with_jitter (Some "gaussian") fzero inst_on,
                    with_jitter (Some "gaussian") fzero inst_off,
                    calc_psf, calc_psf)) ;;
  let '(inst_on, inst_off, func_on, func_off) := cfg in
  (* Renormalize spectrum to have 1 e-/sec within bandpass *)
  sp' <- (match sp_arg with
          | Some s =>
              s' <- try_except
                      (renorm s (Webbpsf.bandpass inst_on))
                      (s2 <- call_result (EArraySpectrum s)
                               (match array_spectrum ext s with
                                | Some x => inr x
                                | None => inl (ExternalError "ArraySpectrum")
                                end) ;;
                       renorm s2 (Webbpsf.bandpass inst_on)) ;;
              ret (Some s')
          | None => ret None
          end) ;;
  (* On axis PSF *)
  c <- lift (Py.subscript_last image_mask) ;;
  (if Ascii.eqb c "B"
   then let xvals := bar_xvals in
        setattr (set_psf_bar_xvals xvals) ;;;
        psf_bar_arr <- for_each xvals
                         (fun xv =>
                            let cv := Some (Np.scalar xv, Np.scalar fzero) in
                            call (ECalc func_on inst_on sp' cv (Some "idl"))
                                 (calc ext func_on inst_on sp' cv (Some "idl"))) ;;
        setattr (set_psf_on (Np.stack psf_bar_arr))
   else psf <- call (ECalc func_on inst_on sp' None None)
                    (calc ext func_on inst_on sp' None None) ;;
        setattr (set_psf_on psf)) ;;;
  (* Off axis PSF *)
  psf <- call (ECalc func_off inst_off sp' None None)
              (calc ext func_off inst_off sp' None None) ;;
  setattr (set_psf_off psf) ;;;
  (* Center PSFs *)
  _recenter_psfs 10 ;;;
  (* Store instrument classes *)
  setattr (set_inst_on inst_on) ;;;
  setattr (set_inst_off inst_off) ;;;
  (* PSF generation functions for later use *)
  setattr (set_use_coeff use_coeff) ;;;
  setattr (set_func_on func_on) ;;;
  setattr (set_func_off func_off) ;;;
  setattr (set_sp sp').

(** [JWST_PSF(inst, filt, image_mask, fov_pix, ...)]: a new object, then
    [__init__]; the caller gets the object only if [__init__] returns. *)
Definition construct (inst filt : string) (image_mask : option string)
           (fov_pix oversample : nat) (sp_arg : option Spectrum) (use_coeff : bool)
           (date : option string) : (pyerr + Engine) * list (event F) :=
  match __init__ inst filt image_mask fov_pix oversample sp_arg use_coeff date
                 (mk_world new_object []) with
  | (inr _, w) => (inr (self w), calls w)
  | (inl e, w) => (inl e, calls w)
  end.

(** *** Vocabulary of the statements *)

(** A computation that leaves every attribute of [self] as it found it,
    whether it returns or raises. *)
Definition reads_only {A : Type} (m : M A) : Prop :=
  forall w, self (snd (m w)) = self w.

(** An image of [ny] rows and [nx] columns. *)
Definition image (a : ndarray) (ny nx : nat) : Prop :=
  Np.shape a = [ny; nx] /\ List.length (Np.data a) = ny * nx.

(** Queried positions: the two coordinate arrays have one shape and as many
    elements as it says. *)
Definition positions (cv : coords F) : Prop :=
  Np.shape (snd cv) = Np.shape (fst cv) /\
  List.length (Np.data (fst cv)) = Np.size (fst cv) /\
  List.length (Np.data (snd cv)) = Np.size (fst cv).

(** What the mask does at each queried position: (t, x_idl, y_idl). *)
Definition samples (io : Inst F) (cv : coords F) (frame : string) : list (F * F * F) :=
  Np.zip_with (transmission_at ext io frame) (Np.data (fst cv)) (Np.data (snd cv)).

(** t^2 * off + (1 - t^2) * on, element by element. *)
Definition blend_frame (t : F) (off on : list F) : list F :=
  Np.zip_with (fun o n => fadd (fmul (fmul t t) o) (fmul (fsub fone (fmul t t)) n)) off on.

(** The side of the oversampled images. *)
Definition side (io : Inst F) : nat := Webbpsf.fov_pix io * Webbpsf.oversample io.

(** The mask is a bar: its name ends in B. *)
Definition is_bar (io : Inst F) : bool :=
  match Webbpsf.image_mask io with
  | Some m =>
      match Py.last_char m with
      | Some c => Ascii.eqb c "B"
      | None => false
      end
  | None => false
  end.

(** The object as [__init__] leaves it: the instrument, a named mask, the
    off-axis image, and the on-axis reference, one image or for a bar mask
    the stack along the bar.  [on_at x] is the on-axis image used at the
    ideal coordinate [x]. *)
Record ready (w : World) (io : Inst F) (off : ndarray) (on_at : F -> list F) : Prop := {
  ready_inst : inst_on (self w) = Some io;
  ready_mask : exists m c, Webbpsf.image_mask io = Some m /\ Py.last_char m = Some c;
  ready_off : psf_off (self w) = Some off /\ image off (side io) (side io);
  ready_on :
    if is_bar io
    then exists xvals arr k,
        psf_bar_xvals (self w) = Some xvals /\
        psf_on (self w) = Some arr /\
        Np.shape arr = [k; side io; side io] /\
        forall x, on_at x = interp_at ext xvals arr x /\
                  List.length (on_at x) = side io * side io
    else exists on,
        psf_on (self w) = Some on /\
        image on (side io) (side io) /\
        forall x, on_at x = Np.data on
}.

(** [fourier_imshift(a, dx, dy, pad=True)] as a value. *)
Definition shifted (a : ndarray) (dx dy : F) : ndarray :=
  Np.mk_nd (Np.shape a) (fourier_imshift_data ext (Np.shape a) (Np.data a) dx dy).

(** What the statements about construction ask of the collaborators: the
    reference PSF of an instrument is an image of its oversampled side, the
    shifter returns as many pixels as it gets, and the interpolation along
    the bar returns one frame. *)
Record well_behaved : Prop := {
  calc_image : forall f io sp,
      image (calc ext f io sp None None) (side io) (side io);
  calc_image_at : forall f io sp x y fr,
      image (calc ext f io sp (Some (Np.scalar x, Np.scalar y)) fr) (side io) (side io);
  shift_length : forall s d dx dy,
      List.length (fourier_imshift_data ext s d dx dy) = List.length d;
  interp_length : forall xvals arr x,
      List.length (interp_at ext xvals arr x) = Np.prod (tl (Np.shape arr))
}.

(** The effect of [normalize=True] on what a call returns: lines 446-447. *)
Definition normalized (r : (pyerr + ndarray) * World) : (pyerr + ndarray) * World :=
  match r with
  | (inr psf, w') => (inr (Np.map (fun v => fdiv v (Np.sum psf)) psf), w')
  | (inl e, w') => (inl e, w')
  end.

(** A computation that only adds to the record of calls. *)
Definition appends {A : Type} (m : M A) : Prop :=
  forall w, exists l, calls (snd (m w)) = calls w ++ l.

(** The extension class that lines 65-68 assign for an instrument name. *)
Definition recognised (inst : string) : option inst_kind :=
  if (Py.upper inst =? "NIRCAM")%string then Some NIRCam_ext
  else if (Py.upper inst =? "MIRI")%string then Some MIRI_ext
  else None.

(** What lines 110-118 leave in [sp] when no collaborator raises past the
    [except]. *)
Definition renormalised (sp_arg : option Spectrum) (bp : Bandpass)
  : option (option Spectrum) :=
  match sp_arg with
  | None => Some None
  | Some s =>
      match sp_renorm ext s bp with
      | Some s' => Some (Some s')
      | None =>
          match array_spectrum ext s with
          | Some s2 =>
              match sp_renorm ext s2 bp with
              | Some s' => Some (Some s')
              | None => None
              end
          | None => None
          end
      end
  end.

Definition is_calc (ev : event F) : bool :=
  match ev with
  | ECalc _ _ _ _ _ => true
  | _ => false
  end.

(** A computation whose calls into the collaborators all satisfy [p]. *)
Definition emits (p : event F -> bool) {A : Type} (m : M A) : Prop :=
  forall w, exists l, calls (snd (m w)) = calls w ++ l /\ forallb p l = true.

(** A computation that returns or raises the same in two worlds whose
    objects are related by [R], whatever calls were made before, and
    leaves the objects related. *)
Definition same_outcome (R : Engine -> Engine -> Prop) {A : Type} (m : M A) : Prop :=
  forall w1 w2,
    R (self w1) (self w2) ->
    fst (m w1) = fst (m w2) /\ R (self (snd (m w1))) (self (snd (m w2))).

(** Two objects that agree on every attribute but the reference PSFs
    [psf_on], [psf_off] and the last shift [xoff], [yoff]. *)
Definition same_setup (e1 e2 : Engine) : Prop :=
  inst_ext e1 = inst_ext e2 /\ psf_bar_xvals e1 = psf_bar_xvals e2 /\
  _xy_off_to_cen e1 = _xy_off_to_cen e2 /\
  inst_on e1 = inst_on e2 /\ inst_off e1 = inst_off e2 /\
  _use_coeff e1 = _use_coeff e2 /\
  _func_on e1 = _func_on e2 /\ _func_off e1 = _func_off e2 /\
  sp e1 = sp e2.

(** Lines 372-373: [osamp * xidl / scale], the shift in oversampled pixels
    of each position. *)
Definition pixel_shifts (osamp : nat) (scale : F) (a : ndarray) : list F :=
  List.map (fun x => fdiv (fmul (of_nat osamp) x) scale) (Np.data a).

(** The frames of a stack, each with the shift of its position. *)
Definition with_shifts (psfs : ndarray) (dxs dys : list F) : list (ndarray * (F * F)) :=
  match Np.frames psfs with
  | inr ims => List.combine ims (List.combine dxs dys)
  | inl _ => []
  end.

End Class.
Arguments Engine F : clear implicits.
Arguments World F : clear implicits.
Arguments M F A : clear implicits.
Arguments centroid_vars F : clear implicits.
Arguments reads_only F {A} m.
Arguments calc_image {F ext} w f io sp.
Arguments calc_image_at {F ext} w f io sp x y fr.
Arguments shift_length {F ext} w s d dx dy.
Arguments interp_length {F ext} w xvals arr x.
Arguments image {F} a ny nx.
Arguments positions {F} cv.
Arguments side {F} io.
Arguments is_bar {F} io.
Arguments appends F {A} m.
Arguments emits {F} p {A} m.
Arguments same_outcome {F} R {A} m.
Arguments same_setup {F} e1 e2.
Arguments pixel_shifts {F _} osamp scale a.
Arguments with_shifts {F} psfs dxs dys.
End JWST_PSF.

(** ** A laboratory configuration over the rationals

    Exact rationals for the scalars, and collaborators simple enough to run:
    the off-axis reference is flat with total one, the on-axis reference is
    dark, the amplitude transmission at (x, y) is x, the images are left
    where they are by the shifter, the rotation and the rebinning, and the
    fit finds the centre of its window. *)

Module Lab.
Import Webbpsf.

#[export] Instance Qc_num : Num Qc := {
  fzero := Q2Qc 0;
  fone := Q2Qc 1;
  fadd := Qcplus;
  fsub := Qcminus;
  fmul := Qcmult;
  fdiv := Qcdiv;
  fneg := Qcopp;
  of_Z := fun z => Q2Qc (inject_Z z)
}.

Definition flat (n : nat) (v : Qc) : Np.ndarray Qc :=
  Np.mk_nd [n; n] (List.repeat v (n * n)).

Definition lab_calc (f : psf_func) (io : Inst Qc) (sp : option Spectrum)
           (cv : option (coords Qc)) (frame : option string) : Np.ndarray Qc :=
  let n := Webbpsf.fov_pix io * Webbpsf.oversample io in
  match Webbpsf.image_mask io with
  | None => flat n (Qcdiv (Q2Qc 1) (of_nat (n * n)))
  | Some _ => flat n (Q2Qc 0)
  end.

Definition lab_renorm (s : Spectrum) (bp : Bandpass) : option Spectrum :=
  match s with
  | PysynphotSpectrum _ => Some s
  | SynphotSpectrum _ => None
  end.

Definition lab_array_spectrum (s : Spectrum) : option Spectrum :=
  match s with
  | PysynphotSpectrum n => Some (PysynphotSpectrum n)
  | SynphotSpectrum n => Some (PysynphotSpectrum n)
  end.

Definition lab_ext : External Qc := {|
  inst_accepts := fun _ _ _ _ => true;
  inst_siaf := fun _ _ _ => mk_siaf (Q2Qc 1) (Q2Qc 1) (Q2Qc 1);
  inst_bandpass := fun _ filt _ _ => filt;
  calc := lab_calc;
  transmission_at := fun _ _ x y => (x, x, y);
  fourier_imshift_data := fun _ d _ _ => d;
  pad_or_cut_data := fun _ n => List.repeat (Q2Qc 0) (n * n);
  frebin := fun a _ => a;
  rtheta_to_xy := fun r th => (r, th);
  siaf_convert := fun _ x y _ _ => (x, y);
  rotate_data := fun _ d _ => d;
  interp_at := fun _ arr _ =>
    let k := Np.prod (tl (Np.shape arr)) in
    firstn k (Np.data arr ++ List.repeat (Q2Qc 0) k);
  gauss_fit := fun _ _ _ xc yc => (xc, yc);
  amax := fun a => List.hd (Q2Qc 0) (Np.data a);
  sp_renorm := lab_renorm;
  array_spectrum := lab_array_spectrum
|}.

(** The world after [JWST_PSF('NIRCAM', 'F335M', 'MASK335R', 2, 1)]. *)
Definition round_world : JWST_PSF.World Qc :=
  snd (JWST_PSF.__init__ lab_ext "NIRCAM" "F335M" (Some "MASK335R") 2 1 None true None
         (JWST_PSF.mk_world JWST_PSF.new_object [])).

(** The world after [JWST_PSF('NIRCAM', 'F460M', 'MASKLWB', 2, 1)]. *)
Definition bar_world : JWST_PSF.World Qc :=
  snd (JWST_PSF.__init__ lab_ext "NIRCAM" "F460M" (Some "MASKLWB") 2 1 None true None
         (JWST_PSF.mk_world JWST_PSF.new_object [])).

(** What [round_world] and [bar_world] hold. *)
Definition one : Qc := Q2Qc 1.
Definition zero : Qc := Q2Qc 0.
Definition quarter : Qc := Qcdiv (Q2Qc 1) (of_nat 4).
Definition dark : list Qc := List.repeat (Q2Qc 0) 4.
Definition round_inst : Inst Qc :=
  mk_inst NIRCam_ext "F335M" (Some "MASK335R") (Some "CIRCLYOT") 2 1
          (mk_siaf (Q2Qc 1) (Q2Qc 1) (Q2Qc 1)) "F335M" None None (Some (Q2Qc 0)) true true.
Definition bar_inst : Inst Qc :=
  mk_inst NIRCam_ext "F460M" (Some "MASKLWB") (Some "WEDGELYOT") 2 1
          (mk_siaf (Q2Qc 1) (Q2Qc 1) (Q2Qc 1)) "F460M" None None (Some (Q2Qc 0)) true true.

(** A single position, and a batch of positions. *)
Definition at_ (x y : Qc) : coords Qc := (Np.scalar x, Np.scalar y).
Definition batch (xs ys : list Qc) : coords Qc := (Np.vector xs, Np.vector ys).

(** Two runs whose results later statements refer to: gen_psf without
    normalisation, and gen_psf_idl with the shift, at the position (1, 0). *)
Definition unnormalized_run :=
  JWST_PSF.gen_psf lab_ext (at_ one zero) "xy" zero true false true false true None
                   round_world.
Definition unnormalized_psf : Np.ndarray Qc :=
  match fst unnormalized_run with inr p => p | inl _ => Np.scalar zero end.

(** gen_psf without normalisation at a position of amplitude transmission
    1/2, and on the batch of the two positions (1, 0) and (1, 0). *)
Definition half : Qc := Qcdiv (Q2Qc 1) (of_nat 2).
Definition dimmed_run :=
  JWST_PSF.gen_psf lab_ext (at_ half zero) "xy" zero true false true false true None
                   round_world.
Definition dimmed_psf : Np.ndarray Qc :=
  match fst dimmed_run with inr p => p | inl _ => Np.scalar zero end.
Definition pair_run :=
  JWST_PSF.gen_psf lab_ext (batch [one; one] [zero; zero]) "xy" zero true false true false
                   true None round_world.
Definition pair_psf : Np.ndarray Qc :=
  match fst pair_run with inr p => p | inl _ => Np.scalar zero end.
Definition shifted_run :=
  JWST_PSF.gen_psf_idl lab_ext (at_ one zero) "idl" true None true true round_world.
Definition shifted_psf : Np.ndarray Qc :=
  match fst shifted_run with inr p => p | inl _ => Np.scalar zero end.

(** The centring offset that [round_world] holds. *)
Definition round_offset : Qc * Qc :=
  match JWST_PSF._xy_off_to_cen (JWST_PSF.self round_world) with
  | Some p => p
  | None => (zero, zero)
  end.

(** The quick blend at the positions (0, 0) and (1, 0), before any shift. *)
Definition blended_run :=
  JWST_PSF.quick_psfs lab_ext (batch [zero; one] [zero; zero]) "idl" 2 2 round_world.
Definition blended : Np.ndarray Qc :=
  match fst blended_run with inr p => p | inl _ => Np.scalar zero end.

End Lab.

(** * Properties *)

(** ** Query-time methods do not write to [self] *)

Section Frame.
Context {F : Type} `{Num F}.
Variable ext : Webbpsf.External F.
Import JWST_PSF.

Lemma reads_only_ret {A : Type} (a : A) : reads_only F (ret a).
Proof. intros w. reflexivity. Qed.

Lemma reads_only_raise {A : Type} (e : pyerr) : reads_only F (@raise F A e).
Proof. intros w. reflexivity. Qed.

Lemma reads_only_lift {A : Type} (r : pyerr + A) : reads_only F (@lift F A r).
Proof. intros w. reflexivity. Qed.

Lemma reads_only_getattr {A : Type} (name : string) (field : Engine F -> option A) :
  reads_only F (getattr name field).
Proof. intros w. unfold getattr. destruct (field (self w)); reflexivity. Qed.

Lemma reads_only_call {A : Type} (ev : Webbpsf.event F) (v : A) : reads_only F (call ev v).
Proof. intros w. reflexivity. Qed.

Lemma reads_only_call_result {A : Type} (ev : Webbpsf.event F) (r : pyerr + A) :
  reads_only F (call_result ev r).
Proof. intros w. reflexivity. Qed.

Lemma reads_only_bind {A B : Type} (m : M F A) (k : A -> M F B) :
  reads_only F m -> (forall a, reads_only F (k a)) -> reads_only F (bind m k).
Proof.
  intros Hm Hk w. unfold bind.
  specialize (Hm w). destruct (m w) as [[e | a] w']; cbn in *.
  - exact Hm.
  - rewrite Hk. exact Hm.
Qed.

Lemma reads_only_for_each {A B : Type} (l : list A) (body : A -> M F B) :
  (forall a, reads_only F (body a)) -> reads_only F (for_each l body).
Proof.
  intros Hb. induction l as [| a l IH]; cbn [for_each].
  - apply reads_only_ret.
  - apply reads_only_bind; [apply Hb | intros b].
    apply reads_only_bind; [exact IH | intros bs]. apply reads_only_ret.
Qed.

Create HintDb frame discriminated.
Hint Resolve reads_only_ret reads_only_raise reads_only_lift reads_only_getattr
     reads_only_call reads_only_call_result reads_only_for_each : frame.

Ltac frame_step :=
  match goal with
  | |- reads_only _ (bind _ _) => apply reads_only_bind; [| intros ?]
  | |- reads_only _ (for_each _ _) => apply reads_only_for_each; intros ?
  | |- reads_only _ (if ?b then _ else _) => destruct b
  | |- reads_only _ (match ?x with _ => _ end) => destruct x
  | |- reads_only _ (let '(_, _) := ?p in _) => destruct p
  | |- forall _, _ => intros ?
  | |- _ => solve [auto with frame]
  end.
Ltac frame := repeat frame_step.

Lemma reads_only_fourier_imshift a dx dy : reads_only F (fourier_imshift ext a dx dy).
Proof. unfold fourier_imshift. frame. Qed.

Lemma reads_only_transmission_map io cv frame_ :
  reads_only F (_transmission_map ext io cv frame_).
Proof. unfold _transmission_map. destruct cv. frame. Qed.

Lemma reads_only_image_mask : reads_only F (@image_mask F).
Proof. unfold image_mask. frame. Qed.

Lemma reads_only_fov_pix : reads_only F (@fov_pix F).
Proof. unfold fov_pix. frame. Qed.

Lemma reads_only_bandpass : reads_only F (@bandpass F).
Proof. unfold bandpass. frame. Qed.

Hint Resolve reads_only_fourier_imshift reads_only_transmission_map
     reads_only_image_mask reads_only_fov_pix reads_only_bandpass : frame.

Lemma reads_only_rth_to_xy r th PA_V3 frame_out addV3Yidl :
  reads_only F (rth_to_xy ext r th PA_V3 frame_out addV3Yidl).
Proof. unfold rth_to_xy. frame. Qed.

Lemma reads_only_quick_psfs cv frame_ ny nx :
  reads_only F (quick_psfs ext cv frame_ ny nx).
Proof. unfold quick_psfs, interp1d. frame. Qed.

Lemma reads_only_slow_psfs cv frame_ sp_arg ny nx :
  reads_only F (slow_psfs ext cv frame_ sp_arg ny nx).
Proof. unfold slow_psfs. frame. Qed.

Lemma reads_only_shift_psfs psfs cv frame_ siaf osamp :
  reads_only F (shift_psfs ext psfs cv frame_ siaf osamp).
Proof. unfold shift_psfs. frame. Qed.

Hint Resolve reads_only_rth_to_xy reads_only_quick_psfs reads_only_slow_psfs
     reads_only_shift_psfs : frame.

Lemma reads_only_gen_psf_idl cv frame_ quick sp_arg return_oversample do_shift :
  reads_only F (gen_psf_idl ext cv frame_ quick sp_arg return_oversample do_shift).
Proof. unfold gen_psf_idl, renorm. frame. Qed.

Hint Resolve reads_only_gen_psf_idl : frame.

Lemma reads_only_gen_psf loc mode PA_V3 ro ds av nz quick sp_arg :
  reads_only F (gen_psf ext loc mode PA_V3 ro ds av nz quick sp_arg).
Proof. unfold gen_psf, locate, rotate. frame. Qed.

(** C10: gen_psf, gen_psf_idl and rth_to_xy, whether they return or raise,
    leave psf_on, psf_off, _xy_off_to_cen and every other attribute of the
    object with the value it had before the call. *)
Theorem query_methods_leave_self_unchanged :
  forall w : World F,
    (forall loc mode PA_V3 ro ds av nz quick sp_arg,
        self (snd (gen_psf ext loc mode PA_V3 ro ds av nz quick sp_arg w)) = self w) /\
    (forall cv frame_ quick sp_arg ro ds,
        self (snd (gen_psf_idl ext cv frame_ quick sp_arg ro ds w)) = self w) /\
    (forall r th PA_V3 frame_out av,
        self (snd (rth_to_xy ext r th PA_V3 frame_out av w)) = self w).
Proof.
  intros w. repeat split; intros.
  - apply reads_only_gen_psf.
  - apply reads_only_gen_psf_idl.
  - apply reads_only_rth_to_xy.
Qed.

End Frame.

(** ** Coordinates and centroiding *)

Section Geometry.
Context {F : Type} `{Num F}.
Variable ext : Webbpsf.External F.
Import JWST_PSF Webbpsf.

(** C6, amended: rth_to_xy subtracts PA_V3 + V3IdlYAngle from the position
    angle when addV3Yidl is true (the default) and PA_V3 alone when it is
    false, passes the radius and that angle to rtheta_to_xy, and returns
    the pair as it is when frame_out is 'idl', without a call to the
    aperture converter; for another frame it converts the pair from 'idl'. *)
Theorem rth_to_xy_effective_angle :
  forall (w : World F) io r th PA_V3 frame_out addV3Yidl,
    inst_on (self w) = Some io ->
    let PA_ap := if addV3Yidl : bool
                 then fadd PA_V3 (V3IdlYAngle (siaf_ap io)) else PA_V3 in
    let th_fin := Np.map (fun t => fsub t PA_ap) th in
    let xy := rtheta_to_xy ext r th_fin in
    rth_to_xy ext r th PA_V3 frame_out addV3Yidl w =
    if (frame_out =? "idl")%string
    then (inr xy, mk_world (self w) (calls w ++ [ERthetaToXy r th_fin]))
    else (inr (siaf_convert ext (siaf_ap io) (fst xy) (snd xy) "idl" frame_out),
          mk_world (self w)
            (calls w ++ [ERthetaToXy r th_fin;
                         EConvert (fst xy) (snd xy) "idl" frame_out])).
Proof.
  intros w io r th PA_V3 frame_out addV3Yidl Hio PA_ap th_fin xy.
  unfold rth_to_xy, bind, getattr, ret, call.
  subst xy th_fin PA_ap.
  destruct addV3Yidl; cbn; rewrite ?Hio; cbn;
    destruct (rtheta_to_xy ext r _) as [xidl yidl] eqn:Hxy; cbn;
    destruct (frame_out =? "idl")%string; cbn; rewrite ?Hio; cbn;
    rewrite <- ?app_assoc; reflexivity.
Qed.

(** C9: the centroiding routine makes two passes whatever the fit returns.
    Each pass crops the template, fits the Gaussian, takes the residual
    between the centre of the window and the fitted centre, adds it to the
    offset (which starts at 0) and shifts the template by it; the stored
    offset is the sum of the two residuals, and the calls are two fits and
    two shifts, no more. *)
Theorem calc_psf_off_shift_two_passes :
  forall (w : World F) off xysub,
    psf_off (self w) = Some off ->
    List.length (Np.shape off) = 2 ->
    0 < xysub ->
    let c := arange_mean xysub in
    let crop a := Np.mk_nd [xysub; xysub] (pad_or_cut_data ext a xysub) in
    let shift a dx dy :=
      Np.mk_nd (Np.shape a) (fourier_imshift_data ext (Np.shape a) (Np.data a) dx dy) in
    let fit a := gauss_fit ext xysub a (amax ext a) c c in
    let t0 := Np.mk_nd [xysub + 10; xysub + 10] (pad_or_cut_data ext off (xysub + 10)) in
    let c1 := crop t0 in
    let dx1 := fsub c (fst (fit c1)) in
    let dy1 := fsub c (snd (fit c1)) in
    let t1 := shift t0 dx1 dy1 in
    let c2 := crop t1 in
    let dx2 := fsub c (fst (fit c2)) in
    let dy2 := fsub c (snd (fit c2)) in
    _calc_psf_off_shift ext xysub w =
    (inr tt,
     mk_world
       (set_xy_off_to_cen (fadd (fadd fzero dx1) dx2, fadd (fadd fzero dy1) dy2) (self w))
       (calls w ++
          [EPadOrCut off (xysub + 10);
           EPadOrCut t0 xysub; EGaussFit c1 (amax ext c1) c c; EFourierImshift t0 dx1 dy1;
           EPadOrCut t1 xysub; EGaussFit c2 (amax ext c2) c c; EFourierImshift t1 dx2 dy2])).
Proof.
  intros w off xysub Hoff Hrank Hpos c crop shift fit t0 c1 dx1 dy1 t1 c2 dx2 dy2.
  assert (Hsize : (xysub * (xysub * 1) =? 0) = false) by (apply Nat.eqb_neq; nia).
  destruct off as [sh d]. cbn in Hrank.
  destruct sh as [| a [| b [| ? ?]]]; try discriminate.
  unfold _calc_psf_off_shift, bind, getattr. rewrite Hoff.
  cbn [for_fold List.seq].
  unfold centroid_pass, pad_or_cut_to_size, fourier_imshift, max, bind, call, ret, setattr,
    raise, Np.size.
  cbn -[Nat.mul Nat.add Nat.eqb]. rewrite Hsize.
  cbn -[Nat.mul Nat.add Nat.eqb]. rewrite Hsize.
  cbn -[Nat.mul Nat.add Nat.eqb].
  rewrite <- !app_assoc. reflexivity.
Qed.

End Geometry.

(** ** Construction *)

Section Construction.
Context {F : Type} `{Num F}.
Variable ext : Webbpsf.External F.
Import JWST_PSF Webbpsf.

Lemma appends_ret {A : Type} (a : A) : appends F (ret a).
Proof. intros w. exists []. cbn. now rewrite app_nil_r. Qed.

Lemma appends_raise {A : Type} (e : pyerr) : appends F (@raise F A e).
Proof. intros w. exists []. cbn. now rewrite app_nil_r. Qed.

Lemma appends_lift {A : Type} (r : pyerr + A) : appends F (@lift F A r).
Proof. intros w. exists []. cbn. now rewrite app_nil_r. Qed.

Lemma appends_getattr {A : Type} (name : string) (field : Engine F -> option A) :
  appends F (getattr name field).
Proof.
  intros w. exists []. unfold getattr.
  destruct (field (self w)); cbn; now rewrite app_nil_r.
Qed.

Lemma appends_setattr (upd : Engine F -> Engine F) : appends F (setattr upd).
Proof. intros w. exists []. cbn. now rewrite app_nil_r. Qed.

Lemma appends_call {A : Type} (ev : event F) (v : A) : appends F (call ev v).
Proof. intros w. exists [ev]. reflexivity. Qed.

Lemma appends_call_result {A : Type} (ev : event F) (r : pyerr + A) :
  appends F (call_result ev r).
Proof. intros w. exists [ev]. reflexivity. Qed.

Lemma appends_bind {A B : Type} (m : M F A) (k : A -> M F B) :
  appends F m -> (forall a, appends F (k a)) -> appends F (bind m k).
Proof.
  intros Hm Hk w. unfold bind.
  destruct (Hm w) as [l1 H1]. destruct (m w) as [[e | a] w']; cbn in *.
  - now exists l1.
  - destruct (Hk a w') as [l2 H2]. exists (l1 ++ l2).
    now rewrite H2, H1, app_assoc.
Qed.

Lemma appends_try_except {A : Type} (body handler : M F A) :
  appends F body -> appends F handler -> appends F (try_except body handler).
Proof.
  intros Hb Hh w. unfold try_except.
  destruct (Hb w) as [l1 H1]. destruct (body w) as [[e | a] w']; cbn in *.
  - destruct (Hh w') as [l2 H2]. exists (l1 ++ l2).
    now rewrite H2, H1, app_assoc.
  - now exists l1.
Qed.

Lemma appends_for_each {A B : Type} (l : list A) (body : A -> M F B) :
  (forall a, appends F (body a)) -> appends F (for_each l body).
Proof.
  intros Hb. induction l as [| a l IH]; cbn [for_each].
  - apply appends_ret.
  - apply appends_bind; [apply Hb | intros b].
    apply appends_bind; [exact IH | intros bs]. apply appends_ret.
Qed.

Lemma appends_for_fold {A S : Type} (l : list A) (body : S -> A -> M F S) (s : S) :
  (forall s a, appends F (body s a)) -> appends F (for_fold l body s).
Proof.
  intros Hb. revert s. induction l as [| a l IH]; intros s; cbn [for_fold].
  - apply appends_ret.
  - apply appends_bind; [apply Hb | intros s']. apply IH.
Qed.

Create HintDb calls discriminated.
Hint Resolve appends_ret appends_raise appends_lift appends_getattr appends_setattr
     appends_call appends_call_result : calls.

Ltac calls_step :=
  match goal with
  | |- appends _ (bind _ _) => apply appends_bind; [| intros ?]
  | |- appends _ (try_except _ _) => apply appends_try_except
  | |- appends _ (for_each _ _) => apply appends_for_each; intros ?
  | |- appends _ (for_fold _ _ _) => apply appends_for_fold; intros ? ?
  | |- appends _ (if ?b then _ else _) => destruct b
  | |- appends _ (match ?x with _ => _ end) => destruct x
  | |- forall _, _ => intros ?
  | |- _ => solve [auto with calls]
  end.
Ltac calls := repeat calls_step.

Lemma appends_recenter_psfs xysub : appends F (_recenter_psfs ext xysub).
Proof.
  unfold _recenter_psfs, _calc_psf_off_shift, centroid_pass, pad_or_cut_to_size,
    fourier_imshift, max.
  calls.
Qed.

Ltac run_init :=
  unfold construct, __init__, choose_pupil_mask, new_inst, renorm, try_except,
    bind, ret, raise, lift, getattr, setattr, call, call_result.

Ltac split_collaborators :=
  repeat match goal with
         | |- context [sp_renorm ext ?s ?b] => destruct (sp_renorm ext s b) eqn:?
         | |- context [array_spectrum ext ?s] => destruct (array_spectrum ext s) eqn:?
         end.

Lemma init_without_mask_fails inst filt fov os sp_arg uc date :
  exists e, fst (construct ext inst filt None fov os sp_arg uc date) = inl e.
Proof.
  run_init.
  destruct (Py.upper inst =? "NIRCAM")%string;
    [| destruct (Py.upper inst =? "MIRI")%string]; cbn;
    try (eexists; reflexivity);
    match goal with
    | |- context [inst_accepts ext ?k ?f ?a ?b] => destruct (inst_accepts ext k f a b)
    end;
    cbn; try (eexists; reflexivity);
    destruct date; destruct uc; cbn; destruct sp_arg as [s0 |]; cbn;
    split_collaborators; cbn; eexists; reflexivity.
Qed.

Lemma init_without_mask_reaches_bar_check inst filt fov os sp_arg uc date k :
  recognised inst = Some k ->
  inst_accepts ext k filt None None = true ->
  renormalised ext sp_arg (inst_bandpass ext k filt None None) <> None ->
  fst (construct ext inst filt None fov os sp_arg uc date)
  = inl (TypeError "'NoneType' object is not subscriptable") /\
  forallb (fun ev => negb (is_calc ev))
          (snd (construct ext inst filt None fov os sp_arg uc date)) = true.
Proof.
  unfold recognised, renormalised. intros Hr Hacc Hsp. run_init.
  destruct (Py.upper inst =? "NIRCAM")%string;
    [| destruct (Py.upper inst =? "MIRI")%string; [| discriminate]];
    injection Hr as <-; cbn; rewrite ?Hacc; cbn;
    destruct date; destruct uc; cbn; destruct sp_arg as [s0 |]; cbn;
    revert Hsp; split_collaborators; cbn; intros Hsp;
    try (exfalso; apply Hsp; reflexivity); split; reflexivity.
Qed.

Lemma init_without_mask_run inst filt fov os sp_arg uc date k :
  recognised inst = Some k ->
  inst_accepts ext k filt None None = true ->
  renormalised ext sp_arg (inst_bandpass ext k filt None None) <> None ->
  __init__ ext inst filt None fov os sp_arg uc date (mk_world new_object [])
  = (inl (TypeError "'NoneType' object is not subscriptable"),
     mk_world (set_inst_ext k new_object)
       ([EInstExt k filt None None fov os; EInstExt k filt None None fov os] ++
        match date with Some d => [ELoadWssOpd d; ELoadWssOpd d] | None => [] end ++
        (if uc then [EGenPsfCoeff; EGenPsfCoeff; EGenWfemaskCoeff] else []) ++
        match sp_arg with
        | None => []
        | Some s =>
            match sp_renorm ext s (inst_bandpass ext k filt None None) with
            | Some _ => [ERenorm s]
            | None =>
                match array_spectrum ext s with
                | Some s2 => [ERenorm s; EArraySpectrum s; ERenorm s2]
                | None => [ERenorm s; EArraySpectrum s]
                end
            end
        end)).
Proof.
  unfold recognised, renormalised. intros Hr Hacc Hsp. run_init.
  destruct (Py.upper inst =? "NIRCAM")%string;
    [| destruct (Py.upper inst =? "MIRI")%string; [| discriminate]];
    injection Hr as <-; cbn; rewrite ?Hacc; cbn;
    destruct date; destruct uc; cbn; destruct sp_arg as [s0 |]; cbn;
    revert Hsp; split_collaborators; cbn; intros Hsp;
    try (exfalso; apply Hsp; reflexivity); reflexivity.
Qed.

(** C8: with image_mask = None no engine is built.  Whatever the other
    arguments, __init__ raises.  When the instrument is recognised and the
    collaborators raise nothing, the None is let through where the Lyot
    stop is chosen: both instrument objects are built, with image mask
    None and pupil mask None, the OPD is loaded and the coefficients are
    generated as asked, and the spectrum is renormalised.  The next
    statement is the test image_mask[-1] == 'B' of line 121, which fails
    on None with a TypeError; up to there the calls are exactly these,
    none of them computes a PSF, and inst_ext is the only attribute that
    was assigned. *)
Theorem init_without_mask_never_builds :
  forall inst filt fov os sp_arg uc date,
    (exists e, fst (construct ext inst filt None fov os sp_arg uc date) = inl e) /\
    (forall k,
        recognised inst = Some k ->
        inst_accepts ext k filt None None = true ->
        renormalised ext sp_arg (inst_bandpass ext k filt None None) <> None ->
        let before_line_121 :=
          [EInstExt k filt None None fov os; EInstExt k filt None None fov os] ++
          match date with Some d => [ELoadWssOpd d; ELoadWssOpd d] | None => [] end ++
          (if uc then [EGenPsfCoeff; EGenPsfCoeff; EGenWfemaskCoeff] else []) ++
          match sp_arg with
          | None => []
          | Some s =>
              match sp_renorm ext s (inst_bandpass ext k filt None None) with
              | Some _ => [ERenorm s]
              | None =>
                  match array_spectrum ext s with
                  | Some s2 => [ERenorm s; EArraySpectrum s; ERenorm s2]
                  | None => [ERenorm s; EArraySpectrum s]
                  end
              end
          end in
        __init__ ext inst filt None fov os sp_arg uc date (mk_world new_object [])
        = (inl (TypeError "'NoneType' object is not subscriptable"),
           mk_world (set_inst_ext k new_object) before_line_121) /\
        construct ext inst filt None fov os sp_arg uc date
        = (inl (TypeError "'NoneType' object is not subscriptable"), before_line_121) /\
        forallb (fun ev => negb (is_calc ev))
                (snd (construct ext inst filt None fov os sp_arg uc date)) = true).
Proof.
  intros. split.
  - apply init_without_mask_fails.
  - intros k Hr Hacc Hsp before_line_121.
    pose proof (init_without_mask_run inst filt fov os sp_arg uc date k Hr Hacc Hsp) as Hrun.
    fold before_line_121 in Hrun.
    split; [exact Hrun |]. split.
    + unfold construct. now rewrite Hrun.
    + apply init_without_mask_reaches_bar_check with (k := k); assumption.
Qed.

Lemma bind_ok {A B : Type} (m : M F A) (k : A -> M F B) w a w' :
  m w = (inr a, w') -> bind m k w = k a w'.
Proof. intros Hm. unfold bind. now rewrite Hm. Qed.

Lemma appends_new_inst k filt im pm fp os : appends F (new_inst ext k filt im pm fp os).
Proof. unfold new_inst. calls. Qed.

Lemma appends_renorm s bp : appends F (renorm ext s bp).
Proof. unfold renorm. calls. Qed.

Hint Resolve appends_new_inst appends_renorm appends_recenter_psfs : calls.

Lemma init_unrecognised_instrument inst filt image_mask fov os sp_arg uc date :
  recognised inst = None ->
  construct ext inst filt image_mask fov os sp_arg uc date
  = (inl (match image_mask with
          | Some m =>
              match Py.last_char m with
              | Some _ => AttributeError "inst_ext"
              | None => IndexError "string index out of range"
              end
          | None => AttributeError "inst_ext"
          end), []).
Proof.
  unfold recognised. intros Hr. run_init. unfold Py.subscript_last.
  destruct (Py.upper inst =? "NIRCAM")%string; [discriminate |].
  destruct (Py.upper inst =? "MIRI")%string; [discriminate |].
  destruct image_mask as [m |]; [| reflexivity].
  destruct (Py.last_char m) as [c |]; [| reflexivity].
  cbn. destruct (Ascii.eqb c "R"); [reflexivity |].
  destruct (Ascii.eqb c "B"); reflexivity.
Qed.

Lemma init_hands_default_pupil_to_collaborator inst filt m fov os sp_arg uc date k c :
  recognised inst = Some k ->
  Py.last_char m = Some c -> c <> "R"%char -> c <> "B"%char ->
  hd_error (snd (construct ext inst filt (Some m) fov os sp_arg uc date))
  = Some (EInstExt k filt (Some m)
            (Some (if Py.contains "FQPM" m then "MASKFQPM" else "MASKLYOT")) fov os).
Proof.
  intros Hr Hc HR HB.
  assert (Hsnd : snd (construct ext inst filt (Some m) fov os sp_arg uc date)
                 = calls (snd (__init__ ext inst filt (Some m) fov os sp_arg uc date
                                 (mk_world new_object [])))).
  { unfold construct. now destruct (__init__ _ _ _ _ _ _ _ _ _ _) as [[e | u] w]. }
  rewrite Hsnd. clear Hsnd. unfold __init__.
  rewrite bind_ok with (a := tt) (w' := mk_world (set_inst_ext k new_object) []).
  2:{ unfold recognised in Hr.
      destruct (Py.upper inst =? "NIRCAM")%string;
        [| destruct (Py.upper inst =? "MIRI")%string; [| discriminate]];
        injection Hr as <-; reflexivity. }
  rewrite bind_ok
    with (a := Some (if Py.contains "FQPM" m then "MASKFQPM" else "MASKLYOT"))
         (w' := mk_world (set_inst_ext k new_object) []).
  2:{ unfold choose_pupil_mask, bind, lift, ret, Py.subscript_last. rewrite Hc.
      destruct (Ascii.eqb_spec c "R"); [contradiction |].
      destruct (Ascii.eqb_spec c "B"); [contradiction |]. reflexivity. }
  rewrite bind_ok with (a := k) (w' := mk_world (set_inst_ext k new_object) []).
  2:{ reflexivity. }
  unfold bind at 1. unfold new_inst at 1. unfold call_result at 1. cbn [self calls app].
  destruct (inst_accepts ext k filt (Some m) _); [| reflexivity].
  match goal with
  | |- hd_error (calls (snd (?K ?w))) = _ =>
      assert (HK : appends F K); [| destruct (HK w) as [l Hl]; rewrite Hl; reflexivity]
  end.
  calls.
Qed.

(** C3, amended: an instrument name that is neither NIRCAM nor MIRI (in any
    case) aborts construction before any collaborator is called, with the
    AttributeError of the unassigned inst_ext (or the IndexError of an empty
    mask name) and not with an error of its own.  A mask name that ends in
    neither R nor B is not refused: the pupil mask is MASKFQPM when the name
    contains FQPM and MASKLYOT otherwise, and the first thing construction
    does is to build the instrument object with that pupil mask. *)
Theorem init_unrecognised_configuration :
  forall inst filt image_mask fov os sp_arg uc date,
    (recognised inst = None ->
     construct ext inst filt image_mask fov os sp_arg uc date
     = (inl (match image_mask with
             | Some m =>
                 match Py.last_char m with
                 | Some _ => AttributeError "inst_ext"
                 | None => IndexError "string index out of range"
                 end
             | None => AttributeError "inst_ext"
             end), [])) /\
    (forall k m c,
        recognised inst = Some k ->
        image_mask = Some m ->
        Py.last_char m = Some c -> c <> "R"%char -> c <> "B"%char ->
        hd_error (snd (construct ext inst filt image_mask fov os sp_arg uc date))
        = Some (EInstExt k filt (Some m)
                  (Some (if Py.contains "FQPM" m then "MASKFQPM" else "MASKLYOT"))
                  fov os)).
Proof.
  intros. split.
  - apply init_unrecognised_instrument.
  - intros k m c Hr -> Hc HR HB.
    apply init_hands_default_pupil_to_collaborator with (c := c); assumption.
Qed.

End Construction.

(** ** Arrays: chunks, broadcasting, sums *)

Section ArrayFacts.
Context {F : Type} `{Num F}.

Lemma chunks_concat (k n : nat) : forall d : list F,
  List.length d = n * k -> List.concat (Np.chunks k n d) = d.
Proof.
  induction n as [| n IH]; intros d Hd; cbn.
  - destruct d; [reflexivity | discriminate].
  - rewrite IH.
    + apply firstn_skipn.
    + rewrite length_skipn. cbn in Hd. lia.
Qed.

Lemma chunks_Forall_length (k n : nat) : forall d : list F,
  List.length d = n * k -> Forall (fun c => List.length c = k) (Np.chunks k n d).
Proof.
  induction n as [| n IH]; intros d Hd; cbn; constructor.
  - rewrite length_firstn. cbn in Hd. lia.
  - apply IH. rewrite length_skipn. cbn in Hd. lia.
Qed.

Lemma chunks_singletons : forall d : list F,
  Np.chunks 1 (List.length d) d = List.map (fun x => [x]) d.
Proof.
  induction d as [| x d IH]; cbn; [reflexivity |]. now rewrite IH.
Qed.

Lemma chunks_whole (k : nat) (d : list F) :
  List.length d = k -> Np.chunks k 1 d = [d].
Proof. intros <-. cbn. now rewrite firstn_all. Qed.

Lemma concat_map_singleton {A B : Type} (f : A -> B) (l : list A) :
  List.concat (List.map (fun x => [f x]) l) = List.map f l.
Proof. induction l as [| x l IH]; cbn; [reflexivity |]. now rewrite IH. Qed.

Lemma length_concat_map {A B : Type} (f : A -> list B) (k : nat) (l : list A) :
  (forall x, List.length (f x) = k) ->
  List.length (List.concat (List.map f l)) = List.length l * k.
Proof.
  intros Hf. induction l as [| x l IH]; cbn; [reflexivity |].
  now rewrite length_app, Hf, IH.
Qed.

Lemma zip_with_app {A B C : Type} (f : A -> B -> C) (a c : list A) (b d : list B) :
  List.length a = List.length b ->
  Np.zip_with f (a ++ c) (b ++ d) = Np.zip_with f a b ++ Np.zip_with f c d.
Proof.
  revert b. induction a as [| x a IH]; intros [| y b] Hl; try discriminate; cbn.
  - reflexivity.
  - rewrite IH; [reflexivity | now injection Hl].
Qed.

Lemma zip_with_map {A B A' B' C : Type} (f : A' -> B' -> C) (g : A -> A') (h : B -> B')
      (a : list A) (b : list B) :
  Np.zip_with f (List.map g a) (List.map h b) = Np.zip_with (fun x y => f (g x) (h y)) a b.
Proof.
  revert b. induction a as [| x a IH]; intros [| y b]; cbn; try reflexivity.
  now rewrite IH.
Qed.

Lemma length_zip_with {A B C : Type} (f : A -> B -> C) (a : list A) (b : list B) :
  List.length a = List.length b -> List.length (Np.zip_with f a b) = List.length a.
Proof.
  revert b. induction a as [| x a IH]; intros [| y b] Hl; try discriminate; cbn.
  - reflexivity.
  - rewrite IH; [reflexivity | now injection Hl].
Qed.

Lemma zip_with_concat_map {A B C D : Type} (op : B -> C -> D)
      (f : A -> list B) (g : A -> list C) (l : list A) :
  (forall x, List.length (f x) = List.length (g x)) ->
  Np.zip_with op (List.concat (List.map f l)) (List.concat (List.map g l))
  = List.concat (List.map (fun x => Np.zip_with op (f x) (g x)) l).
Proof.
  intros Hfg. induction l as [| x l IH]; cbn; [reflexivity |].
  now rewrite zip_with_app, IH.
Qed.

(** One step of the recursion along the axes. *)
Lemma bdata_cons (op : F -> F -> F) (n1 n2 : nat) (r1 r2 : list nat) (d1 d2 : list F) :
  Np.bdata op (n1 :: r1) (n2 :: r2) d1 d2
  = if n1 =? n2
    then List.concat (Np.zip_with (Np.bdata op r1 r2)
                        (Np.chunks (Np.prod r1) n1 d1) (Np.chunks (Np.prod r2) n2 d2))
    else if n1 =? 1
         then List.concat (List.map (fun y => Np.bdata op r1 r2 d1 y)
                             (Np.chunks (Np.prod r2) n2 d2))
         else List.concat (List.map (fun x => Np.bdata op r1 r2 x d2)
                             (Np.chunks (Np.prod r1) n1 d1)).
Proof. reflexivity. Qed.

(** Broadcasting one scalar against a row, a plane, and a column of scalars
    against a plane. *)
Lemma bdata_row (op : F -> F -> F) (w : nat) (a : F) (row : list F) :
  List.length row = w ->
  Np.bdata op [1] [w] [a] row = List.map (op a) row.
Proof.
  intros Hw. rewrite bdata_cons. cbn [Np.prod fold_right].
  destruct (Nat.eqb_spec 1 w) as [<- | Hne].
  - destruct row as [| b [| ? ?]]; try discriminate. reflexivity.
  - cbn [Nat.eqb]. rewrite <- Hw, chunks_singletons, map_map. cbn.
    apply (concat_map_singleton (op a)).
Qed.

Lemma bdata_plane (op : F -> F -> F) (h w : nat) (a : F) (d : list F) :
  List.length d = h * w ->
  Np.bdata op [1; 1] [h; w] [a] d = List.map (op a) d.
Proof.
  intros Hd. rewrite bdata_cons. cbn [Np.prod fold_right]. rewrite !Nat.mul_1_r.
  destruct (Nat.eqb_spec 1 h) as [<- | Hne].
  - rewrite (chunks_whole w d) by lia.
    cbn [Np.chunks firstn skipn Np.zip_with List.concat].
    rewrite app_nil_r. apply bdata_row. lia.
  - cbn [Nat.eqb].
    pose proof (chunks_Forall_length w h d Hd) as Hall.
    rewrite <- (chunks_concat w h d Hd) at 2. rewrite concat_map. f_equal.
    apply map_ext_Forall. eapply Forall_impl; [| exact Hall].
    intros c Hc. now apply bdata_row.
Qed.

Lemma bdata_outer (op : F -> F -> F) (n h w : nat) (d1 d2 : list F) :
  List.length d1 = n -> List.length d2 = h * w ->
  Np.bdata op [n; 1; 1] [1; h; w] d1 d2
  = List.concat (List.map (fun a => List.map (op a) d2) d1).
Proof.
  intros H1 H2. rewrite bdata_cons. cbn [Np.prod fold_right]. rewrite !Nat.mul_1_r.
  rewrite (chunks_whole (h * w) d2 H2).
  destruct (Nat.eqb_spec n 1) as [-> | Hne].
  - destruct d1 as [| a [| ? ?]]; try discriminate.
    cbn [Np.chunks firstn skipn Np.zip_with List.concat List.map Nat.mul Nat.add].
    f_equal. now apply bdata_plane.
  - rewrite <- H1, chunks_singletons, map_map. f_equal.
    apply map_ext. intros a. now apply bdata_plane.
Qed.

Lemma bdata_same (op : F -> F -> F) : forall (s : list nat) (d1 d2 : list F),
  List.length d1 = Np.prod s -> List.length d2 = Np.prod s ->
  Np.bdata op s s d1 d2 = Np.zip_with op d1 d2.
Proof.
  induction s as [| n r IH]; intros d1 d2 H1 H2.
  - cbn in *. destruct d1 as [| a [| ? ?]]; try discriminate.
    destruct d2 as [| b [| ? ?]]; try discriminate. reflexivity.
  - rewrite bdata_cons, Nat.eqb_refl.
    cbn [Np.prod fold_right] in H1, H2. fold (Np.prod r) in *.
    revert d1 d2 H1 H2. induction n as [| n IHn]; intros d1 d2 H1 H2.
    + destruct d1; [| discriminate]. reflexivity.
    + cbn [Np.chunks Np.zip_with List.concat].
      rewrite IHn by (rewrite length_skipn; lia).
      rewrite IH by (rewrite length_firstn; lia).
      rewrite <- zip_with_app by (rewrite !length_firstn; lia).
      now rewrite !firstn_skipn.
Qed.

Lemma bshape_outer (n h w : nat) : Np.bshape [n; 1; 1] [1; h; w] = Some [n; h; w].
Proof.
  destruct n as [| [| n]]; destruct h as [| [| h]]; destruct w as [| [| w]]; reflexivity.
Qed.

Lemma bshape_same : forall s : list nat, Np.bshape s s = Some s.
Proof.
  induction s as [| n r IH]; cbn; [reflexivity |]. now rewrite IH, Nat.eqb_refl.
Qed.

Lemma prod_app (s1 s2 : list nat) : Np.prod (s1 ++ s2) = Np.prod s1 * Np.prod s2.
Proof.
  induction s1 as [| n s1 IH].
  - cbn [app]. change (Np.prod []) with 1. lia.
  - change (Np.prod ((n :: s1) ++ s2)) with (n * Np.prod (s1 ++ s2)).
    change (Np.prod (n :: s1)) with (n * Np.prod s1). rewrite IH. lia.
Qed.

Lemma prod_squeeze (s : list nat) :
  Np.prod (List.filter (fun n => negb (n =? 1)) s) = Np.prod s.
Proof.
  induction s as [| n s IH]; [reflexivity |].
  change (Np.prod (n :: s)) with (n * Np.prod s). cbn [List.filter].
  destruct (Nat.eqb_spec n 1) as [-> | Hn]; cbn [negb].
  - rewrite IH. lia.
  - change (Np.prod (n :: ?l)) with (n * Np.prod l).
    change (Np.prod (n :: List.filter (fun n => negb (n =? 1)) s))
      with (n * Np.prod (List.filter (fun n => negb (n =? 1)) s)).
    now rewrite IH.
Qed.

Lemma size_squeeze (a : Np.ndarray F) : Np.size (Np.squeeze a) = Np.size a.
Proof. unfold Np.size, Np.squeeze. cbn. apply prod_squeeze. Qed.

End ArrayFacts.

(** ** The quick blend *)

Section Blending.
Context {F : Type} `{Num F}.
Variable ext : Webbpsf.External F.
Import JWST_PSF Webbpsf.

Lemma reshape_column (a : Np.ndarray F) :
  Np.reshape a [None; Some 1; Some 1] = inr (Np.mk_nd [Np.size a; 1; 1] (Np.data a)).
Proof.
  unfold Np.reshape.
  cbn [Np.wildcards List.filter List.length Np.known List.map Np.prod fold_right].
  change (1 * (1 * (1 * 1))) with 1.
  rewrite Nat.mod_1_r, Nat.div_1_r. reflexivity.
Qed.

Lemma reshape_plane (a : Np.ndarray F) (h w : nat) :
  Np.reshape a [Some 1; Some h; Some w]
  = if Np.size a =? h * w
    then inr (Np.mk_nd [1; h; w] (Np.data a))
    else inl (ValueError "cannot reshape array").
Proof.
  unfold Np.reshape. cbn [Np.wildcards List.filter List.length Np.known List.map Np.prod fold_right].
  replace (1 * (h * (w * 1))) with (h * w) by lia. reflexivity.
Qed.

Lemma reshape_stack (a : Np.ndarray F) (k h w : nat) :
  0 < h * w -> Np.size a = k * (h * w) ->
  Np.reshape a [None; Some h; Some w] = inr (Np.mk_nd [k; h; w] (Np.data a)).
Proof.
  intros Hpos Hsize. unfold Np.reshape.
  cbn [Np.wildcards List.filter List.length Np.known List.map Np.prod fold_right].
  replace (1 * (h * (w * 1))) with (h * w) by lia.
  destruct (Nat.eqb_spec (h * w) 0) as [E | _]; [lia |].
  rewrite Hsize, Nat.Div0.mod_mul, Nat.div_mul by lia. reflexivity.
Qed.

Lemma blend_spec (a b off on : Np.ndarray F) (h w : nat) :
  Np.shape b = Np.shape a ->
  List.length (Np.data a) = Np.size a ->
  List.length (Np.data b) = Np.size a ->
  Np.size off = h * w -> List.length (Np.data off) = h * w ->
  Np.size on = h * w -> List.length (Np.data on) = h * w ->
  blend a b off on h w
  = inr (Np.mk_nd [Np.size a; h; w]
           (Np.zip_with fadd
              (List.concat (List.map (fun x => List.map (fmul x) (Np.data off)) (Np.data a)))
              (List.concat (List.map (fun x => List.map (fmul x) (Np.data on)) (Np.data b))))).
Proof.
  intros Hsh Ha Hb Hoff Hdoff Hon Hdon.
  assert (Hsb : Np.size b = Np.size a) by (unfold Np.size; now rewrite Hsh).
  unfold blend. rewrite !reshape_column, !reshape_plane, Hoff, Hon, Nat.eqb_refl, Hsb.
  cbn [Np.and_then]. unfold Np.binop. cbn [Np.shape Np.data].
  rewrite bshape_outer. cbn [Np.and_then Np.shape Np.data].
  rewrite bshape_same. rewrite !bdata_outer by assumption.
  rewrite bdata_same; [reflexivity | |].
  - rewrite (length_concat_map _ (h * w)) by (intros; now rewrite length_map).
    rewrite Ha. cbn. lia.
  - rewrite (length_concat_map _ (h * w)) by (intros; now rewrite length_map).
    rewrite Hb. cbn. lia.
Qed.

Lemma blend_raises (a b off on : Np.ndarray F) (h w : nat) :
  Np.size off = h * w -> Np.size on <> h * w ->
  blend a b off on h w = inl (ValueError "cannot reshape array").
Proof.
  intros Hoff Hon. unfold blend.
  rewrite !reshape_column, !reshape_plane, Hoff, Nat.eqb_refl.
  cbn [Np.and_then]. unfold Np.binop at 1. cbn [Np.shape Np.data].
  rewrite bshape_outer. cbn [Np.and_then].
  destruct (Nat.eqb_spec (Np.size on) (h * w)); [contradiction | reflexivity].
Qed.

Lemma blend_shape (a b off on r : Np.ndarray F) (h w : nat) :
  Np.shape b = Np.shape a ->
  blend a b off on h w = inr r -> Np.shape r = [Np.size a; h; w].
Proof.
  intros Hsh. assert (Hsb : Np.size b = Np.size a) by (unfold Np.size; now rewrite Hsh).
  unfold blend. rewrite !reshape_column, !reshape_plane, Hsb.
  destruct (Np.size off =? h * w); [| discriminate].
  cbn [Np.and_then]. unfold Np.binop at 1. cbn [Np.shape Np.data].
  rewrite bshape_outer. cbn [Np.and_then].
  destruct (Np.size on =? h * w); [| discriminate].
  cbn [Np.and_then]. unfold Np.binop. cbn [Np.shape Np.data].
  rewrite bshape_outer. cbn [Np.and_then Np.shape]. rewrite bshape_same.
  intros [= <-]. reflexivity.
Qed.


Lemma size_map (f : F -> F) (a : Np.ndarray F) : Np.size (Np.map f a) = Np.size a.
Proof. reflexivity. Qed.

Lemma image_size (a : Np.ndarray F) (h w : nat) : image a h w -> Np.size a = h * w.
Proof. intros [Hs _]. unfold Np.size. rewrite Hs. cbn. lia. Qed.

Lemma shape_eqb_refl (s : list nat) : shape_eqb s s = true.
Proof. unfold shape_eqb. destruct (list_eq_dec Nat.eq_dec s s); [reflexivity | contradiction]. Qed.

Lemma length_samples io cv frame :
  positions cv -> List.length (samples ext io cv frame) = Np.size (fst cv).
Proof.
  intros (_ & Hx & Hy). unfold samples. rewrite length_zip_with; congruence.
Qed.

Lemma blend_frames_eq (offd : list F) (on_at : F -> list F) (pts : list (F * F * F)) :
  (forall x, List.length (on_at x) = List.length offd) ->
  Np.zip_with fadd
    (List.concat
       (List.map (fun a => List.map (fmul a) offd)
          (List.map (fun t => fmul t t) (List.map (fun p => fst (fst p)) pts))))
    (List.concat
       (List.map (fun p => List.map (fmul (fsub fone (fmul (fst (fst p)) (fst (fst p)))))
                             (on_at (snd (fst p)))) pts))
  = List.concat (List.map (fun p => blend_frame (fst (fst p)) offd (on_at (snd (fst p)))) pts).
Proof.
  intros Hlen. rewrite !map_map. rewrite zip_with_concat_map.
  - f_equal. apply map_ext. intros p. unfold blend_frame. apply zip_with_map.
  - intros p. now rewrite !length_map, Hlen.
Qed.

Lemma quick_psfs_spec w io off on_at cv frame :
  ready ext w io off on_at ->
  positions cv ->
  (is_bar io = true -> Np.size (fst cv) = 1) ->
  quick_psfs ext cv frame (side io) (side io) w
  = (inr (Np.mk_nd [Np.size (fst cv); side io; side io]
            (List.concat
               (List.map (fun p => blend_frame (fst (fst p)) (Np.data off) (on_at (snd (fst p))))
                         (samples ext io cv frame)))),
     mk_world (self w)
       (calls w ++
          ETransmissionMap cv frame ::
          (if is_bar io
           then [EInterp1d (Np.mk_nd (Np.shape (fst cv))
                              (List.map (fun p => snd (fst p)) (samples ext io cv frame)))]
           else []))).
Proof.
  intros [Hio (m & c & Hm & Hc) (Hoff & Hoffs & Hoffd) Hon] Hpos Hbar.
  pose proof (length_samples io cv frame Hpos) as Hlen.
  destruct Hpos as (Hsh & Hx & Hy). destruct cv as [cx cy]. cbn [fst snd] in *.
  unfold is_bar in *. rewrite Hm, Hc in *.
  unfold quick_psfs, _transmission_map, JWST_PSF.image_mask, interp1d, bind, getattr, ret, lift,
    call, call_result.
  rewrite Hsh, shape_eqb_refl. unfold Py.subscript_last.
  repeat (progress (rewrite ?Hio, ?Hm, ?Hc; cbn [self calls])).
  unfold samples in *. cbn [fst snd] in *.
  set (pts := Np.zip_with (transmission_at ext io frame) (Np.data cx) (Np.data cy)) in *.
  destruct (Ascii.eqb c "B").
  - destruct Hon as (xvals & arr & k & Hxv & Harr & Hsarr & Hat).
    repeat (progress (rewrite ?Hxv, ?Harr, ?Hoff; cbn [self calls])).
    specialize (Hbar eq_refl).
    destruct pts as [| p [| ? ?]] eqn:Hpts; cbn [List.length] in Hlen; try lia.
    erewrite blend_spec; cbn [Np.shape Np.data Np.map fst snd].
    + rewrite <- app_assoc. cbn [app List.map List.concat].
      rewrite !app_nil_r. destruct (Hat (snd (fst p))) as [<- Hl].
      unfold blend_frame. rewrite zip_with_map, size_map. unfold Np.size at 1.
      cbn [Np.shape]. fold (Np.size cx). rewrite Hbar. reflexivity.
    + reflexivity.
    + cbn [Np.data Np.map List.map List.length]. rewrite size_map. now unfold Np.size.
    + cbn [Np.data Np.map List.map List.length]. rewrite size_map. now unfold Np.size.
    + apply image_size. now split.
    + rewrite Hoffd. reflexivity.
    + unfold Np.size. cbn [Np.shape]. rewrite Hsarr. cbn [tl].
      rewrite prod_app. fold (Np.size cx). rewrite Hbar. cbn. lia.
    + cbn. rewrite app_nil_r. destruct (Hat (snd (fst p))) as [<- Hl]. exact Hl.
  - destruct Hon as (on & Hpon & (Hons & Hond) & Hat).
    repeat (progress (rewrite ?Hpon, ?Hoff; cbn [self calls])).
    erewrite blend_spec; cbn [Np.shape Np.data Np.map fst snd].
    + rewrite size_map. unfold Np.size at 1. cbn [Np.shape]. fold (Np.size cx).
      do 3 f_equal.
      transitivity (Np.zip_with fadd
        (List.concat
           (List.map (fun a => List.map (fmul a) (Np.data off))
              (List.map (fun t => fmul t t) (List.map (fun p => fst (fst p)) pts))))
        (List.concat
           (List.map (fun p => List.map (fmul (fsub fone (fmul (fst (fst p)) (fst (fst p)))))
                                 (on_at (snd (fst p)))) pts))).
      * f_equal. rewrite !map_map. f_equal. apply map_ext. intros p. now rewrite Hat.
      * apply blend_frames_eq. intros x. now rewrite Hat, Hond, Hoffd.
    + reflexivity.
    + cbn [Np.data Np.map]. rewrite size_map, !length_map. now unfold Np.size.
    + cbn [Np.data Np.map]. rewrite size_map, !length_map. now unfold Np.size.
    + apply image_size. now split.
    + rewrite Hoffd. reflexivity.
    + apply image_size. now split.
    + rewrite Hond. reflexivity.
Qed.
Lemma quick_psfs_bar_batch_raises w io off on_at cv frame :
  ready ext w io off on_at ->
  positions cv ->
  is_bar io = true ->
  Np.size (fst cv) <> 1 ->
  0 < side io ->
  quick_psfs ext cv frame (side io) (side io) w
  = (inl (ValueError "cannot reshape array"),
     mk_world (self w)
       (calls w ++
          [ETransmissionMap cv frame;
           EInterp1d (Np.mk_nd (Np.shape (fst cv))
                        (List.map (fun p => snd (fst p)) (samples ext io cv frame)))])).
Proof.
  intros [Hio (m & c & Hm & Hc) (Hoff & Hoffi) Hon] (Hsh & Hx & Hy) Hbar Hn Hpos.
  destruct cv as [cx cy]. cbn [fst snd] in *.
  unfold is_bar in *. rewrite Hm, Hc in *. rewrite Hbar in Hon.
  destruct Hon as (xvals & arr & k & Hxv & Harr & Hsarr & Hat).
  unfold quick_psfs, _transmission_map, JWST_PSF.image_mask, interp1d, bind, getattr, ret,
    lift, call, call_result.
  rewrite Hsh, shape_eqb_refl. unfold Py.subscript_last.
  repeat (progress (rewrite ?Hio, ?Hm, ?Hc, ?Hbar, ?Hxv, ?Harr, ?Hoff; cbn [self calls])).
  rewrite blend_raises.
  - rewrite <- app_assoc. reflexivity.
  - now apply image_size.
  - unfold Np.size. cbn [Np.shape]. rewrite Hsarr. cbn [tl]. rewrite prod_app.
    fold (Np.size cx). cbn [Np.prod fold_right]. nia.
Qed.

Lemma gen_psf_idl_quick w io cv frame ro ds :
  inst_on (self w) = Some io ->
  gen_psf_idl ext cv frame true None ro ds w
  = bind (quick_psfs ext cv frame (side io) (side io))
      (fun psfs =>
         bind (if ds then shift_psfs ext psfs cv frame (siaf_ap io) (oversample io)
               else ret psfs)
           (fun psfs =>
              bind (if negb ro
                    then call (EFrebin psfs (fdiv fone (of_nat (oversample io))))
                              (frebin ext psfs (fdiv fone (of_nat (oversample io))))
                    else ret psfs)
                (fun psfs => ret (Np.squeeze psfs)))) w.
Proof.
  intros Hio. unfold gen_psf_idl, JWST_PSF.fov_pix.
  unfold bind at 1, getattr at 1. rewrite Hio.
  unfold bind at 1. unfold bind at 1, getattr at 1. rewrite Hio.
  unfold ret at 1. unfold bind at 1, ret at 1. reflexivity.
Qed.

Lemma gen_psf_idl_quick_raises w io cv frame ro ds e w' :
  inst_on (self w) = Some io ->
  quick_psfs ext cv frame (side io) (side io) w = (inl e, w') ->
  gen_psf_idl ext cv frame true None ro ds w = (inl e, w').
Proof.
  intros Hio Hq. rewrite (gen_psf_idl_quick w io) by assumption.
  unfold bind at 1. now rewrite Hq.
Qed.

Lemma gen_psf_idl_quick_oversampled w io cv frame psfs w' :
  inst_on (self w) = Some io ->
  quick_psfs ext cv frame (side io) (side io) w = (inr psfs, w') ->
  gen_psf_idl ext cv frame true None true false w = (inr (Np.squeeze psfs), w').
Proof.
  intros Hio Hq. rewrite (gen_psf_idl_quick w io) by assumption.
  unfold bind at 1. rewrite Hq. reflexivity.
Qed.

Lemma positions_scalar (x y : F) : positions (Np.scalar x, Np.scalar y).
Proof. repeat split. Qed.

Lemma blend_frame_full `{!Exact F} : forall off on : list F,
  List.length off <= List.length on -> blend_frame fone off on = off.
Proof.
  unfold blend_frame.
  induction off as [| o off IH]; intros [| n on] Hl; cbn in *; try reflexivity; try lia.
  rewrite IH by lia.
  now rewrite !mul_1_l, sub_diag, mul_0_l, add_0_r.
Qed.

Lemma blend_frame_dark `{!Exact F} : forall off on : list F,
  List.length on <= List.length off -> blend_frame fzero off on = on.
Proof.
  unfold blend_frame.
  induction off as [| o off IH]; intros [| n on] Hl; cbn in *; try reflexivity; try lia.
  rewrite IH by lia.
  now rewrite !mul_0_l, sub_0_r, mul_1_l, add_0_l.
Qed.

Lemma ready_on_length w io off on_at :
  ready ext w io off on_at -> forall x, List.length (on_at x) = side io * side io.
Proof.
  intros [_ _ _ Hon] x. destruct (is_bar io).
  - destruct Hon as (? & ? & ? & _ & _ & _ & Hat). apply Hat.
  - destruct Hon as (on & _ & (_ & Hd) & Hat). now rewrite Hat.
Qed.

Lemma squeeze_frame (n : nat) (d : list F) :
  Np.squeeze (Np.mk_nd [1; n; n] d) = Np.squeeze (Np.mk_nd [n; n] d).
Proof. reflexivity. Qed.

(** The case of one position, without a spectrum and on the oversampled
    grid: the quick PSF without shift of a position whose amplitude
    transmission is 1 is the off-axis reference, element for element, and
    that of a position whose transmission is 0 is the on-axis reference:
    the stored image, or for a bar mask the image interpolated at the
    position's ideal x.  ([squeeze] is what the source applies to every
    result; it changes nothing in an image of side more than one.) *)
Theorem quick_psf_at_full_and_zero_transmission `{!Exact F} :
  forall w io off on_at x y frame t cx cy,
    ready ext w io off on_at ->
    transmission_at ext io frame x y = (t, cx, cy) ->
    (t = fone ->
     fst (gen_psf_idl ext (Np.scalar x, Np.scalar y) frame true None true false w)
     = inr (Np.squeeze off)) /\
    (t = fzero ->
     fst (gen_psf_idl ext (Np.scalar x, Np.scalar y) frame true None true false w)
     = inr (Np.squeeze (Np.mk_nd [side io; side io] (on_at cx)))).
Proof.
  intros w io off on_at x y frame t cx cy Hr Ht.
  pose proof (ready_on_length w io off on_at Hr) as Hlen.
  pose proof (quick_psfs_spec w io off on_at (Np.scalar x, Np.scalar y) frame Hr
                (positions_scalar x y) (fun _ => eq_refl)) as Hq.
  unfold samples in Hq. cbn [fst snd Np.scalar Np.data Np.zip_with] in Hq.
  rewrite Ht in Hq. cbn [fst snd List.map List.concat] in Hq. rewrite app_nil_r in Hq.
  destruct Hr as [Hio _ (_ & Hoffs & Hoffd) _].
  rewrite (gen_psf_idl_quick_oversampled _ _ _ _ _ _ Hio Hq). cbn [fst].
  change (Np.size (Np.mk_nd [] [x])) with 1. rewrite squeeze_frame.
  split; intros ->.
  - rewrite blend_frame_full by (rewrite Hlen, Hoffd; lia).
    destruct off as [sh d]. cbn in *. now subst sh.
  - rewrite blend_frame_dark by (rewrite Hlen, Hoffd; lia). reflexivity.
Qed.


Lemma positions_vector (xs ys : list F) :
  List.length ys = List.length xs -> positions (Np.vector xs, Np.vector ys).
Proof.
  intros Hl. unfold positions, Np.vector, Np.size. cbn. rewrite Hl. repeat split; lia.
Qed.

Lemma size_vector (xs : list F) : Np.size (Np.vector xs) = List.length xs.
Proof. unfold Np.size, Np.vector. cbn. lia. Qed.

(** C1, at the input where the code departs from it: on a bar mask a query of
    any number of positions other than one produces no frame at all; line
    348 raises on psf_on.reshape([1,ny,nx]), whatever the other options. *)
Theorem quick_batch_on_bar_mask_raises :
  forall w io off on_at cv frame ro ds,
    ready ext w io off on_at ->
    positions cv ->
    is_bar io = true ->
    Np.size (fst cv) <> 1 ->
    0 < side io ->
    fst (gen_psf_idl ext cv frame true None ro ds w)
    = inl (ValueError "cannot reshape array").
Proof.
  intros w io off on_at cv frame ro ds Hr Hpos Hbar Hn Hside.
  pose proof (quick_psfs_bar_batch_raises w io off on_at cv frame Hr Hpos Hbar Hn Hside) as Hq.
  destruct Hr as [Hio _ _ _].
  now rewrite (gen_psf_idl_quick_raises _ _ _ _ _ _ _ _ Hio Hq).
Qed.

Lemma gen_psf_idl_single w io off on_at x y frame :
  ready ext w io off on_at ->
  fst (gen_psf_idl ext (Np.scalar x, Np.scalar y) frame true None true false w)
  = inr (Np.squeeze
           (Np.mk_nd [side io; side io]
              (blend_frame (fst (fst (transmission_at ext io frame x y))) (Np.data off)
                           (on_at (snd (fst (transmission_at ext io frame x y))))))).
Proof.
  intros Hr.
  pose proof (quick_psfs_spec w io off on_at (Np.scalar x, Np.scalar y) frame Hr
                (positions_scalar x y) (fun _ => eq_refl)) as Hq.
  unfold samples in Hq. cbn [fst snd Np.scalar Np.data Np.zip_with] in Hq.
  cbn [fst snd List.map List.concat] in Hq. rewrite app_nil_r in Hq.
  destruct Hr as [Hio _ _ _].
  rewrite (gen_psf_idl_quick_oversampled _ _ _ _ _ _ Hio Hq). reflexivity.
Qed.

(** C4, at the input where the code departs from it: on a bar mask every
    single-position call returns a PSF, and the call with the same positions
    as one batch (of none, or of two or more) raises. *)
Theorem batch_on_bar_mask_raises_where_single_calls_return :
  forall w io off on_at xs ys frame,
    ready ext w io off on_at ->
    is_bar io = true ->
    0 < side io ->
    List.length ys = List.length xs ->
    List.length xs <> 1 ->
    (forall x y,
        exists psf,
          fst (gen_psf_idl ext (Np.scalar x, Np.scalar y) frame true None true false w)
          = inr psf) /\
    fst (gen_psf_idl ext (Np.vector xs, Np.vector ys) frame true None true false w)
    = inl (ValueError "cannot reshape array").
Proof.
  intros w io off on_at xs ys frame Hr Hbar Hside Hl Hn. split.
  - intros x y. eexists. exact (gen_psf_idl_single w io off on_at x y frame Hr).
  - pose proof (quick_psfs_bar_batch_raises w io off on_at (Np.vector xs, Np.vector ys)
                  frame Hr (positions_vector xs ys Hl) Hbar) as Hq.
    cbn [fst] in Hq. rewrite size_vector in Hq. specialize (Hq Hn Hside).
    destruct Hr as [Hio _ _ _].
    now rewrite (gen_psf_idl_quick_raises _ _ _ _ _ _ _ _ Hio Hq).
Qed.

(** X1: where the blend is computed (any query on a mask that is not a bar, one
    position on a bar mask) it has one frame per position, and the frame of
    a position of amplitude transmission t is t^2 * off + (1 - t^2) * on. *)
Theorem quick_blend_weighs_by_squared_transmission :
  forall w io off on_at cv frame,
    ready ext w io off on_at ->
    positions cv ->
    (is_bar io = true -> Np.size (fst cv) = 1) ->
    fst (quick_psfs ext cv frame (side io) (side io) w)
    = inr (Np.mk_nd [Np.size (fst cv); side io; side io]
             (List.concat
                (List.map
                   (fun p => blend_frame (fst (fst p)) (Np.data off) (on_at (snd (fst p))))
                   (samples ext io cv frame)))).
Proof.
  intros w io off on_at cv frame Hr Hpos Hbar.
  now rewrite (quick_psfs_spec w io off on_at cv frame Hr Hpos Hbar).
Qed.

Lemma chunks_concat_map {A : Type} (f : A -> list F) (k : nat) (l : list A) :
  (forall x, List.length (f x) = k) ->
  Np.chunks k (List.length l) (List.concat (List.map f l)) = List.map f l.
Proof.
  intros Hf. induction l as [| x l IH]; cbn [List.length Np.chunks List.map List.concat].
  - reflexivity.
  - rewrite firstn_app, skipn_app, Hf, Nat.sub_diag.
    rewrite (firstn_all2 (n := k) (f x)) by (rewrite Hf; lia).
    rewrite (skipn_all2 (n := k) (f x)) by (rewrite Hf; lia).
    cbn [firstn skipn app]. now rewrite app_nil_r, IH.
Qed.

Lemma nth_error_zip_with {A B C : Type} (f : A -> B -> C) :
  forall (xs : list A) (ys : list B) i x y,
    nth_error xs i = Some x -> nth_error ys i = Some y ->
    nth_error (Np.zip_with f xs ys) i = Some (f x y).
Proof.
  induction xs as [| a xs IH]; intros [| b ys] [| i] x y Hx Hy; cbn in *;
    try discriminate.
  - now injection Hx as ->; injection Hy as ->.
  - now apply IH.
Qed.

Lemma length_blend_frame (t : F) (off on : list F) :
  List.length on = List.length off -> List.length (blend_frame t off on) = List.length off.
Proof. intros Hl. unfold blend_frame. now apply length_zip_with. Qed.

(** X2: on a mask that is not a bar, the call with a batch of positions returns
    the stack of what the single-position calls return, frame by frame. *)
Theorem batch_on_round_mask_is_the_single_calls :
  forall w io off on_at xs ys frame,
    ready ext w io off on_at ->
    is_bar io = false ->
    List.length ys = List.length xs ->
    exists stack,
      fst (gen_psf_idl ext (Np.vector xs, Np.vector ys) frame true None true false w)
      = inr stack /\
      forall i x y,
        nth_error xs i = Some x -> nth_error ys i = Some y ->
        exists psf,
          fst (gen_psf_idl ext (Np.scalar x, Np.scalar y) frame true None true false w)
          = inr psf /\
          nth_error (Np.chunks (side io * side io) (List.length xs) (Np.data stack)) i
          = Some (Np.data psf).
Proof.
  intros w io off on_at xs ys frame Hr Hbar Hl.
  pose proof (ready_on_length w io off on_at Hr) as Hlen.
  pose proof (quick_psfs_spec w io off on_at (Np.vector xs, Np.vector ys) frame Hr
                (positions_vector xs ys Hl)) as Hq.
  rewrite Hbar in Hq. specialize (Hq (fun E => False_ind _ (Bool.diff_false_true E))).
  pose proof Hr as [Hio _ (_ & _ & Hoffd) _].
  eexists. split.
  - now rewrite (gen_psf_idl_quick_oversampled _ _ _ _ _ _ Hio Hq).
  - intros i x y Hx Hy. eexists. split.
    + exact (gen_psf_idl_single w io off on_at x y frame Hr).
    + cbn [Np.squeeze Np.data]. unfold samples. cbn [fst snd Np.vector Np.data].
      replace (List.length xs)
        with (List.length (Np.zip_with (transmission_at ext io frame) xs ys))
        by (now apply length_zip_with).
      rewrite chunks_concat_map
        by (intros p; rewrite length_blend_frame; [exact Hoffd | now rewrite Hlen]).
      rewrite nth_error_map, (nth_error_zip_with _ xs ys i x y Hx Hy). reflexivity.
Qed.

End Blending.

(** ** Shift, rotation, resampling, normalisation *)

Section Synthesis.
Context {F : Type} `{Num F}.
Variable ext : Webbpsf.External F.
Import JWST_PSF Webbpsf.

(** Inversion of a run that returned. *)
Lemma bind_inr {A B : Type} (m : M F A) (k : A -> M F B) w b w' :
  bind m k w = (inr b, w') -> exists a w1, m w = (inr a, w1) /\ k a w1 = (inr b, w').
Proof.
  unfold bind. destruct (m w) as [[e | a] w1]; [discriminate |]. intros Hk. now exists a, w1.
Qed.

Lemma getattr_inr {A : Type} name (field : Engine F -> option A) w a w' :
  getattr name field w = (inr a, w') -> field (self w) = Some a /\ w' = w.
Proof.
  unfold getattr. destruct (field (self w)); [| discriminate]. now intros [= -> ->].
Qed.

Lemma lift_inr {A : Type} (r : pyerr + A) (w : World F) a w' :
  lift r w = (inr a, w') -> r = inr a /\ w' = w.
Proof. unfold lift. now intros [= -> ->]. Qed.

Lemma for_each_inr {A B : Type} (body : A -> M F B) (P : A -> B -> Prop) :
  (forall a w b w', body a w = (inr b, w') -> P a b) ->
  forall l w bs w', for_each l body w = (inr bs, w') -> Forall2 P l bs.
Proof.
  intros Hb. induction l as [| a l IH]; intros w bs w' Hrun; cbn [for_each] in Hrun.
  - injection Hrun as <- _. constructor.
  - apply bind_inr in Hrun as (b & w1 & Hb1 & Hrun).
    apply bind_inr in Hrun as (bs' & w2 & Hl & Hrun).
    injection Hrun as <- _. constructor; eauto.
Qed.

Lemma quick_psfs_shape cv frame h w_ w psfs w' :
  quick_psfs ext cv frame h w_ w = (inr psfs, w') -> exists k, Np.shape psfs = [k; h; w_].
Proof.
  unfold quick_psfs. intros Hrun.
  apply bind_inr in Hrun as (io & w1 & _ & Hrun).
  apply bind_inr in Hrun as (tm & w2 & _ & Hrun).
  destruct tm as [[t_temp cx_idl] cy_idl].
  apply bind_inr in Hrun as (mask & w3 & _ & Hrun).
  apply bind_inr in Hrun as (c & w4 & _ & Hrun).
  apply bind_inr in Hrun as (on & w5 & _ & Hrun).
  apply bind_inr in Hrun as (off & w6 & _ & Hrun).
  apply lift_inr in Hrun as [Hb _].
  eexists. eapply blend_shape; [| exact Hb]. reflexivity.
Qed.

Lemma reshape_stack_shape (a r : Np.ndarray F) (h w : nat) :
  Np.reshape a [None; Some h; Some w] = inr r -> exists k, Np.shape r = [k; h; w].
Proof.
  unfold Np.reshape.
  cbn [Np.wildcards List.filter List.length Np.known List.map Np.prod fold_right].
  destruct (_ || _); [discriminate |]. intros [= <-]. cbn. eauto.
Qed.

Lemma slow_psfs_shape cv frame sp_arg h w_ w psfs w' :
  slow_psfs ext cv frame sp_arg h w_ w = (inr psfs, w') -> exists k, Np.shape psfs = [k; h; w_].
Proof.
  unfold slow_psfs. intros Hrun.
  apply bind_inr in Hrun as (f & w1 & _ & Hrun).
  apply bind_inr in Hrun as (sp' & w2 & _ & Hrun).
  apply bind_inr in Hrun as (io & w3 & _ & Hrun).
  apply bind_inr in Hrun as (raw & w4 & _ & Hrun).
  apply bind_inr in Hrun as (cube & w5 & Hre & Hrun).
  apply bind_inr in Hrun as (xy & w6 & _ & Hrun).
  destruct xy as [xoff yoff]. unfold fourier_imshift, call in Hrun.
  injection Hrun as <- _. cbn [Np.shape].
  apply lift_inr in Hre as [Hre _]. now apply reshape_stack_shape in Hre.
Qed.

Lemma chunks_length (k n : nat) : forall d : list F, List.length (Np.chunks k n d) = n.
Proof. induction n as [| n IH]; intros d; cbn; [reflexivity |]. now rewrite IH. Qed.

Lemma length_enumerate {A : Type} (l : list A) :
  List.length (Py.enumerate l) = List.length l.
Proof. unfold Py.enumerate. rewrite length_combine, length_seq. lia. Qed.

Lemma enumerate_snd_in {A : Type} (l : list A) (p : nat * A) :
  In p (Py.enumerate l) -> In (snd p) l.
Proof. destruct p as [i a]. unfold Py.enumerate. intros Hin. now apply in_combine_r in Hin. Qed.

Lemma Forall2_head_r {A B : Type} (P : A -> B -> Prop) (l : list A) (b : B) (bs : list B) :
  Forall2 P l (b :: bs) -> exists a, In a l /\ P a b.
Proof. inversion 1; subst. eexists. split; [now left | assumption]. Qed.

Lemma shift_psfs_size psfs cv frame siaf osamp w out w' k h w_ :
  Np.shape psfs = [k; h; w_] ->
  shift_psfs ext psfs cv frame siaf osamp w = (inr out, w') ->
  Np.size out = k * (h * w_).
Proof.
  intros Hsh. unfold shift_psfs. intros Hrun.
  apply bind_inr in Hrun as (xy & w1 & _ & Hrun). destruct xy as [xidl yidl].
  apply bind_inr in Hrun as (ims & w2 & Hfr & Hrun).
  apply bind_inr in Hrun as (psfs_sh & w3 & Hloop & Hrun).
  injection Hrun as <- _.
  apply lift_inr in Hfr as [Hfr _]. unfold Np.frames in Hfr. rewrite Hsh in Hfr.
  injection Hfr as <-.
  assert (Hall : Forall2 (fun (i_im : nat * Np.ndarray F) b => Np.shape b = Np.shape (snd i_im))
                         (Py.enumerate
                            (List.map (Np.mk_nd [h; w_])
                               (Np.chunks (Np.prod [h; w_]) k (Np.data psfs)))) psfs_sh).
  { eapply for_each_inr; [| exact Hloop].
    intros i_im wa b wb Hb.
    apply bind_inr in Hb as (dx & wc & _ & Hb).
    apply bind_inr in Hb as (dy & wd & _ & Hb).
    unfold fourier_imshift, call in Hb. now injection Hb as <- _. }
  pose proof (Forall2_length Hall) as Hlen.
  rewrite length_enumerate, length_map, chunks_length in Hlen.
  destruct psfs_sh as [| b bs]; cbn [List.length] in Hlen.
  - subst k. reflexivity.
  - unfold Np.stack, Np.size. cbn [Np.shape].
    apply Forall2_head_r in Hall as (p & Hin & Hb). rewrite Hb.
    apply enumerate_snd_in, in_map_iff in Hin as (d & <- & _). cbn. lia.
Qed.


Lemma gen_psf_idl_shifted_size cv frame quick sp_arg w io psf w' :
  inst_on (self w) = Some io ->
  gen_psf_idl ext cv frame quick sp_arg true true w = (inr psf, w') ->
  exists k, Np.size psf = k * (side io * side io).
Proof.
  intros Hio. unfold gen_psf_idl. intros Hrun.
  apply bind_inr in Hrun as (io' & w1 & Hio' & Hrun).
  apply getattr_inr in Hio' as [Hio' ->]. rewrite Hio in Hio'. injection Hio' as <-.
  apply bind_inr in Hrun as (fp & w2 & Hfp & Hrun).
  unfold JWST_PSF.fov_pix in Hfp.
  apply bind_inr in Hfp as (io' & w3 & Hio' & Hfp).
  apply getattr_inr in Hio' as [Hio' ->]. rewrite Hio in Hio'. injection Hio' as <-.
  injection Hfp as <- <-.
  apply bind_inr in Hrun as (sp' & w4 & _ & Hrun).
  apply bind_inr in Hrun as (psfs & w5 & Hpsfs & Hrun).
  apply bind_inr in Hrun as (out & w6 & Hshift & Hrun).
  cbn [negb] in Hrun. injection Hrun as <- _.
  assert (Hsh : exists k, Np.shape psfs = [k; side io; side io]).
  { destruct quick; [eapply quick_psfs_shape | eapply slow_psfs_shape]; exact Hpsfs. }
  destruct Hsh as [k Hsh]. exists k. rewrite size_squeeze.
  eapply shift_psfs_size; eassumption.
Qed.

Lemma reads_only_locate loc mode PA_V3 av : reads_only F (locate ext loc mode PA_V3 av).
Proof.
  unfold locate. destruct (mode =? "rth")%string; [apply reads_only_rth_to_xy |].
  destruct (mode =? "xy")%string; [apply reads_only_ret | apply reads_only_raise].
Qed.

(** C5: in gen_psf with do_shift=True, what gen_psf_idl returns shifted and
    still oversampled is put back into a stack of oversampled frames and
    rotated by -(PA_V3 + V3IdlYAngle) with reshape=False, mode='constant',
    cval=0, so that the shape is kept and the outside is filled with zero;
    the rebinning to detector pixels, when return_oversample is False, is
    the call that follows the rotation and takes the rotated stack. *)
Theorem gen_psf_rotates_before_resampling :
  forall w io loc mode PA_V3 ro av nz quick sp_arg xy w1 psf w2,
    inst_on (self w) = Some io ->
    0 < side io ->
    locate ext loc mode PA_V3 av w = (inr xy, w1) ->
    gen_psf_idl ext xy "idl" quick sp_arg true true w1 = (inr psf, w2) ->
    let n := side io in
    let angle := fneg (fadd PA_V3 (V3IdlYAngle (siaf_ap io))) in
    let cube := Np.mk_nd [Np.size psf / (n * n); n; n] (Np.data psf) in
    let rotated :=
      Np.mk_nd (Np.shape cube) (rotate_data ext (Np.shape cube) (Np.data cube) angle) in
    let scale := fdiv fone (of_nat (oversample io)) in
    let out := Np.squeeze (if ro : bool then rotated else frebin ext rotated scale) in
    gen_psf ext loc mode PA_V3 ro true av nz quick sp_arg w
    = (inr (if nz : bool then Np.map (fun v => fdiv v (Np.sum out)) out else out),
       mk_world (self w2)
         (calls w2 ++
            ERotate cube angle false "constant" fzero (-1, -2)%Z ::
            (if ro then [] else [EFrebin rotated scale]))).
Proof.
  intros w io loc mode PA_V3 ro av nz quick sp_arg xy w1 psf w2 Hio Hside Hloc Hidl
         n angle cube rotated scale out.
  assert (Hio1 : inst_on (self w1) = Some io).
  { pose proof (reads_only_locate loc mode PA_V3 av w) as Hs.
    rewrite Hloc in Hs. cbn [snd] in Hs. now rewrite Hs. }
  destruct (gen_psf_idl_shifted_size _ _ _ _ _ _ _ _ Hio1 Hidl) as [k Hk].
  assert (Hn : 0 < n * n) by (subst n; nia).
  assert (Hre : Np.reshape psf [None; Some n; Some n] = inr cube).
  { rewrite (reshape_stack psf k n n Hn Hk). subst cube. now rewrite Hk, Nat.div_mul by lia. }
  unfold gen_psf.
  rewrite bind_ok with (a := io) (w' := w) by (unfold getattr; now rewrite Hio).
  rewrite bind_ok with (a := Webbpsf.fov_pix io) (w' := w)
    by (unfold JWST_PSF.fov_pix, bind, getattr, ret; now rewrite Hio).
  rewrite bind_ok with (a := xy) (w' := w1) by exact Hloc.
  rewrite bind_ok with (a := psf) (w' := w2) by exact Hidl.
  fold (side io). fold n. unfold lift, rotate, call, bind, ret. rewrite Hre.
  fold angle. fold rotated. fold scale.
  destruct ro; cbn [negb self calls]; destruct nz; subst out;
    rewrite <- ?app_assoc; reflexivity.
Qed.

Lemma bind_normalized {A : Type} (m : M F A) (k1 k2 : A -> M F (Np.ndarray F)) w :
  (forall a w1, k1 a w1 = normalized (k2 a w1)) ->
  bind m k1 w = normalized (bind m k2 w).
Proof.
  intros Hk. unfold bind. destruct (m w) as [[e | a] w1]; [reflexivity | apply Hk].
Qed.

Lemma gen_psf_normalize loc mode PA_V3 ro ds av quick sp_arg w :
  gen_psf ext loc mode PA_V3 ro ds av true quick sp_arg w
  = normalized (gen_psf ext loc mode PA_V3 ro ds av false quick sp_arg w).
Proof.
  unfold gen_psf. repeat (apply bind_normalized; intros). reflexivity.
Qed.

Lemma sum_map_div `{!Exact F} (s : F) (d : list F) : forall acc,
  fold_left fadd (List.map (fun v => fdiv v s) d) (fdiv acc s)
  = fdiv (fold_left fadd d acc) s.
Proof.
  induction d as [| x d IH]; intros acc; cbn; [reflexivity |].
  now rewrite <- div_add, IH.
Qed.

Lemma sum_normalized `{!Exact F} (a : Np.ndarray F) :
  Np.sum a <> fzero -> Np.sum (Np.map (fun v => fdiv v (Np.sum a)) a) = fone.
Proof.
  intros Hs. unfold Np.sum at 1. cbn [Np.map Np.data].
  rewrite <- (div_0_l (Np.sum a)) at 1. rewrite sum_map_div.
  fold (Np.sum a). now apply div_diag.
Qed.

Lemma chunks_map (f : F -> F) (k : nat) : forall (n : nat) (d : list F),
  Np.chunks k n (List.map f d) = List.map (List.map f) (Np.chunks k n d).
Proof.
  induction n as [| n IH]; intros d; cbn [Np.chunks List.map]; [reflexivity |].
  now rewrite firstn_map, skipn_map, IH.
Qed.

Lemma frames_concat (a : Np.ndarray F) (fs : list (Np.ndarray F)) :
  Np.frames a = inr fs ->
  List.length (Np.data a) = Np.size a ->
  Np.data a = List.concat (List.map Np.data fs).
Proof.
  unfold Np.frames, Np.size. destruct (Np.shape a) as [| n rest]; [discriminate |].
  intros [= <-] Hlen. rewrite map_map. cbn [Np.data]. rewrite map_id.
  symmetry. apply chunks_concat. cbn [Np.prod fold_right] in Hlen. exact Hlen.
Qed.

Lemma frames_map (f : F -> F) (a : Np.ndarray F) (fs : list (Np.ndarray F)) :
  Np.frames a = inr fs ->
  Np.frames (Np.map f a) = inr (List.map (Np.map f) fs).
Proof.
  unfold Np.frames, Np.map. cbn [Np.shape Np.data].
  destruct (Np.shape a) as [| n rest]; [discriminate |].
  intros [= <-]. rewrite chunks_map, !map_map. reflexivity.
Qed.

(** C2, where the code departs from it: with normalize=True gen_psf
    divides what it would have returned by np.sum of the whole array.
    When that is a stack of frames the sum runs over all of them, and
    every frame is divided by that one total, not by its own sum. *)
Theorem normalize_divides_by_the_sum_of_the_whole_stack :
  forall w loc mode PA_V3 ro ds av quick sp_arg psf w',
    gen_psf ext loc mode PA_V3 ro ds av false quick sp_arg w = (inr psf, w') ->
    let total := Np.sum psf in
    gen_psf ext loc mode PA_V3 ro ds av true quick sp_arg w
    = (inr (Np.map (fun v => fdiv v total) psf), w') /\
    forall fs,
      Np.frames psf = inr fs ->
      List.length (Np.data psf) = Np.size psf ->
      total = fold_left fadd (List.concat (List.map Np.data fs)) fzero /\
      Np.frames (Np.map (fun v => fdiv v total) psf)
      = inr (List.map (Np.map (fun v => fdiv v total)) fs).
Proof.
  intros w loc mode PA_V3 ro ds av quick sp_arg psf w' Hrun total. split.
  - rewrite gen_psf_normalize, Hrun. reflexivity.
  - intros fs Hfs Hlen. split.
    + subst total. unfold Np.sum. now rewrite (frames_concat psf fs Hfs Hlen).
    + now apply frames_map.
Qed.

(** Where C2 holds: one array whose sum is not zero sums to 1 after the
    division, in exact arithmetic. *)
Theorem normalized_psf_sums_to_one_in_total `{!Exact F} :
  forall w loc mode PA_V3 ro ds av quick sp_arg psf w',
    gen_psf ext loc mode PA_V3 ro ds av false quick sp_arg w = (inr psf, w') ->
    Np.sum psf <> fzero ->
    gen_psf ext loc mode PA_V3 ro ds av true quick sp_arg w
    = (inr (Np.map (fun v => fdiv v (Np.sum psf)) psf), w') /\
    Np.sum (Np.map (fun v => fdiv v (Np.sum psf)) psf) = fone.
Proof.
  intros w loc mode PA_V3 ro ds av quick sp_arg psf w' Hrun Hs. split.
  - rewrite gen_psf_normalize, Hrun. reflexivity.
  - now apply sum_normalized.
Qed.

End Synthesis.

(** ** What construction establishes *)

Section Built.
Context {F : Type} `{Num F}.
Variable ext : Webbpsf.External F.
Import JWST_PSF Webbpsf.

Lemma setattr_inr (upd : Engine F -> Engine F) w u w' :
  setattr upd w = (inr u, w') -> w' = mk_world (upd (self w)) (calls w).
Proof. unfold setattr. now intros [= _ <-]. Qed.

Lemma call_inr {A : Type} (ev : event F) (v : A) w a w' :
  call ev v w = (inr a, w') -> a = v /\ self w' = self w.
Proof. unfold call. now intros [= <- <-]. Qed.

Lemma call_result_inr {A : Type} (ev : event F) (r : pyerr + A) w a w' :
  call_result ev r w = (inr a, w') -> r = inr a /\ self w' = self w.
Proof. unfold call_result. now intros [= -> <-]. Qed.

Lemma reads_only_inr {A : Type} (m : M F A) w a w' :
  reads_only F m -> m w = (inr a, w') -> self w' = self w.
Proof. intros Hm Hrun. specialize (Hm w). now rewrite Hrun in Hm. Qed.

Lemma reads_only_for_fold {A S : Type} (l : list A) (body : S -> A -> M F S) :
  (forall s a, reads_only F (body s a)) -> forall s, reads_only F (for_fold l body s).
Proof.
  intros Hb. induction l as [| a l IH]; intros s; cbn [for_fold].
  - apply reads_only_ret.
  - apply reads_only_bind; [apply Hb | intros s'; apply IH].
Qed.

Lemma reads_only_pad_or_cut a n : reads_only F (pad_or_cut_to_size ext a n).
Proof. unfold pad_or_cut_to_size. apply reads_only_call. Qed.

Lemma reads_only_centroid_pass xysub xc yc v ii :
  reads_only F (centroid_pass ext xysub xc yc v ii).
Proof.
  unfold centroid_pass, JWST_PSF.max.
  apply reads_only_bind; [apply reads_only_pad_or_cut | intros crop].
  apply reads_only_bind.
  { destruct (Np.size crop =? 0); [apply reads_only_raise | apply reads_only_ret]. }
  intros amp. apply reads_only_bind; [apply reads_only_call | intros pfit].
  apply reads_only_bind; [apply reads_only_fourier_imshift | intros tmpl].
  apply reads_only_ret.
Qed.

Lemma calc_psf_off_shift_inr xysub w u w' :
  _calc_psf_off_shift ext xysub w = (inr u, w') ->
  exists xy, self w' = set_xy_off_to_cen xy (self w).
Proof.
  unfold _calc_psf_off_shift. intros Hrun.
  apply bind_inr in Hrun as (off & w1 & Hoff & Hrun).
  apply getattr_inr in Hoff as [_ ->].
  apply bind_inr in Hrun as (tmpl & w2 & Htmpl & Hrun).
  apply (reads_only_inr _ _ _ _ (reads_only_pad_or_cut _ _)) in Htmpl.
  apply bind_inr in Hrun as (v & w3 & Hloop & Hrun).
  apply (reads_only_inr _ _ _ _
           (reads_only_for_fold _ _ (reads_only_centroid_pass _ _ _) _)) in Hloop.
  apply setattr_inr in Hrun as ->. cbn [self]. rewrite Hloop, Htmpl. eauto.
Qed.

Lemma recenter_psfs_inr xysub w u w' :
  _recenter_psfs ext xysub w = (inr u, w') ->
  exists on off dx dy,
    psf_on (self w) = Some on /\ psf_off (self w) = Some off /\
    self w' = set_psf_off (shifted ext off dx dy)
                (set_psf_on (shifted ext on dx dy) (set_xy_off_to_cen (dx, dy) (self w))).
Proof.
  unfold _recenter_psfs. intros Hrun.
  apply bind_inr in Hrun as (u1 & w1 & Hcalc & Hrun).
  apply calc_psf_off_shift_inr in Hcalc as [xy Hs1].
  apply bind_inr in Hrun as (xy' & w2 & Hxy & Hrun).
  apply getattr_inr in Hxy as [Hxy ->]. rewrite Hs1 in Hxy. cbn in Hxy.
  injection Hxy as <-. destruct xy as [dx dy].
  apply bind_inr in Hrun as (on & w3 & Hon & Hrun).
  apply getattr_inr in Hon as [Hon ->]. rewrite Hs1 in Hon. cbn in Hon.
  apply bind_inr in Hrun as (on' & w4 & Hon' & Hrun).
  unfold fourier_imshift in Hon'. apply call_inr in Hon' as [-> Hs4].
  apply bind_inr in Hrun as (u5 & w5 & Hset & Hrun).
  apply setattr_inr in Hset as ->.
  apply bind_inr in Hrun as (off & w6 & Hoff & Hrun).
  apply getattr_inr in Hoff as [Hoff ->]. cbn in Hoff. rewrite Hs4, Hs1 in Hoff. cbn in Hoff.
  apply bind_inr in Hrun as (off' & w7 & Hoff' & Hrun).
  unfold fourier_imshift in Hoff'. apply call_inr in Hoff' as [-> Hs7].
  apply setattr_inr in Hrun as ->. cbn [self] in *.
  exists on, off, dx, dy. repeat split; try assumption.
  rewrite Hs7. cbn [self]. rewrite Hs4, Hs1. reflexivity.
Qed.


Lemma for_each_call {A B : Type} (ev : A -> event F) (v : A -> B) (l : list A) w :
  for_each l (fun a => call (ev a) (v a)) w
  = (inr (List.map v l), mk_world (self w) (calls w ++ List.map ev l)).
Proof.
  revert w. induction l as [| a l IH]; intros w; cbn [for_each List.map].
  - unfold ret. rewrite app_nil_r. now destruct w.
  - unfold bind at 1. unfold call at 1. unfold bind at 1. rewrite IH.
    unfold ret. cbn [self calls]. now rewrite <- app_assoc.
Qed.

Lemma image_shifted (a : Np.ndarray F) (n : nat) dx dy :
  well_behaved ext -> image a n n -> image (shifted ext a dx dy) n n.
Proof.
  intros Hwb [Hs Hd]. split; cbn; [exact Hs |]. now rewrite (shift_length Hwb).
Qed.

(** X3: when the collaborators return images of the instrument's oversampled
    side, an object that [__init__] returns is ready: it holds the
    instrument with the mask and the sizes asked for, an off-axis image and
    an on-axis image (for a bar mask a stack along the bar, interpolated to
    one frame per position) of that side. *)
Theorem construct_establishes_ready :
  forall inst filt image_mask fov os sp_arg uc date e l,
    well_behaved ext ->
    construct ext inst filt image_mask fov os sp_arg uc date = (inr e, l) ->
    exists io off on_at,
      ready ext (mk_world e l) io off on_at /\
      Webbpsf.image_mask io = image_mask /\ side io = fov * os.
Proof.
  intros inst filt image_mask fov os sp_arg uc date e l Hwb Hc.
  unfold construct in Hc.
  destruct (__init__ _ _ _ _ _ _ _ _ _ _) as [[err | u] w] eqn:Hrun; [discriminate |].
  injection Hc as <- <-. unfold __init__ in Hrun.
  apply bind_inr in Hrun as (u1 & w1 & _ & Hrun).
  apply bind_inr in Hrun as (pm & w2 & _ & Hrun).
  apply bind_inr in Hrun as (k & w3 & _ & Hrun).
  apply bind_inr in Hrun as (io_on & w4 & Hon & Hrun).
  apply bind_inr in Hrun as (k' & w5 & _ & Hrun).
  apply bind_inr in Hrun as (io_off & w6 & Hoff & Hrun).
  unfold new_inst in Hon, Hoff.
  apply call_result_inr in Hon as [Hon _]. apply call_result_inr in Hoff as [Hoff _].
  destruct (inst_accepts ext k filt image_mask pm); [| discriminate].
  destruct (inst_accepts ext k' filt None pm); [| discriminate].
  injection Hon as <-. injection Hoff as <-.
  apply bind_inr in Hrun as (insts & w7 & Hinsts & Hrun).
  destruct insts as [on7 off7].
  apply bind_inr in Hrun as (cfg & w8 & Hcfg & Hrun).
  destruct cfg as [[[on8 off8] func_on] func_off].
  assert (Hsame : fov * os = side on8 /\ Webbpsf.image_mask on8 = image_mask /\
                  side off8 = side on8).
  { destruct date as [d |].
    - apply bind_inr in Hinsts as (? & ? & _ & Hinsts).
      apply bind_inr in Hinsts as (? & ? & _ & Hinsts).
      injection Hinsts as <- <- _.
      destruct uc.
      + apply bind_inr in Hcfg as (? & ? & _ & Hcfg).
        apply bind_inr in Hcfg as (? & ? & _ & Hcfg).
        apply bind_inr in Hcfg as (? & ? & _ & Hcfg).
        injection Hcfg as <- <- _ _ _. repeat split; reflexivity.
      + injection Hcfg as <- <- _ _ _. repeat split; reflexivity.
    - injection Hinsts as <- <- _.
      destruct uc.
      + apply bind_inr in Hcfg as (? & ? & _ & Hcfg).
        apply bind_inr in Hcfg as (? & ? & _ & Hcfg).
        apply bind_inr in Hcfg as (? & ? & _ & Hcfg).
        injection Hcfg as <- <- _ _ _. repeat split; reflexivity.
      + injection Hcfg as <- <- _ _ _. repeat split; reflexivity. }
  destruct Hsame as (Hside & Hmask & Hoffside). clear Hinsts Hcfg.
  apply bind_inr in Hrun as (sp' & w9 & _ & Hrun).
  apply bind_inr in Hrun as (c & w10 & Hc & Hrun).
  apply lift_inr in Hc as [Hc ->]. unfold Py.subscript_last in Hc.
  destruct image_mask as [m |]; [| discriminate].
  destruct (Py.last_char m) as [c' |] eqn:Hlast; [| discriminate]. injection Hc as ->.
  apply bind_inr in Hrun as (u11 & w11 & Hpsf_on & Hrun).
  apply bind_inr in Hrun as (off & w12 & Hcalc_off & Hrun).
  apply call_inr in Hcalc_off as [-> Hs12].
  apply bind_inr in Hrun as (u13 & w13 & Hset_off & Hrun).
  apply setattr_inr in Hset_off as ->.
  apply bind_inr in Hrun as (u14 & w14 & Hrec & Hrun).
  apply recenter_psfs_inr in Hrec as (on & off & dx & dy & Hon & Hoff & Hs14).
  cbn [self] in Hon, Hoff, Hs14. rewrite Hs12 in Hon, Hoff, Hs14. cbn in Hoff.
  injection Hoff as <-.
  apply bind_inr in Hrun as (? & w15 & H15 & Hrun). apply setattr_inr in H15 as ->.
  apply bind_inr in Hrun as (? & w16 & H16 & Hrun). apply setattr_inr in H16 as ->.
  apply bind_inr in Hrun as (? & w17 & H17 & Hrun). apply setattr_inr in H17 as ->.
  apply bind_inr in Hrun as (? & w18 & H18 & Hrun). apply setattr_inr in H18 as ->.
  apply bind_inr in Hrun as (? & w19 & H19 & Hrun). apply setattr_inr in H19 as ->.
  apply setattr_inr in Hrun as ->. cbn [self calls]. rewrite Hs14. cbn in Hon.
  assert (Himg_off : image (shifted ext (calc ext func_off off8 sp' None None) dx dy)
                           (side on8) (side on8)).
  { apply image_shifted; [exact Hwb |].
    rewrite <- Hoffside. apply (calc_image Hwb). }
  destruct (Ascii.eqb c "B") eqn:HB.
  - apply bind_inr in Hpsf_on as (? & wa & Ha & Hpsf_on). apply setattr_inr in Ha as ->.
    apply bind_inr in Hpsf_on as (arr & wb & Hb & Hpsf_on).
    rewrite for_each_call in Hb. injection Hb as <- <-.
    apply setattr_inr in Hpsf_on as ->. cbn in Hon. injection Hon as <-.
    set (arr := Np.stack _) in *.
    assert (Harr : Np.shape arr = [9; side on8; side on8]).
    { subst arr. unfold bar_xvals. cbn [List.map Np.stack Np.shape List.length].
      now rewrite (proj1 (calc_image_at Hwb _ _ _ _ _ _)). }
    exists on8, (shifted ext (calc ext func_off off8 sp' None None) dx dy),
      (interp_at ext bar_xvals (shifted ext arr dx dy)).
    split; [| split; [exact Hmask | now rewrite Hside]].
    split.
    + reflexivity.
    + exists m, c. now split.
    + split; [reflexivity | exact Himg_off].
    + unfold is_bar. rewrite Hmask, Hlast, HB.
      exists bar_xvals, (shifted ext arr dx dy), 9. cbn [self calls].
      split; [reflexivity |]. split; [reflexivity |]. split; [exact Harr |].
      intros xq. split; [reflexivity |].
      rewrite (interp_length Hwb). cbn [shifted Np.shape]. rewrite Harr. cbn. lia.
  - apply bind_inr in Hpsf_on as (psf & wa & Ha & Hpsf_on).
    apply call_inr in Ha as [-> Hsa].
    apply setattr_inr in Hpsf_on as ->. cbn in Hon. injection Hon as <-.
    exists on8, (shifted ext (calc ext func_off off8 sp' None None) dx dy),
      (fun _ => Np.data (shifted ext (calc ext func_on on8 sp' None None) dx dy)).
    split; [| split; [exact Hmask | now rewrite Hside]].
    split.
    + reflexivity.
    + exists m, c. now split.
    + split; [reflexivity | exact Himg_off].
    + unfold is_bar. rewrite Hmask, Hlast, HB.
      exists (shifted ext (calc ext func_on on8 sp' None None) dx dy). cbn [self calls].
      split; [reflexivity |]. split; [| reflexivity].
      apply image_shifted; [exact Hwb | apply (calc_image Hwb)].
Qed.
End Built.

(** ** More on the query methods *)

Section Queries.
Context {F : Type} `{Num F}.
Variable ext : Webbpsf.External F.
Import JWST_PSF Webbpsf.

Lemma getattr_ok {A : Type} name (field : Engine F -> option A) (w : World F) a :
  field (self w) = Some a -> getattr name field w = (inr a, w).
Proof. intros Hf. unfold getattr. now rewrite Hf. Qed.

Lemma fov_pix_ok (w : World F) io :
  inst_on (self w) = Some io -> JWST_PSF.fov_pix w = (inr (Webbpsf.fov_pix io), w).
Proof. intros Hio. unfold JWST_PSF.fov_pix, bind, getattr. now rewrite Hio. Qed.

(** X4: gen_psf with a mode other than 'rth' and 'xy' (the comparison is
    case-sensitive) raises UnboundLocalError on the unassigned xidl, before
    any collaborator is called and with the object as it was. *)
Theorem gen_psf_unknown_mode_raises :
  forall (w : World F) io loc mode PA_V3 ro ds av nz quick sp_arg,
    inst_on (self w) = Some io ->
    mode <> "rth" -> mode <> "xy" ->
    gen_psf ext loc mode PA_V3 ro ds av nz quick sp_arg w
    = (inl (UnboundLocalError "xidl"), w).
Proof.
  intros w io loc mode PA_V3 ro ds av nz quick sp_arg Hio Hrth Hxy.
  unfold gen_psf. rewrite (bind_ok _ _ _ _ _ (getattr_ok _ _ _ _ Hio)).
  rewrite (bind_ok _ _ _ _ _ (fov_pix_ok _ _ Hio)).
  unfold locate.
  destruct (String.eqb_spec mode "rth") as [-> | _]; [contradiction |].
  destruct (String.eqb_spec mode "xy") as [-> | _]; [contradiction |].
  reflexivity.
Qed.

Lemma squeeze_squeeze (a : Np.ndarray F) : Np.squeeze (Np.squeeze a) = Np.squeeze a.
Proof.
  unfold Np.squeeze. cbn [Np.shape Np.data]. f_equal.
  induction (Np.shape a) as [| n s IH]; [reflexivity |].
  cbn [List.filter]. destruct (negb (n =? 1)) eqn:Hn; cbn [List.filter]; [rewrite Hn; f_equal |]; exact IH.
Qed.

(** *** Calls of a kind *)

Lemma emits_ret p {A : Type} (a : A) : emits p (@ret F A a).
Proof. intros w. exists []. now rewrite app_nil_r. Qed.

Lemma emits_raise p {A : Type} (e : pyerr) : emits p (@raise F A e).
Proof. intros w. exists []. now rewrite app_nil_r. Qed.

Lemma emits_lift p {A : Type} (r : pyerr + A) : emits p (@lift F A r).
Proof. intros w. exists []. now rewrite app_nil_r. Qed.

Lemma emits_getattr p {A : Type} (name : string) (field : Engine F -> option A) :
  emits p (getattr name field).
Proof.
  intros w. exists []. unfold getattr. rewrite app_nil_r. now destruct (field (self w)).
Qed.

Lemma emits_setattr p (upd : Engine F -> Engine F) : emits p (setattr upd).
Proof. intros w. exists []. now rewrite app_nil_r. Qed.

Lemma emits_call (p : event F -> bool) {A : Type} (ev : event F) (v : A) :
  p ev = true -> emits p (call ev v).
Proof. intros Hp w. exists [ev]. cbn. now rewrite Hp. Qed.

Lemma emits_call_result (p : event F -> bool) {A : Type} (ev : event F) (r : pyerr + A) :
  p ev = true -> emits p (call_result ev r).
Proof. intros Hp w. exists [ev]. cbn. now rewrite Hp. Qed.

Lemma emits_bind p {A B : Type} (m : M F A) (k : A -> M F B) :
  emits p m -> (forall a, emits p (k a)) -> emits p (bind m k).
Proof.
  intros Hm Hk w. unfold bind. destruct (Hm w) as (l1 & Hl1 & Hp1).
  destruct (m w) as [[e | a] w1]; cbn [snd] in *.
  - now exists l1.
  - destruct (Hk a w1) as (l2 & Hl2 & Hp2). exists (l1 ++ l2).
    rewrite Hl2, Hl1, <- app_assoc, forallb_app, Hp1, Hp2. now split.
Qed.

Lemma emits_for_each p {A B : Type} (l : list A) (body : A -> M F B) :
  (forall a, emits p (body a)) -> emits p (for_each l body).
Proof.
  intros Hb. induction l as [| a l IH]; cbn [for_each].
  - apply emits_ret.
  - apply emits_bind; [apply Hb | intros b].
    apply emits_bind; [exact IH | intros bs]. apply emits_ret.
Qed.

Lemma emits_for_fold p {A S : Type} (l : list A) (body : S -> A -> M F S) :
  (forall s a, emits p (body s a)) -> forall s, emits p (for_fold l body s).
Proof.
  intros Hb. induction l as [| a l IH]; intros s; cbn [for_fold].
  - apply emits_ret.
  - apply emits_bind; [apply Hb | intros s'; apply IH].
Qed.

(** *** Outcomes that depend on part of the object only *)

Lemma same_outcome_ret R {A : Type} (a : A) : same_outcome R (@ret F A a).
Proof. intros w1 w2 HR. now split. Qed.

Lemma same_outcome_raise R {A : Type} (e : pyerr) : same_outcome R (@raise F A e).
Proof. intros w1 w2 HR. now split. Qed.

Lemma same_outcome_lift R {A : Type} (r : pyerr + A) : same_outcome R (@lift F A r).
Proof. intros w1 w2 HR. now split. Qed.

Lemma same_outcome_call R {A : Type} (ev : event F) (v : A) : same_outcome R (call ev v).
Proof. intros w1 w2 HR. now split. Qed.

Lemma same_outcome_call_result R {A : Type} (ev : event F) (r : pyerr + A) :
  same_outcome R (call_result ev r).
Proof. intros w1 w2 HR. now split. Qed.

Lemma same_outcome_getattr (R : Engine F -> Engine F -> Prop) {A : Type} (name : string)
      (field : Engine F -> option A) :
  (forall e1 e2, R e1 e2 -> field e1 = field e2) -> same_outcome R (getattr name field).
Proof.
  intros Hf w1 w2 HR. unfold getattr. rewrite (Hf _ _ HR).
  destruct (field (self w2)); now split.
Qed.

Lemma same_outcome_bind R {A B : Type} (m : M F A) (k : A -> M F B) :
  same_outcome R m -> (forall a, same_outcome R (k a)) -> same_outcome R (bind m k).
Proof.
  intros Hm Hk w1 w2 HR. unfold bind. destruct (Hm w1 w2 HR) as [Hfst Hself].
  destruct (m w1) as [[e1 | a1] w1'], (m w2) as [[e2 | a2] w2']; cbn [fst snd] in *;
    try discriminate.
  - injection Hfst as ->. now split.
  - injection Hfst as ->. now apply Hk.
Qed.

Lemma same_outcome_for_each R {A B : Type} (l : list A) (body : A -> M F B) :
  (forall a, same_outcome R (body a)) -> same_outcome R (for_each l body).
Proof.
  intros Hb. induction l as [| a l IH]; cbn [for_each].
  - apply same_outcome_ret.
  - apply same_outcome_bind; [apply Hb | intros b].
    apply same_outcome_bind; [exact IH | intros bs]. apply same_outcome_ret.
Qed.

Create HintDb kinds discriminated.
Hint Resolve emits_ret emits_raise emits_lift emits_getattr emits_setattr : kinds.

Ltac kinds_step :=
  match goal with
  | |- emits _ (bind _ _) => apply emits_bind; [| intros ?]
  | |- emits _ (for_each _ _) => apply emits_for_each; intros ?
  | |- emits _ (for_fold _ _ _) => apply emits_for_fold; intros ? ?
  | |- emits _ (call _ _) => apply emits_call; reflexivity
  | |- emits _ (call_result _ _) => apply emits_call_result; reflexivity
  | |- emits _ (if ?b then _ else _) => destruct b
  | |- emits _ (match ?x with _ => _ end) => destruct x
  | |- forall _, _ => intros ?
  | |- _ => solve [auto with kinds]
  end.
Ltac kinds := repeat kinds_step.

Create HintDb outcome discriminated.
Hint Resolve same_outcome_ret same_outcome_raise same_outcome_lift same_outcome_call
  same_outcome_call_result : outcome.

Ltac field_agrees :=
  let e1 := fresh "e1" in
  let e2 := fresh "e2" in
  let HR := fresh "HR" in
  intros e1 e2 HR;
  first [ now rewrite HR
        | unfold JWST_PSF.same_setup in HR; tauto ].

Ltac outcome_step :=
  match goal with
  | |- JWST_PSF.same_outcome _ (JWST_PSF.bind _ _) => apply same_outcome_bind; [| intros ?]
  | |- JWST_PSF.same_outcome _ (JWST_PSF.for_each _ _) => apply same_outcome_for_each; intros ?
  | |- JWST_PSF.same_outcome _ (JWST_PSF.getattr _ _) => apply same_outcome_getattr; field_agrees
  | |- JWST_PSF.same_outcome _ (if ?b then _ else _) => destruct b
  | |- JWST_PSF.same_outcome _ (match ?x with _ => _ end) => destruct x
  | |- forall _, _ => intros ?
  | |- _ => solve [auto with outcome]
  end.
Ltac outcome := repeat outcome_step.

Lemma emits_quick_gen_psf_idl cv frame sp_arg ro ds :
  emits (fun ev => negb (is_calc ev)) (gen_psf_idl ext cv frame true sp_arg ro ds).
Proof.
  unfold gen_psf_idl, JWST_PSF.fov_pix, JWST_PSF.bandpass, renorm, quick_psfs,
    _transmission_map, JWST_PSF.image_mask, interp1d, shift_psfs, fourier_imshift.
  destruct cv. kinds.
Qed.

Lemma emits_quick_gen_psf loc mode PA_V3 ro ds av nz sp_arg :
  emits (fun ev => negb (is_calc ev)) (gen_psf ext loc mode PA_V3 ro ds av nz true sp_arg).
Proof.
  unfold gen_psf, JWST_PSF.fov_pix, locate, rth_to_xy, rotate.
  kinds; try apply emits_quick_gen_psf_idl.
Qed.

Lemma same_outcome_gen_psf_idl_eq cv frame quick sp_arg ro ds :
  same_outcome eq (gen_psf_idl ext cv frame quick sp_arg ro ds).
Proof.
  unfold gen_psf_idl, JWST_PSF.fov_pix, JWST_PSF.bandpass, renorm, quick_psfs, slow_psfs,
    _transmission_map, JWST_PSF.image_mask, interp1d, shift_psfs, fourier_imshift.
  destruct cv. outcome.
Qed.

Lemma same_outcome_gen_psf_idl_slow cv frame sp_arg ro ds :
  same_outcome same_setup (gen_psf_idl ext cv frame false sp_arg ro ds).
Proof.
  unfold gen_psf_idl, JWST_PSF.fov_pix, JWST_PSF.bandpass, renorm, slow_psfs,
    shift_psfs, fourier_imshift.
  outcome.
Qed.


(** X10: in quick mode gen_psf and gen_psf_idl never call a PSF
    calculation of webbpsf_ext, whatever the other arguments and whether
    they return or raise: no call that they add is calc_psf or
    calc_psf_from_coeff. *)
Theorem quick_mode_never_computes_a_psf :
  forall (w : World F) loc mode PA_V3 ro ds av nz sp_arg cv frame,
    (exists l,
        calls (snd (gen_psf ext loc mode PA_V3 ro ds av nz true sp_arg w)) = calls w ++ l /\
        forallb (fun ev => negb (is_calc ev)) l = true) /\
    (exists l,
        calls (snd (gen_psf_idl ext cv frame true sp_arg ro ds w)) = calls w ++ l /\
        forallb (fun ev => negb (is_calc ev)) l = true).
Proof.
  intros. split; [apply emits_quick_gen_psf | apply emits_quick_gen_psf_idl].
Qed.

Lemma renorm_ok s bp s' (w : World F) :
  sp_renorm ext s bp = Some s' ->
  renorm ext s bp w = (inr s', mk_world (self w) (calls w ++ [ERenorm s])).
Proof. intros Hs. unfold renorm, call_result. now rewrite Hs. Qed.

Lemma renorm_fails s bp (w : World F) :
  sp_renorm ext s bp = None ->
  renorm ext s bp w
  = (inl (ExternalError "renorm"), mk_world (self w) (calls w ++ [ERenorm s])).
Proof. intros Hs. unfold renorm, call_result. now rewrite Hs. Qed.

Lemma bandpass_ok (w : World F) io :
  inst_on (self w) = Some io -> JWST_PSF.bandpass w = (inr (Webbpsf.bandpass io), w).
Proof. intros Hio. unfold JWST_PSF.bandpass, bind, getattr. now rewrite Hio. Qed.

(** X8: a spectrum passed to gen_psf_idl is renormalised on the bandpass of
    the instrument before anything else, in quick mode too.  When the
    renormalisation raises, the call raises with it after that one call;
    when it returns, the quick-mode result is the one without a spectrum. *)
Theorem given_spectrum_is_renormalised_in_quick_mode_too :
  forall (w : World F) io cv frame s ro ds,
    inst_on (self w) = Some io ->
    (sp_renorm ext s (Webbpsf.bandpass io) = None ->
     forall quick,
       gen_psf_idl ext cv frame quick (Some s) ro ds w
       = (inl (ExternalError "renorm"), mk_world (self w) (calls w ++ [ERenorm s]))) /\
    (sp_renorm ext s (Webbpsf.bandpass io) <> None ->
     fst (gen_psf_idl ext cv frame true (Some s) ro ds w)
     = fst (gen_psf_idl ext cv frame true None ro ds w)).
Proof.
  intros w io cv frame s ro ds Hio. split.
  - intros Hs quick. unfold gen_psf_idl.
    rewrite (bind_ok _ _ _ _ _ (getattr_ok _ _ _ _ Hio)).
    rewrite (bind_ok _ _ _ _ _ (fov_pix_ok _ _ Hio)).
    unfold bind at 1. unfold bind at 1. rewrite (bandpass_ok _ _ Hio).
    unfold bind at 1. now rewrite (renorm_fails _ _ _ Hs).
  - intros Hs. destruct (sp_renorm ext s (Webbpsf.bandpass io)) as [s' |] eqn:Hs';
      [clear Hs | contradiction].
    unfold gen_psf_idl.
    rewrite !(bind_ok _ _ _ _ _ (getattr_ok _ _ _ _ Hio)).
    rewrite !(bind_ok _ _ _ _ _ (fov_pix_ok _ _ Hio)).
    unfold bind at 1. unfold bind at 1. rewrite (bandpass_ok _ _ Hio).
    unfold bind at 1. rewrite (renorm_ok _ _ _ _ Hs'). unfold ret at 1.
    unfold bind at 5. unfold ret at 4.
    match goal with
    | |- fst (?m ?w1) = fst (?m' ?w2) =>
        change m' with m; assert (Hsame : same_outcome eq m)
    end.
    { unfold quick_psfs, _transmission_map, JWST_PSF.image_mask, interp1d, shift_psfs,
        fourier_imshift. destruct cv. outcome. }
    now apply Hsame.
Qed.


Lemma quick_ignores_a_renormalised_spectrum (w : World F) io cv frame s ro ds :
  inst_on (self w) = Some io ->
  sp_renorm ext s (Webbpsf.bandpass io) <> None ->
  fst (gen_psf_idl ext cv frame true (Some s) ro ds w)
  = fst (gen_psf_idl ext cv frame true None ro ds w).
Proof.
  intros Hio Hs.
  destruct (sp_renorm ext s (Webbpsf.bandpass io)) as [s' |] eqn:Hs';
    [clear Hs | contradiction].
  unfold gen_psf_idl.
  rewrite !(bind_ok _ _ _ _ _ (getattr_ok _ _ _ _ Hio)).
  rewrite !(bind_ok _ _ _ _ _ (fov_pix_ok _ _ Hio)).
  unfold bind at 1. unfold bind at 1. rewrite (bandpass_ok _ _ Hio).
  unfold bind at 1. rewrite (renorm_ok _ _ _ _ Hs'). unfold ret at 1.
  unfold bind at 5. unfold ret at 4.
  match goal with
  | |- fst (?m ?w1) = fst (?m' ?w2) =>
      change m' with m; assert (Hsame : same_outcome eq m)
  end.
  { unfold quick_psfs, _transmission_map, JWST_PSF.image_mask, interp1d, shift_psfs,
      fourier_imshift. destruct cv. outcome. }
  now apply Hsame.
Qed.

(** C7, with the input where the code departs from it.  In quick mode
    without shift the blend has one frame per queried position; the frame
    of every position whose amplitude transmission is 1 is the off-axis
    reference, element for element, and the frame of every position whose
    transmission is 0 is the on-axis reference (for a bar mask the image
    interpolated at the position's ideal x).  gen_psf_idl returns that
    blend squeezed, rebinned before when return_oversample is False, with
    or without a spectrum.  This holds for every batch on a mask that is
    not a bar and for one position on a bar mask; on a bar mask a query of
    any other number of positions raises at line 348, whatever their
    transmission. *)
Theorem quick_frames_at_full_and_zero_transmission `{!Exact F} :
  forall (w : World F) io off on_at cv frame sp_arg,
    ready ext w io off on_at ->
    positions cv ->
    match sp_arg with
    | Some s => sp_renorm ext s (Webbpsf.bandpass io) <> None
    | None => True
    end ->
    let n := side io in
    let N := Np.size (fst cv) in
    ((is_bar io = true -> N = 1) ->
     exists psfs,
       Np.shape psfs = [N; n; n] /\
       (forall ro,
           fst (gen_psf_idl ext cv frame true sp_arg ro false w)
           = inr (Np.squeeze
                    (if ro : bool then psfs
                     else frebin ext psfs (fdiv fone (of_nat (oversample io)))))) /\
       forall i x y t cx cy,
         nth_error (Np.data (fst cv)) i = Some x ->
         nth_error (Np.data (snd cv)) i = Some y ->
         transmission_at ext io frame x y = (t, cx, cy) ->
         (t = fone ->
          nth_error (Np.chunks (n * n) N (Np.data psfs)) i = Some (Np.data off)) /\
         (t = fzero ->
          nth_error (Np.chunks (n * n) N (Np.data psfs)) i = Some (on_at cx))) /\
    (is_bar io = true -> N <> 1 -> 0 < n ->
     forall ro ds,
       fst (gen_psf_idl ext cv frame true sp_arg ro ds w)
       = inl (ValueError "cannot reshape array")).
Proof.
  intros w io off on_at cv frame sp_arg Hr Hpos Hsp n N.
  pose proof (ready_inst _ _ _ _ _ Hr) as Hio.
  assert (Hnone : forall ro ds,
             fst (gen_psf_idl ext cv frame true sp_arg ro ds w)
             = fst (gen_psf_idl ext cv frame true None ro ds w)).
  { intros ro ds. destruct sp_arg as [s |]; [| reflexivity].
    now apply (quick_ignores_a_renormalised_spectrum w io). }
  split.
  - intros Hbar.
    pose proof (quick_psfs_spec ext w io off on_at cv frame Hr Hpos Hbar) as Hq.
    pose proof (ready_on_length ext w io off on_at Hr) as Hlen.
    pose proof (length_samples ext io cv frame Hpos) as Hpts.
    destruct Hr as [_ _ (_ & _ & Hoffd) _].
    exists (Np.mk_nd [N; n; n]
              (List.concat
                 (List.map
                    (fun p => blend_frame (fst (fst p)) (Np.data off) (on_at (snd (fst p))))
                    (samples ext io cv frame)))).
    split; [reflexivity |]. split.
    + intros ro. rewrite Hnone, (gen_psf_idl_quick ext w io cv frame ro false Hio).
      rewrite (bind_ok _ _ _ _ _ Hq). unfold bind, ret, call. now destruct ro.
    + intros i x y t cx cy Hx Hy Ht. cbn [Np.data]. subst N n. rewrite <- Hpts.
      rewrite chunks_concat_map
        by (intros p; rewrite length_blend_frame; rewrite ?Hlen; exact Hoffd || now rewrite Hoffd).
      unfold samples. rewrite nth_error_map.
      rewrite (nth_error_zip_with (transmission_at ext io frame) _ _ i x y Hx Hy).
      rewrite Ht. cbn [option_map fst snd].
      split; intros ->.
      * now rewrite blend_frame_full by (rewrite Hlen, Hoffd; lia).
      * now rewrite blend_frame_dark by (rewrite Hlen, Hoffd; lia).
  - intros Hbar HN Hn ro ds. rewrite Hnone.
    pose proof (quick_psfs_bar_batch_raises ext w io off on_at cv frame Hr Hpos Hbar HN Hn)
      as Hq.
    now rewrite (gen_psf_idl_quick_raises ext _ _ _ _ _ _ _ _ Hio Hq).
Qed.

(** X5: gen_psf in mode 'xy' with do_shift=False, return_oversample=True
    and normalize=False is gen_psf_idl at the same position in the 'idl'
    frame with do_shift=False and return_oversample=True: the same result
    or exception, the same calls.  Nothing is rotated, and PA_V3 and
    addV3Yidl have no effect. *)
Theorem gen_psf_without_shift_is_gen_psf_idl :
  forall (w : World F) loc PA_V3 av quick sp_arg,
    gen_psf ext loc "xy" PA_V3 true false av false quick sp_arg w
    = gen_psf_idl ext loc "idl" quick sp_arg true false w.
Proof.
  intros w loc PA_V3 av quick sp_arg.
  destruct (inst_on (self w)) as [io |] eqn:Hio.
  - unfold gen_psf. rewrite (bind_ok _ _ _ _ _ (getattr_ok _ _ _ _ Hio)).
    rewrite (bind_ok _ _ _ _ _ (fov_pix_ok _ _ Hio)).
    cbn [locate String.eqb Ascii.eqb Bool.eqb negb]. unfold bind at 1. unfold ret at 1.
    unfold bind at 1.
    destruct (gen_psf_idl ext loc "idl" quick sp_arg true false w) as [[e | psf] w1] eqn:Hrun;
      [reflexivity |].
    unfold bind, ret. f_equal. f_equal.
    unfold gen_psf_idl in Hrun.
    rewrite (bind_ok _ _ _ _ _ (getattr_ok _ _ _ _ Hio)) in Hrun.
    rewrite (bind_ok _ _ _ _ _ (fov_pix_ok _ _ Hio)) in Hrun.
    apply bind_inr in Hrun as (sp1 & w2 & _ & Hrun).
    apply bind_inr in Hrun as (p1 & w3 & _ & Hrun).
    apply bind_inr in Hrun as (p2 & w4 & _ & Hrun).
    apply bind_inr in Hrun as (p3 & w5 & _ & Hrun).
    unfold ret in Hrun. injection Hrun as <- _. apply squeeze_squeeze.
  - unfold gen_psf, gen_psf_idl, bind, getattr. now rewrite Hio.
Qed.

(** X7: with quick=False and do_shift=False gen_psf_idl calls the stored
    function _func_on once, for all the positions together and in the
    frame given, with the spectrum given (renormalised) or else the stored
    self.sp; the result is put into a stack of oversampled frames, moved by
    the stored centring offset in one call, rebinned when return_oversample
    is False, and squeezed. *)
Theorem slow_mode_computes_once_and_recentres :
  forall (w : World F) io f dx dy cv frame sp_arg used ro k,
    inst_on (self w) = Some io ->
    _func_on (self w) = Some f ->
    _xy_off_to_cen (self w) = Some (dx, dy) ->
    match sp_arg with
    | None => sp (self w) = Some used
    | Some s => exists s', sp_renorm ext s (Webbpsf.bandpass io) = Some s' /\ used = Some s'
    end ->
    let n := side io in
    let raw := calc ext f io used (Some cv) (Some frame) in
    0 < n ->
    Np.size raw = k * (n * n) ->
    let cube := Np.mk_nd [k; n; n] (Np.data raw) in
    let centred := shifted ext cube dx dy in
    let scale := fdiv fone (of_nat (oversample io)) in
    gen_psf_idl ext cv frame false sp_arg ro false w
    = (inr (Np.squeeze (if ro then centred else frebin ext centred scale)),
       mk_world (self w)
         (calls w ++
            match sp_arg with Some s => [ERenorm s] | None => [] end ++
            [ECalc f io used (Some cv) (Some frame); EFourierImshift cube dx dy] ++
            (if ro then [] else [EFrebin centred scale]))).
Proof.
  intros w io f dx dy cv frame sp_arg used ro k Hio Hf Hxy Hsp n raw Hn Hsize cube centred
    scale.
  assert (Hnn : 0 < n * n) by nia.
  pose proof (reshape_stack raw k n n Hnn Hsize) as Hreshape.
  unfold gen_psf_idl.
  rewrite (bind_ok _ _ _ _ _ (getattr_ok _ _ _ _ Hio)).
  rewrite (bind_ok _ _ _ _ _ (fov_pix_ok _ _ Hio)).
  destruct sp_arg as [s |].
  - destruct Hsp as (s' & Hs' & ->).
    unfold bind at 1. unfold bind at 1. rewrite (bandpass_ok _ _ Hio).
    unfold bind at 1. rewrite (renorm_ok _ _ _ _ Hs'). unfold ret at 1.
    unfold slow_psfs, fourier_imshift, bind, getattr, call, lift, ret. cbn [self calls].
    rewrite Hf. cbn [self calls]. rewrite Hio. change (Webbpsf.fov_pix io * Webbpsf.oversample io) with n. cbn [self calls]. fold raw.
    rewrite Hreshape. cbn [self calls]. rewrite Hxy.
    cbn [self calls negb Np.shape Np.data]. fold cube. unfold shifted in centred. fold centred.
    destruct ro; cbn [negb self calls]; rewrite <- ?app_assoc; reflexivity.
  - unfold bind at 1. unfold ret at 1.
    unfold slow_psfs, fourier_imshift, bind, getattr, call, lift, ret. cbn [self calls].
    rewrite Hf. cbn [self calls]. rewrite Hsp. cbn [self calls]. rewrite Hio. change (Webbpsf.fov_pix io * Webbpsf.oversample io) with n.
    cbn [self calls]. fold raw. rewrite Hreshape. cbn [self calls]. rewrite Hxy.
    cbn [self calls negb Np.shape Np.data]. fold cube. unfold shifted in centred. fold centred.
    destruct ro; cbn [negb self calls app]; rewrite <- ?app_assoc; reflexivity.
Qed.

Lemma same_outcome_gen_psf_slow loc mode PA_V3 ro ds av nz sp_arg :
  same_outcome same_setup (gen_psf ext loc mode PA_V3 ro ds av nz false sp_arg).
Proof.
  unfold gen_psf, JWST_PSF.fov_pix, locate, rth_to_xy, rotate.
  outcome; try apply same_outcome_gen_psf_idl_slow.
Qed.

Lemma same_setup_shift_psfs shifts (w : World F) :
  same_setup (self (snd (_shift_psfs ext shifts w))) (self w).
Proof.
  unfold _shift_psfs, fourier_imshift, bind, getattr, setattr, call. destruct shifts as [dx dy].
  destruct (psf_on (self w)) as [on |]; cbn; [| repeat split].
  destruct (psf_off (self w)) as [off |]; cbn; repeat split.
Qed.

(** X11: _shift_psfs does not reach the computed PSFs.  With quick=False,
    gen_psf_idl and gen_psf return or raise after _shift_psfs, whether that
    returned or raised, what they return or raise before it. *)
Theorem computed_psfs_ignore_shift_psfs :
  forall (w : World F) shifts,
    (forall cv frame sp_arg ro ds,
        fst (gen_psf_idl ext cv frame false sp_arg ro ds (snd (_shift_psfs ext shifts w)))
        = fst (gen_psf_idl ext cv frame false sp_arg ro ds w)) /\
    (forall loc mode PA_V3 ro ds av nz sp_arg,
        fst (gen_psf ext loc mode PA_V3 ro ds av nz false sp_arg
               (snd (_shift_psfs ext shifts w)))
        = fst (gen_psf ext loc mode PA_V3 ro ds av nz false sp_arg w)).
Proof.
  intros w shifts. split; intros.
  - apply same_outcome_gen_psf_idl_slow, same_setup_shift_psfs.
  - apply same_outcome_gen_psf_slow, same_setup_shift_psfs.
Qed.

Lemma same_outcome_gen_psf_eq loc mode PA_V3 ro ds av nz quick sp_arg :
  same_outcome eq (gen_psf ext loc mode PA_V3 ro ds av nz quick sp_arg).
Proof.
  unfold gen_psf, JWST_PSF.fov_pix, locate, rth_to_xy, rotate.
  outcome; try apply same_outcome_gen_psf_idl_eq.
Qed.

(** X6: gen_psf in mode 'rth' returns or raises what it does in mode 'xy'
    at the pair that rtheta_to_xy gives for the radius and the angle
    th - PA_ap, where PA_ap is PA_V3 + V3IdlYAngle, or PA_V3 alone when
    addV3Yidl is False. *)
Theorem gen_psf_rth_is_gen_psf_xy_at_the_converted_position :
  forall (w : World F) io r th PA_V3 ro ds av nz quick sp_arg,
    inst_on (self w) = Some io ->
    let PA_ap := if av : bool then fadd PA_V3 (V3IdlYAngle (siaf_ap io)) else PA_V3 in
    let xy := rtheta_to_xy ext r (Np.map (fun t => fsub t PA_ap) th) in
    fst (gen_psf ext (r, th) "rth" PA_V3 ro ds av nz quick sp_arg w)
    = fst (gen_psf ext xy "xy" PA_V3 ro ds av nz quick sp_arg w).
Proof.
  intros w io r th PA_V3 ro ds av nz quick sp_arg Hio PA_ap xy.
  unfold gen_psf.
  rewrite !(bind_ok _ _ _ _ _ (getattr_ok _ _ _ _ Hio)).
  rewrite !(bind_ok _ _ _ _ _ (fov_pix_ok _ _ Hio)).
  cbn [locate String.eqb Ascii.eqb Bool.eqb fst snd].
  unfold bind at 1. unfold bind at 6. unfold ret at 5.
  assert (Hloc : rth_to_xy ext r th PA_V3 "idl" av w
                 = (inr xy, mk_world (self w)
                              (calls w ++ [ERthetaToXy r (Np.map (fun t => fsub t PA_ap) th)]))).
  { unfold rth_to_xy, bind, getattr, call, ret. subst xy PA_ap.
    destruct av; [rewrite Hio |]; cbn [self calls String.eqb Ascii.eqb Bool.eqb];
      destruct (rtheta_to_xy ext r _); reflexivity. }
  rewrite Hloc.
  match goal with
  | |- fst (?m ?w1) = fst (?m' ?w2) =>
      change m' with m; assert (Hsame : same_outcome eq m)
  end.
  { unfold rotate. outcome; try apply same_outcome_gen_psf_idl_eq. }
  now apply Hsame.
Qed.


Lemma skipn_cons_nth {A : Type} : forall (n : nat) (l : list A) x r,
  skipn n l = x :: r -> nth_error l n = Some x /\ skipn (S n) l = r.
Proof.
  induction n as [| n IH]; intros [| y l] x r Hs; cbn in *; try discriminate.
  - injection Hs as -> ->. now split.
  - now apply IH.
Qed.

Lemma shift_loop (dxs dys : list F) : forall (ims : list (Np.ndarray F)) (s : nat) (w : World F),
  List.length ims <= List.length (skipn s dxs) ->
  List.length ims <= List.length (skipn s dys) ->
  let todo := List.combine ims (List.combine (skipn s dxs) (skipn s dys)) in
  for_each (List.combine (List.seq s (List.length ims)) ims)
    (fun i_im =>
       bind (lift (Py.index dxs (fst i_im))) (fun dx =>
       bind (lift (Py.index dys (fst i_im))) (fun dy =>
       fourier_imshift ext (snd i_im) dx dy))) w
  = (inr (List.map (fun t => shifted ext (fst t) (fst (snd t)) (snd (snd t))) todo),
     mk_world (self w)
       (calls w ++ List.map (fun t => EFourierImshift (fst t) (fst (snd t)) (snd (snd t))) todo)).
Proof.
  induction ims as [| im ims IH]; intros s w Hx Hy todo.
  - cbn. unfold ret. rewrite app_nil_r. now destruct w.
  - subst todo. cbn [List.length] in Hx, Hy.
    destruct (skipn s dxs) as [| dx rx] eqn:Hsx; [cbn in Hx; lia |].
    destruct (skipn s dys) as [| dy ry] eqn:Hsy; [cbn in Hy; lia |].
    apply skipn_cons_nth in Hsx as [Hnx Hrx]. apply skipn_cons_nth in Hsy as [Hny Hry].
    cbn [List.length List.seq List.combine for_each List.map fst snd].
    unfold bind at 1. unfold bind at 1. unfold lift at 1. unfold Py.index at 1. rewrite Hnx.
    unfold bind at 1. unfold lift at 1. unfold Py.index at 1. rewrite Hny.
    unfold fourier_imshift at 1. unfold call at 1.
    unfold bind at 1. rewrite IH; [| rewrite Hrx; cbn in Hx; lia | rewrite Hry; cbn in Hy; lia].
    rewrite Hrx, Hry. unfold ret. cbn [self calls]. rewrite <- app_assoc. reflexivity.
Qed.

Lemma gen_psf_idl_shifted_run :
  forall (w w1 : World F) io cv frame quick psfs k,
    inst_on (self w) = Some io ->
    let n := side io in
    (if quick : bool then quick_psfs ext cv frame n n else slow_psfs ext cv frame None n n) w
    = (inr psfs, w1) ->
    Np.shape psfs = [k; n; n] ->
    let xy := if (frame =? "idl")%string then cv
              else siaf_convert ext (siaf_ap io) (fst cv) (snd cv) frame "idl" in
    let dxs := pixel_shifts (oversample io) (XSciScale (siaf_ap io)) (fst xy) in
    let dys := pixel_shifts (oversample io) (YSciScale (siaf_ap io)) (snd xy) in
    k <= List.length dxs ->
    k <= List.length dys ->
    let todo := with_shifts psfs dxs dys in
    gen_psf_idl ext cv frame quick None true true w
    = (inr (Np.squeeze
              (Np.stack (List.map (fun t => shifted ext (fst t) (fst (snd t)) (snd (snd t)))
                                  todo))),
       mk_world (self w)
         (calls w1 ++
            (if (frame =? "idl")%string then []
             else [EConvert (fst cv) (snd cv) frame "idl"]) ++
            List.map (fun t => EFourierImshift (fst t) (fst (snd t)) (snd (snd t))) todo)).
Proof.
  intros w w1 io cv frame quick psfs k Hio n Hpsfs Hshape xy dxs dys Hx Hy todo.
  assert (Hself : self w1 = self w).
  { destruct quick.
    - apply (reads_only_inr _ _ _ _ (reads_only_quick_psfs ext _ _ _ _) Hpsfs).
    - apply (reads_only_inr _ _ _ _ (reads_only_slow_psfs ext _ _ _ _ _) Hpsfs). }
  unfold gen_psf_idl.
  rewrite (bind_ok _ _ _ _ _ (getattr_ok _ _ _ _ Hio)).
  rewrite (bind_ok _ _ _ _ _ (fov_pix_ok _ _ Hio)).
  unfold bind at 1. unfold ret at 1.
  change (Webbpsf.fov_pix io * Webbpsf.oversample io) with n.
  rewrite (bind_ok _ _ _ _ _ Hpsfs).
  cbn [negb]. unfold shift_psfs.
  assert (Hframes : Np.frames psfs
                    = inr (List.map (Np.mk_nd [n; n])
                             (Np.chunks (Np.prod [n; n]) k (Np.data psfs)))).
  { unfold Np.frames. now rewrite Hshape. }
  set (ims := List.map (Np.mk_nd [n; n]) (Np.chunks (Np.prod [n; n]) k (Np.data psfs)))
    in Hframes.
  assert (Hlen : List.length ims = k).
  { subst ims. now rewrite length_map, chunks_length. }
  assert (Htodo : todo = List.combine ims (List.combine (skipn 0 dxs) (skipn 0 dys))).
  { subst todo. unfold with_shifts. now rewrite Hframes. }
  pose proof (shift_loop dxs dys ims 0) as Hloop. cbv zeta in Hloop.
  rewrite <- Htodo in Hloop.
  unfold Py.enumerate.
  destruct (String.eqb_spec frame "idl") as [-> | Hne].
  - unfold bind at 1. unfold bind at 1. unfold ret at 1.
    subst xy. destruct cv as [cx cy]. cbn [fst snd] in *.
    unfold bind at 1. unfold lift at 1. rewrite Hframes.
    unfold bind at 1.
    unfold pixel_shifts in dxs, dys. unfold Np.ravel, Np.map. cbn [Np.data].
    fold dxs dys. rewrite Hloop by (cbn [skipn]; lia).
    unfold ret, bind. cbn [self calls app]. now rewrite Hself.
  - unfold bind at 1. unfold bind at 1. unfold call at 1.
    subst xy. destruct (siaf_convert ext (siaf_ap io) (fst cv) (snd cv) frame "idl")
      as [xidl yidl] eqn:Hconv. cbn [fst snd] in *.
    unfold bind at 1. unfold lift at 1. rewrite Hframes.
    unfold bind at 1.
    unfold pixel_shifts in dxs, dys. unfold Np.ravel, Np.map. cbn [Np.data].
    fold dxs dys. rewrite Hloop by (cbn [skipn]; lia).
    unfold ret, bind. cbn [self calls app]. rewrite Hself, <- app_assoc. reflexivity.
Qed.


(** X9: with do_shift=True, return_oversample=True and no spectrum,
    gen_psf_idl moves frame i of the stack, blended or computed, by
    (oversample * x_i / XSciScale, oversample * y_i / YSciScale) pixels,
    (x_i, y_i) being the i-th position in the 'idl' frame: the position
    given, or for another coord_frame what siaf_ap.convert returns for it.
    The frames are moved in order, one call each, and stacked again. *)
Theorem shift_moves_each_frame_by_its_pixel_offset :
  forall (w w1 : World F) io cv frame quick psfs k,
    inst_on (self w) = Some io ->
    let n := side io in
    (if quick : bool then quick_psfs ext cv frame n n else slow_psfs ext cv frame None n n) w
    = (inr psfs, w1) ->
    Np.shape psfs = [k; n; n] ->
    let xy := if (frame =? "idl")%string then cv
              else siaf_convert ext (siaf_ap io) (fst cv) (snd cv) frame "idl" in
    let dxs := pixel_shifts (oversample io) (XSciScale (siaf_ap io)) (fst xy) in
    let dys := pixel_shifts (oversample io) (YSciScale (siaf_ap io)) (snd xy) in
    k <= List.length dxs ->
    k <= List.length dys ->
    let todo := with_shifts psfs dxs dys in
    gen_psf_idl ext cv frame quick None true true w
    = (inr (Np.squeeze
              (Np.stack (List.map (fun t => shifted ext (fst t) (fst (snd t)) (snd (snd t)))
                                  todo))),
       mk_world (self w)
         (calls w1 ++
            (if (frame =? "idl")%string then []
             else [EConvert (fst cv) (snd cv) frame "idl"]) ++
            List.map (fun t => EFourierImshift (fst t) (fst (snd t)) (snd (snd t))) todo)).
Proof. intros. now apply gen_psf_idl_shifted_run with (k := k). Qed.

Lemma length_pixel_shifts osamp (scale : F) (a : Np.ndarray F) :
  List.length (pixel_shifts osamp scale a) = List.length (Np.data a).
Proof. unfold pixel_shifts. now rewrite length_map. Qed.

Lemma quick_gen_psf_idl_returns (w : World F) io off on_at cv ds :
  ready ext w io off on_at ->
  positions cv ->
  (is_bar io = true -> Np.size (fst cv) = 1) ->
  exists psf w1, gen_psf_idl ext cv "idl" true None true ds w = (inr psf, w1).
Proof.
  intros Hr Hpos Hbar.
  pose proof (quick_psfs_spec ext w io off on_at cv "idl" Hr Hpos Hbar) as Hq.
  pose proof (ready_inst _ _ _ _ _ Hr) as Hio.
  destruct ds.
  - do 2 eexists.
    apply (gen_psf_idl_shifted_run w _ io cv "idl" true _ (Np.size (fst cv)) Hio Hq).
    + reflexivity.
    + cbn [String.eqb Ascii.eqb Bool.eqb]. rewrite length_pixel_shifts.
      destruct Hpos as (_ & Hx & _). now rewrite Hx.
    + cbn [String.eqb Ascii.eqb Bool.eqb]. rewrite length_pixel_shifts.
      destruct Hpos as (_ & _ & Hy). now rewrite Hy.
  - do 2 eexists. apply (gen_psf_idl_quick_oversampled ext _ _ _ _ _ _ Hio Hq).
Qed.

(** X22: on a ready engine gen_psf in quick mode and mode 'xy' returns a
    PSF for every well-formed batch of positions when the mask is not a
    bar, and for every single position when it is, whatever PA_V3,
    do_shift, return_oversample and normalize. *)
Theorem quick_gen_psf_returns :
  forall (w : World F) io off on_at loc PA_V3 ro ds av nz,
    ready ext w io off on_at ->
    positions loc ->
    (is_bar io = true -> Np.size (fst loc) = 1) ->
    0 < side io ->
    exists psf, fst (gen_psf ext loc "xy" PA_V3 ro ds av nz true None w) = inr psf.
Proof.
  intros w io off on_at loc PA_V3 ro ds av nz Hr Hpos Hbar Hside.
  pose proof (ready_inst _ _ _ _ _ Hr) as Hio.
  destruct (quick_gen_psf_idl_returns w io off on_at loc ds Hr Hpos Hbar) as (psf & w1 & Hidl).
  unfold gen_psf.
  rewrite (bind_ok _ _ _ _ _ (getattr_ok _ _ _ _ Hio)).
  rewrite (bind_ok _ _ _ _ _ (fov_pix_ok _ _ Hio)).
  cbn [locate String.eqb Ascii.eqb Bool.eqb]. unfold bind at 1. unfold ret at 1.
  rewrite (bind_ok _ _ _ _ _ Hidl).
  destruct ds.
  - destruct (gen_psf_idl_shifted_size ext _ _ _ _ _ _ _ _ Hio Hidl) as [k Hk].
    change (Webbpsf.fov_pix io * Webbpsf.oversample io) with (side io).
    assert (Hnn : 0 < side io * side io) by nia.
    unfold bind at 1. unfold bind at 1. unfold lift at 1.
    rewrite (reshape_stack psf k (side io) (side io) Hnn Hk).
    unfold rotate, call, bind, ret. destruct ro, nz; cbn [negb fst]; eauto.
  - unfold call, bind, ret. destruct ro, nz; cbn [negb fst]; eauto.
Qed.

End Queries.

(** ** Moving the reference PSFs *)

Section Recentring.
Context {F : Type} `{Num F}.
Variable ext : Webbpsf.External F.
Import JWST_PSF Webbpsf.

Lemma calc_psf_off_shift_returns (w : World F) off xysub :
  psf_off (self w) = Some off ->
  List.length (Np.shape off) = 2 ->
  0 < xysub ->
  exists dx dy lc,
    _calc_psf_off_shift ext xysub w
    = (inr tt, mk_world (set_xy_off_to_cen (dx, dy) (self w)) (calls w ++ lc)).
Proof.
  intros Hoff Hrank Hpos.
  assert (Hsize : (xysub * (xysub * 1) =? 0) = false) by (apply Nat.eqb_neq; nia).
  destruct off as [sh d]. cbn in Hrank.
  destruct sh as [| a [| b [| ? ?]]]; try discriminate.
  unfold _calc_psf_off_shift, bind, getattr. rewrite Hoff.
  cbn [for_fold List.seq].
  unfold centroid_pass, pad_or_cut_to_size, fourier_imshift, JWST_PSF.max, bind, call, ret,
    setattr, raise, Np.size.
  cbn -[Nat.mul Nat.add Nat.eqb]. rewrite Hsize.
  cbn -[Nat.mul Nat.add Nat.eqb]. rewrite Hsize.
  cbn -[Nat.mul Nat.add Nat.eqb].
  rewrite <- !app_assoc. do 3 eexists. reflexivity.
Qed.

Lemma recenter_psfs_run (w w1 : World F) xysub on off dx dy :
  psf_on (self w) = Some on ->
  psf_off (self w) = Some off ->
  _calc_psf_off_shift ext xysub w = (inr tt, w1) ->
  _xy_off_to_cen (self w1) = Some (dx, dy) ->
  _recenter_psfs ext xysub w
  = (inr tt,
     mk_world
       (set_psf_off (shifted ext off dx dy)
          (set_psf_on (shifted ext on dx dy) (set_xy_off_to_cen (dx, dy) (self w))))
       (calls w1 ++ [EFourierImshift on dx dy; EFourierImshift off dx dy])).
Proof.
  intros Hon Hoff Hcalc Hxy.
  destruct (calc_psf_off_shift_inr ext _ _ _ _ Hcalc) as [xy Hself].
  assert (xy = (dx, dy)) as ->.
  { rewrite Hself in Hxy. cbn in Hxy. now injection Hxy. }
  assert (Hon1 : psf_on (self w1) = Some on) by (now rewrite Hself).
  assert (Hoff1 : psf_off (self w1) = Some off) by (now rewrite Hself).
  unfold _recenter_psfs. rewrite (bind_ok _ _ _ _ _ Hcalc).
  unfold bind, getattr, setattr, fourier_imshift, call. rewrite Hxy.
  cbn [self calls]. rewrite Hon1. cbn [self calls].
  change (psf_off (set_psf_on ?v (self w1))) with (psf_off (self w1)). rewrite Hoff1.
  unfold shifted. cbn [self calls]. rewrite Hself, <- app_assoc. reflexivity.
Qed.

Lemma recenter_psfs_returns (w : World F) xysub on off :
  psf_on (self w) = Some on ->
  psf_off (self w) = Some off ->
  List.length (Np.shape off) = 2 ->
  0 < xysub ->
  exists dx dy w1,
    _calc_psf_off_shift ext xysub w = (inr tt, w1) /\
    _xy_off_to_cen (self w1) = Some (dx, dy) /\
    _recenter_psfs ext xysub w
    = (inr tt,
       mk_world
         (set_psf_off (shifted ext off dx dy)
            (set_psf_on (shifted ext on dx dy) (set_xy_off_to_cen (dx, dy) (self w))))
         (calls w1 ++ [EFourierImshift on dx dy; EFourierImshift off dx dy])).
Proof.
  intros Hon Hoff Hrank Hpos.
  destruct (calc_psf_off_shift_returns w off xysub Hoff Hrank Hpos) as (dx & dy & lc & Hcalc).
  exists dx, dy, (mk_world (set_xy_off_to_cen (dx, dy) (self w)) (calls w ++ lc)).
  split; [exact Hcalc |]. split; [reflexivity |].
  now apply (recenter_psfs_run _ _ _ _ _ _ _ Hon Hoff Hcalc).
Qed.

(** X12: for a 2-D off-axis PSF and a positive window _recenter_psfs
    returns.  It runs _calc_psf_off_shift on the PSF as stored, and then
    moves psf_on and psf_off, in this order, by the one offset that this
    left in _xy_off_to_cen. *)
Theorem recenter_psfs_shifts_both_by_the_centroid_offset :
  forall (w : World F) xysub on off,
    psf_on (self w) = Some on ->
    psf_off (self w) = Some off ->
    List.length (Np.shape off) = 2 ->
    0 < xysub ->
    exists dx dy w1,
      _calc_psf_off_shift ext xysub w = (inr tt, w1) /\
      _xy_off_to_cen (self w1) = Some (dx, dy) /\
      _recenter_psfs ext xysub w
      = (inr tt,
         mk_world
           (set_psf_off (shifted ext off dx dy)
              (set_psf_on (shifted ext on dx dy) (set_xy_off_to_cen (dx, dy) (self w))))
           (calls w1 ++ [EFourierImshift on dx dy; EFourierImshift off dx dy])).
Proof. intros. now apply recenter_psfs_returns. Qed.

(** X13: two calls of _shift_psfs move both reference PSFs twice, and
    leave in xoff and yoff the second shift only, not the sum. *)
Theorem shift_psfs_accumulates_in_the_psfs_only :
  forall (w : World F) on off dx1 dy1 dx2 dy2,
    psf_on (self w) = Some on ->
    psf_off (self w) = Some off ->
    let on1 := shifted ext on dx1 dy1 in
    let off1 := shifted ext off dx1 dy1 in
    bind (_shift_psfs ext (dx1, dy1)) (fun _ => _shift_psfs ext (dx2, dy2)) w
    = (inr tt,
       mk_world
         (set_yoff dy2
            (set_xoff dx2
               (set_psf_off (shifted ext off1 dx2 dy2)
                  (set_psf_on (shifted ext on1 dx2 dy2) (self w)))))
         (calls w ++
            [EFourierImshift on dx1 dy1; EFourierImshift off dx1 dy1;
             EFourierImshift on1 dx2 dy2; EFourierImshift off1 dx2 dy2])).
Proof.
  intros w on off dx1 dy1 dx2 dy2 Hon Hoff on1 off1.
  unfold _shift_psfs, bind, getattr, setattr, fourier_imshift, call.
  rewrite Hon. cbn [self calls psf_on psf_off set_psf_on]. rewrite Hoff.
  cbn [self calls psf_on psf_off set_psf_on set_psf_off set_xoff set_yoff].
  unfold shifted in *. subst on1 off1. rewrite <- !app_assoc. reflexivity.
Qed.

Lemma shift_psfs_run (w : World F) on off dx dy :
  psf_on (self w) = Some on ->
  psf_off (self w) = Some off ->
  _shift_psfs ext (dx, dy) w
  = (inr tt,
     mk_world
       (set_yoff dy
          (set_xoff dx
             (set_psf_off (shifted ext off dx dy) (set_psf_on (shifted ext on dx dy) (self w)))))
       (calls w ++ [EFourierImshift on dx dy; EFourierImshift off dx dy])).
Proof.
  intros Hon Hoff.
  unfold _shift_psfs, bind, getattr, setattr, fourier_imshift, call.
  rewrite Hon. cbn [self calls psf_on psf_off set_psf_on]. rewrite Hoff.
  cbn [self calls]. unfold shifted. rewrite <- !app_assoc. reflexivity.
Qed.

Lemma shift_psfs_ready (w : World F) io off on_at dx dy :
  well_behaved ext ->
  ready ext w io off on_at ->
  exists on_at',
    fst (_shift_psfs ext (dx, dy) w) = inr tt /\
    ready ext (snd (_shift_psfs ext (dx, dy) w)) io (shifted ext off dx dy) on_at' /\
    xoff (self (snd (_shift_psfs ext (dx, dy) w))) = Some dx /\
    yoff (self (snd (_shift_psfs ext (dx, dy) w))) = Some dy /\
    _xy_off_to_cen (self (snd (_shift_psfs ext (dx, dy) w))) = _xy_off_to_cen (self w).
Proof.
  intros Hwb [Hio Hmask [Hoff Himg] Hon].
  destruct (is_bar io) eqn:Hbar.
  - destruct Hon as (xvals & arr & k & Hx & Harr & Hshape & Hat).
    exists (interp_at ext xvals (shifted ext arr dx dy)).
    rewrite (shift_psfs_run w arr off dx dy Harr Hoff). split; [reflexivity |].
    split; [| repeat split; reflexivity].
    split; cbn [self calls snd].
    + exact Hio.
    + exact Hmask.
    + split; [reflexivity | now apply image_shifted].
    + rewrite Hbar. exists xvals, (shifted ext arr dx dy), k.
      split; [exact Hx |]. split; [reflexivity |]. split; [exact Hshape |].
      intros x. split; [reflexivity |].
      rewrite (interp_length Hwb). cbn [shifted Np.shape]. rewrite Hshape. cbn. lia.
  - destruct Hon as (on & Hon & Himg_on & Hat).
    exists (fun _ => Np.data (shifted ext on dx dy)).
    rewrite (shift_psfs_run w on off dx dy Hon Hoff). split; [reflexivity |].
    split; [| repeat split; reflexivity].
    split; cbn [self calls snd].
    + exact Hio.
    + exact Hmask.
    + split; [reflexivity | now apply image_shifted].
    + rewrite Hbar. exists (shifted ext on dx dy).
      split; [reflexivity |]. split; [now apply image_shifted | reflexivity].
Qed.

(** X14: _shift_psfs keeps a ready engine ready: the same instrument and
    reference PSFs of the same side.  psf_off is the former one moved by
    the shift, xoff and yoff hold the shift, and _xy_off_to_cen is what it
    was. *)
Theorem shift_psfs_keeps_the_engine_ready :
  forall (w : World F) io off on_at dx dy,
    well_behaved ext ->
    ready ext w io off on_at ->
    exists w' on_at',
      _shift_psfs ext (dx, dy) w = (inr tt, w') /\
      ready ext w' io (shifted ext off dx dy) on_at' /\
      xoff (self w') = Some dx /\ yoff (self w') = Some dy /\
      _xy_off_to_cen (self w') = _xy_off_to_cen (self w).
Proof.
  intros w io off on_at dx dy Hwb Hr.
  destruct (shift_psfs_ready w io off on_at dx dy Hwb Hr) as (on_at' & Hrun & Hfacts).
  exists (snd (_shift_psfs ext (dx, dy) w)), on_at'. split; [| exact Hfacts].
  destruct (_shift_psfs ext (dx, dy) w) as [r w']. cbn [fst snd] in *. now subst r.
Qed.

(** X15: after _shift_psfs(dx, dy) the quick PSF of a position of full
    transmission is the off-axis reference moved by (dx, dy). *)
Theorem quick_psfs_follow_shift_psfs `{!Exact F} :
  forall (w : World F) io off on_at dx dy x y frame cx cy,
    well_behaved ext ->
    ready ext w io off on_at ->
    transmission_at ext io frame x y = (fone, cx, cy) ->
    fst (_shift_psfs ext (dx, dy) w) = inr tt /\
    fst (gen_psf_idl ext (Np.scalar x, Np.scalar y) frame true None true false
           (snd (_shift_psfs ext (dx, dy) w)))
    = inr (Np.squeeze (shifted ext off dx dy)).
Proof.
  intros w io off on_at dx dy x y frame cx cy Hwb Hr Ht.
  destruct (shift_psfs_ready w io off on_at dx dy Hwb Hr) as (on_at' & Hrun & Hr' & _).
  split; [exact Hrun |].
  rewrite (gen_psf_idl_single ext _ _ _ _ x y frame Hr'). rewrite Ht. cbn [fst snd].
  pose proof (ready_on_length ext _ _ _ _ Hr' cx) as Hlen.
  destruct Hr' as [_ _ (_ & Hs & Hd) _].
  rewrite blend_frame_full by (rewrite Hlen, Hd; lia).
  f_equal. unfold Np.squeeze. rewrite <- Hs. reflexivity.
Qed.

End Recentring.

(** ** What construction computes and keeps *)

Section Configuration.
Context {F : Type} `{Num F}.
Variable ext : Webbpsf.External F.
Import JWST_PSF Webbpsf.

Lemma call_run {A : Type} (ev : event F) (v : A) w a w' :
  call ev v w = (inr a, w') -> a = v /\ w' = mk_world (self w) (calls w ++ [ev]).
Proof. unfold call. now intros [= <- <-]. Qed.

Lemma call_result_run {A : Type} (ev : event F) (r : pyerr + A) w a w' :
  call_result ev r w = (inr a, w') -> r = inr a /\ w' = mk_world (self w) (calls w ++ [ev]).
Proof. unfold call_result. now intros [= -> <-]. Qed.

Lemma emits_recenter_psfs xysub :
  emits (fun ev => negb (is_calc ev)) (_recenter_psfs ext xysub).
Proof.
  unfold _recenter_psfs, _calc_psf_off_shift, centroid_pass, pad_or_cut_to_size,
    JWST_PSF.max, fourier_imshift.
  apply emits_bind.
  - apply emits_bind; [apply emits_getattr | intros off].
    apply emits_bind; [now apply emits_call | intros tmpl].
    apply emits_bind; [| intros v; apply emits_setattr].
    apply emits_for_fold. intros v ii.
    apply emits_bind; [now apply emits_call | intros crop].
    apply emits_bind.
    { destruct (Np.size crop =? 0); [apply emits_raise | apply emits_ret]. }
    intros amp. apply emits_bind; [now apply emits_call | intros pfit].
    apply emits_bind; [now apply emits_call | intros t]. apply emits_ret.
  - intros _. apply emits_bind; [apply emits_getattr | intros [dx dy]].
    apply emits_bind; [apply emits_getattr | intros on].
    apply emits_bind; [now apply emits_call | intros on'].
    apply emits_bind; [apply emits_setattr | intros _].
    apply emits_bind; [apply emits_getattr | intros off].
    apply emits_bind; [now apply emits_call | intros off']. apply emits_setattr.
Qed.

Lemma recenter_psfs_world xysub w u w' :
  _recenter_psfs ext xysub w = (inr u, w') ->
  exists on off dx dy lrec,
    psf_on (self w) = Some on /\ psf_off (self w) = Some off /\
    forallb (fun ev => negb (is_calc ev)) lrec = true /\
    w' = mk_world
           (set_psf_off (shifted ext off dx dy)
              (set_psf_on (shifted ext on dx dy) (set_xy_off_to_cen (dx, dy) (self w))))
           (calls w ++ lrec).
Proof.
  intros Hrun.
  destruct (recenter_psfs_inr ext _ _ _ _ Hrun) as (on & off & dx & dy & Hon & Hoff & Hself).
  destruct (emits_recenter_psfs xysub w) as (lrec & Hcalls & Hkind).
  rewrite Hrun in Hcalls. cbn [snd] in Hcalls.
  exists on, off, dx, dy, lrec. repeat split; try assumption.
  destruct w' as [e' l']. cbn [self calls] in *. now subst.
Qed.


Lemma construct_inr inst filt image_mask fov os sp_arg uc date e l :
  construct ext inst filt image_mask fov os sp_arg uc date = (inr e, l) ->
  exists k m c sp' dx dy lsp lrec,
    let pm := Some (if Ascii.eqb c "R" then "CIRCLYOT"
                    else if Ascii.eqb c "B" then "WEDGELYOT"
                    else if Py.contains "FQPM" m then "MASKFQPM" else "MASKLYOT") in
    let built im wfe :=
      mk_inst k filt im pm fov os (inst_siaf ext k filt im) (inst_bandpass ext k filt im pm)
              date (if uc then None else Some "gaussian") (Some fzero) uc wfe in
    let io := built (Some m) uc in
    let ioff := built None false in
    let f := if uc then calc_psf_from_coeff else calc_psf in
    let along_bar :=
      List.map (fun xv => (Some (Np.scalar xv, Np.scalar fzero), Some "idl")) bar_xvals in
    let on_raw :=
      if Ascii.eqb c "B"
      then Np.stack (List.map (fun a => calc ext f io sp' (fst a) (snd a)) along_bar)
      else calc ext f io sp' None None in
    let off_raw := calc ext f ioff sp' None None in
    recognised inst = Some k /\
    image_mask = Some m /\ Py.last_char m = Some c /\
    inst_accepts ext k filt (Some m) pm = true /\
    inst_accepts ext k filt None pm = true /\
    renormalised ext sp_arg (Webbpsf.bandpass io) = Some sp' /\
    (sp_arg = None -> lsp = []) /\
    forallb (fun ev => negb (is_calc ev)) lsp = true /\
    forallb (fun ev => negb (is_calc ev)) lrec = true /\
    e = mk_engine (Some k) (if Ascii.eqb c "B" then Some bar_xvals else None)
          (Some (shifted ext on_raw dx dy)) (Some (shifted ext off_raw dx dy))
          (Some (dx, dy)) (Some io) (Some ioff) (Some uc) (Some f) (Some f) (Some sp')
          None None /\
    l = [EInstExt k filt (Some m) pm fov os; EInstExt k filt None pm fov os] ++
        match date with Some d => [ELoadWssOpd d; ELoadWssOpd d] | None => [] end ++
        (if uc then [EGenPsfCoeff; EGenPsfCoeff; EGenWfemaskCoeff] else []) ++
        lsp ++
        (if Ascii.eqb c "B"
         then List.map (fun a => ECalc f io sp' (fst a) (snd a)) along_bar
         else [ECalc f io sp' None None]) ++
        [ECalc f ioff sp' None None] ++ lrec.
Proof.
  intros Hc.
  destruct image_mask as [m |].
  2:{ destruct (init_without_mask_fails ext inst filt fov os sp_arg uc date) as [e' He'].
      rewrite Hc in He'. discriminate. }
  destruct (recognised inst) as [k |] eqn:Hk.
  2:{ rewrite (init_unrecognised_instrument ext _ _ _ _ _ _ _ _ Hk) in Hc. discriminate. }
  unfold construct in Hc.
  destruct (__init__ _ _ _ _ _ _ _ _ _ _) as [[err | u] w] eqn:Hrun; [discriminate |].
  injection Hc as <- <-. unfold __init__ in Hrun.
  apply bind_inr in Hrun as (u1 & w1 & H1 & Hrun).
  assert (Hw1 : w1 = mk_world (set_inst_ext k new_object) []).
  { unfold recognised in Hk.
    destruct (Py.upper inst =? "NIRCAM")%string.
    - injection Hk as <-. now apply setattr_inr in H1.
    - destruct (Py.upper inst =? "MIRI")%string; [| discriminate].
      injection Hk as <-. now apply setattr_inr in H1. }
  subst w1. clear H1.
  apply bind_inr in Hrun as (pm & w2 & Hpm & Hrun).
  unfold choose_pupil_mask in Hpm.
  apply bind_inr in Hpm as (c & w2' & Hc & Hpm).
  apply lift_inr in Hc as [Hc ->]. unfold Py.subscript_last in Hc.
  destruct (Py.last_char m) as [c' |] eqn:Hlast; [| discriminate]. injection Hc as ->.
  assert (Hpm' : pm = Some (if Ascii.eqb c "R" then "CIRCLYOT"
                           else if Ascii.eqb c "B" then "WEDGELYOT"
                           else if Py.contains "FQPM" m then "MASKFQPM" else "MASKLYOT")
                 /\ w2 = mk_world (set_inst_ext k new_object) []).
  { destruct (Ascii.eqb c "R"); [now injection Hpm as <- <- |].
    destruct (Ascii.eqb c "B"); [now injection Hpm as <- <- |].
    unfold ret in Hpm. injection Hpm as <- <-. split; [| reflexivity].
    now destruct (Py.contains "FQPM" m). }
  destruct Hpm' as [-> ->]. clear Hpm.
  set (pm := Some (if Ascii.eqb c "R" then _ else _)) in *.
  apply bind_inr in Hrun as (k1 & w3 & Hk1 & Hrun).
  apply getattr_inr in Hk1 as [Hk1 ->]. cbn in Hk1. injection Hk1 as <-.
  apply bind_inr in Hrun as (io_on & w4 & Hon & Hrun).
  unfold new_inst in Hon. apply call_result_run in Hon as [Hon ->].
  destruct (inst_accepts ext k filt (Some m) pm) eqn:Hacc_on; [| discriminate].
  injection Hon as <-.
  apply bind_inr in Hrun as (k2 & w5 & Hk2 & Hrun).
  apply getattr_inr in Hk2 as [Hk2 ->]. cbn in Hk2. injection Hk2 as <-.
  apply bind_inr in Hrun as (io_off & w6 & Hoff & Hrun).
  unfold new_inst in Hoff. apply call_result_run in Hoff as [Hoff ->].
  destruct (inst_accepts ext k filt None pm) eqn:Hacc_off; [| discriminate].
  injection Hoff as <-. cbn [self calls app] in Hrun.
  apply bind_inr in Hrun as ([on7 off7] & w7 & Hinsts & Hrun).
  assert (H7 : on7 = mk_inst k filt (Some m) pm fov os (inst_siaf ext k filt (Some m))
                       (inst_bandpass ext k filt (Some m) pm) date None None false false /\
               off7 = mk_inst k filt None pm fov os (inst_siaf ext k filt None)
                        (inst_bandpass ext k filt None pm) date None None false false /\
               w7 = mk_world (set_inst_ext k new_object)
                      ([EInstExt k filt (Some m) pm fov os; EInstExt k filt None pm fov os] ++
                       match date with Some d => [ELoadWssOpd d; ELoadWssOpd d] | None => [] end)).
  { destruct date as [d |].
    - unfold bind, call, ret in Hinsts. cbn in Hinsts. injection Hinsts as <- <- <-.
      repeat split.
    - unfold ret in Hinsts. injection Hinsts as <- <- <-. repeat split. }
  destruct H7 as (-> & -> & ->). clear Hinsts.
  apply bind_inr in Hrun as ([[[on8 off8] func_on] func_off] & w8 & Hcfg & Hrun).
  set (built := fun im wfe =>
         mk_inst k filt im pm fov os (inst_siaf ext k filt im) (inst_bandpass ext k filt im pm)
                 date (if uc then None else Some "gaussian") (Some fzero) uc wfe).
  set (f := if uc then calc_psf_from_coeff else calc_psf).
  assert (H8 : on8 = built (Some m) uc /\ off8 = built None false /\
               func_on = f /\ func_off = f /\
               w8 = mk_world (set_inst_ext k new_object)
                      (([EInstExt k filt (Some m) pm fov os; EInstExt k filt None pm fov os] ++
                        match date with Some d => [ELoadWssOpd d; ELoadWssOpd d] | None => [] end)
                       ++ (if uc then [EGenPsfCoeff; EGenPsfCoeff; EGenWfemaskCoeff] else []))).
  { subst built f. destruct uc.
    - unfold bind, call, ret in Hcfg. cbn [self calls] in Hcfg.
      injection Hcfg as <- <- <- <- <-. rewrite <- !app_assoc. repeat split.
    - unfold ret in Hcfg. injection Hcfg as <- <- <- <- <-. rewrite app_nil_r. repeat split. }
  destruct H8 as (-> & -> & -> & -> & ->). clear Hcfg.
  set (io := built (Some m) uc) in *. set (ioff := built None false) in *.
  set (l8 := (_ ++ _) ++ _) in Hrun.
  apply bind_inr in Hrun as (sp' & w9 & Hsp & Hrun).
  assert (H9 : renormalised ext sp_arg (Webbpsf.bandpass io) = Some sp' /\
               exists lsp, (sp_arg = None -> lsp = []) /\
                           forallb (fun ev => negb (is_calc ev)) lsp = true /\
                           w9 = mk_world (set_inst_ext k new_object) (l8 ++ lsp)).
  { unfold renormalised. destruct sp_arg as [s |].
    - apply bind_inr in Hsp as (s' & w9' & Hs & Hret). unfold ret in Hret.
      injection Hret as <- <-. unfold try_except, renorm, call_result, bind in Hs.
      cbn [self calls] in Hs.
      destruct (sp_renorm ext s (Webbpsf.bandpass io)) as [s1 |].
      + injection Hs as <- <-. split; [reflexivity |]. exists [ERenorm s].
        repeat split. discriminate.
      + destruct (array_spectrum ext s) as [s2 |]; cbv beta iota in Hs; [| discriminate].
        destruct (sp_renorm ext s2 (Webbpsf.bandpass io)) as [s3 |]; [| discriminate].
        injection Hs as <- <-. split; [reflexivity |].
        exists [ERenorm s; EArraySpectrum s; ERenorm s2].
        split; [discriminate |]. split; [reflexivity |].
        f_equal. subst l8. now rewrite <- !app_assoc.
    - unfold ret in Hsp. injection Hsp as <- <-. split; [reflexivity |].
      exists []. rewrite app_nil_r. repeat split. }
  destruct H9 as (Hren & lsp & Hnone & Hlsp & ->). clear Hsp.
  apply bind_inr in Hrun as (c0 & w10 & Hc0 & Hrun).
  apply lift_inr in Hc0 as [Hc0 ->]. unfold Py.subscript_last in Hc0. rewrite Hlast in Hc0.
  injection Hc0 as <-.
  apply bind_inr in Hrun as (u11 & w11 & Hpsf_on & Hrun).
  set (along_bar := List.map (fun xv : F => (Some (Np.scalar xv, Np.scalar fzero), Some "idl"))
                      bar_xvals).
  set (on_raw := if Ascii.eqb c "B"
                 then Np.stack (List.map (fun a => calc ext f io sp' (fst a) (snd a)) along_bar)
                 else calc ext f io sp' None None).
  assert (H11 : w11 = mk_world
                        (set_psf_on on_raw
                           (if Ascii.eqb c "B"
                            then set_psf_bar_xvals bar_xvals (set_inst_ext k new_object)
                            else set_inst_ext k new_object))
                        ((l8 ++ lsp) ++
                         (if Ascii.eqb c "B"
                          then List.map (fun a => ECalc f io sp' (fst a) (snd a)) along_bar
                          else [ECalc f io sp' None None]))).
  { subst on_raw. destruct (Ascii.eqb c "B").
    - apply bind_inr in Hpsf_on as (? & wa & Ha & Hpsf_on). apply setattr_inr in Ha as ->.
      apply bind_inr in Hpsf_on as (arr & wb & Hb & Hpsf_on).
      rewrite for_each_call in Hb. injection Hb as <- <-.
      apply setattr_inr in Hpsf_on as ->. cbn [self calls].
      subst along_bar. rewrite !map_map. reflexivity.
    - apply bind_inr in Hpsf_on as (psf & wa & Ha & Hpsf_on).
      apply call_run in Ha as [-> ->]. now apply setattr_inr in Hpsf_on as ->. }
  subst w11. clear Hpsf_on.
  apply bind_inr in Hrun as (off & w12 & Hcalc_off & Hrun).
  apply call_run in Hcalc_off as [-> ->]. cbn [self calls] in Hrun.
  apply bind_inr in Hrun as (u13 & w13 & Hset_off & Hrun).
  apply setattr_inr in Hset_off as ->. cbn [self calls] in Hrun.
  apply bind_inr in Hrun as (u14 & w14 & Hrec & Hrun).
  apply recenter_psfs_world in Hrec as (on & off & dx & dy & lrec & Hon & Hoff & Hlrec & ->).
  cbn [self calls] in Hon, Hoff, Hrun.
  assert (on = on_raw) as -> by (destruct (Ascii.eqb c "B"); cbn in Hon; now injection Hon).
  assert (off = calc ext f ioff sp' None None) as ->
    by (destruct (Ascii.eqb c "B"); cbn in Hoff; now injection Hoff).
  apply bind_inr in Hrun as (? & w15 & H15 & Hrun). apply setattr_inr in H15 as ->.
  apply bind_inr in Hrun as (? & w16 & H16 & Hrun). apply setattr_inr in H16 as ->.
  apply bind_inr in Hrun as (? & w17 & H17 & Hrun). apply setattr_inr in H17 as ->.
  apply bind_inr in Hrun as (? & w18 & H18 & Hrun). apply setattr_inr in H18 as ->.
  apply bind_inr in Hrun as (? & w19 & H19 & Hrun). apply setattr_inr in H19 as ->.
  apply setattr_inr in Hrun as ->. cbn [self calls].
  exists k, m, c, sp', dx, dy, lsp, lrec. cbv zeta.
  fold pm. fold built. fold io. fold ioff. fold f. fold along_bar. fold on_raw.
  split; [reflexivity |]. split; [reflexivity |]. split; [exact Hlast |].
  split; [exact Hacc_on |]. split; [exact Hacc_off |]. split; [exact Hren |].
  split; [exact Hnone |]. split; [exact Hlsp |]. split; [exact Hlrec |].
  split.
  - destruct (Ascii.eqb c "B"); reflexivity.
  - subst l8. rewrite <- !app_assoc. reflexivity.
Qed.


Lemma filter_none {A : Type} (p : A -> bool) (l : list A) :
  forallb (fun a => negb (p a)) l = true -> List.filter p l = [].
Proof.
  induction l as [| a l IH]; cbn; [reflexivity |].
  destruct (p a); cbn; [discriminate | exact IH].
Qed.

Lemma filter_calc_map {A : Type} (g : A -> event F) (l : list A) :
  (forall a, is_calc (g a) = true) -> List.filter is_calc (List.map g l) = List.map g l.
Proof.
  intros Hg. induction l as [| a l IH]; cbn; [reflexivity |]. now rewrite Hg, IH.
Qed.

(** X17: an object that the constructor returns holds reference PSFs that
    were computed with the stored functions, instruments and spectrum: one
    on-axis PSF, or for a bar mask nine at x = -8, -6, ..., 8, y = 0 in the
    'idl' frame, followed by one off-axis PSF, and no other PSF
    calculation.  psf_on and psf_off are those results moved by the offset
    kept in _xy_off_to_cen. *)
Theorem construct_computes_the_reference_psfs :
  forall inst filt image_mask fov os sp_arg uc date e l,
    construct ext inst filt image_mask fov os sp_arg uc date = (inr e, l) ->
    exists io ioff f sp' dx dy,
      inst_on e = Some io /\ inst_off e = Some ioff /\
      _func_on e = Some f /\ _func_off e = Some f /\
      sp e = Some sp' /\ _xy_off_to_cen e = Some (dx, dy) /\
      let along_bar :=
        List.map (fun xv => (Some (Np.scalar xv, Np.scalar fzero), Some "idl")) bar_xvals in
      List.filter is_calc l
      = List.map (fun a => ECalc f io sp' (fst a) (snd a))
          (if is_bar io then along_bar else [(None, None)])
        ++ [ECalc f ioff sp' None None] /\
      psf_bar_xvals e = (if is_bar io then Some bar_xvals else None) /\
      psf_on e
      = Some (shifted ext
                (if is_bar io
                 then Np.stack (List.map (fun a => calc ext f io sp' (fst a) (snd a)) along_bar)
                 else calc ext f io sp' None None) dx dy) /\
      psf_off e = Some (shifted ext (calc ext f ioff sp' None None) dx dy).
Proof.
  intros inst filt image_mask fov os sp_arg uc date e l Hc.
  destruct (construct_inr _ _ _ _ _ _ _ _ _ _ Hc)
    as (k & m & c & sp' & dx & dy & lsp & lrec & Hfacts).
  cbv zeta in Hfacts.
  destruct Hfacts as (Hk & Hm & Hlast & _ & _ & _ & _ & Hlsp & Hlrec & -> & ->).
  eexists _, _, _, sp', dx, dy. cbn [inst_on inst_off _func_on _func_off sp _xy_off_to_cen
                                      psf_bar_xvals psf_on psf_off].
  repeat (split; [reflexivity |]).
  unfold is_bar. cbn [Webbpsf.image_mask]. rewrite Hlast.
  split; [| repeat split; reflexivity].
  rewrite !filter_app. rewrite (filter_none _ _ Hlsp), (filter_none _ _ Hlrec).
  assert (Hopd : List.filter is_calc
                   match date with
                   | Some d => [@ELoadWssOpd F d; ELoadWssOpd d]
                   | None => []
                   end = []) by now destruct date.
  assert (Hcoeff : List.filter is_calc
                     (if uc then [@EGenPsfCoeff F; EGenPsfCoeff; EGenWfemaskCoeff] else [])
                   = []) by now destruct uc.
  rewrite Hopd, Hcoeff. cbn [List.filter is_calc app]. rewrite ?app_nil_r.
  destruct (Ascii.eqb c "B"); [| reflexivity].
  now rewrite filter_calc_map.
Qed.

(** X18: the two instrument objects that the constructor keeps differ in
    the image mask (None off axis) and in the wavefront-mask coefficients
    (on axis only).  Both have the filter, the pupil mask, fov_pix and
    oversample asked for, the OPD of the date when one is given (with
    use_coeff too), jitter_sigma 0, jitter 'gaussian' exactly without
    coefficients, and PSF coefficients exactly with them.  xoff and yoff
    are not set. *)
Theorem construct_configures_both_instruments :
  forall inst filt image_mask fov os sp_arg uc date e l,
    construct ext inst filt image_mask fov os sp_arg uc date = (inr e, l) ->
    exists io ioff,
      inst_on e = Some io /\ inst_off e = Some ioff /\
      recognised inst = Some (kind io) /\ kind ioff = kind io /\
      Webbpsf.image_mask io = image_mask /\ Webbpsf.image_mask ioff = None /\
      Webbpsf.pupil_mask ioff = Webbpsf.pupil_mask io /\
      Webbpsf.filter io = filt /\ Webbpsf.filter ioff = filt /\
      Webbpsf.fov_pix io = fov /\ Webbpsf.fov_pix ioff = fov /\
      Webbpsf.oversample io = os /\ Webbpsf.oversample ioff = os /\
      opd_date io = date /\ opd_date ioff = date /\
      jitter_sigma io = Some fzero /\ jitter_sigma ioff = Some fzero /\
      jitter io = (if uc then None else Some "gaussian") /\ jitter ioff = jitter io /\
      psf_coeff io = uc /\ psf_coeff ioff = uc /\
      wfemask_coeff io = uc /\ wfemask_coeff ioff = false /\
      _func_on e = Some (if uc then calc_psf_from_coeff else calc_psf) /\
      _func_off e = _func_on e /\
      _use_coeff e = Some uc /\
      xoff e = None /\ yoff e = None.
Proof.
  intros inst filt image_mask fov os sp_arg uc date e l Hc.
  destruct (construct_inr _ _ _ _ _ _ _ _ _ _ Hc)
    as (k & m & c & sp' & dx & dy & lsp & lrec & Hfacts).
  cbv zeta in Hfacts.
  destruct Hfacts as (Hk & -> & Hlast & _ & _ & _ & _ & Hlsp & Hlrec & -> & ->).
  eexists _, _. cbn [inst_on inst_off _func_on _func_off _use_coeff xoff yoff].
  split; [reflexivity |]. split; [reflexivity |].
  cbn [kind Webbpsf.image_mask Webbpsf.pupil_mask Webbpsf.filter Webbpsf.fov_pix
       Webbpsf.oversample opd_date jitter_sigma jitter psf_coeff wfemask_coeff].
  split; [exact Hk |]. repeat split.
Qed.

(** X19: the spectrum that the constructor keeps is None when none is
    given; otherwise it is the given one renormalised on the bandpass of
    the on-axis instrument, or, when that renormalisation raises, the
    renormalised conversion of it by ArraySpectrum. *)
Theorem construct_keeps_the_renormalised_spectrum :
  forall inst filt image_mask fov os sp_arg uc date e l,
    construct ext inst filt image_mask fov os sp_arg uc date = (inr e, l) ->
    exists io,
      inst_on e = Some io /\
      match sp_arg with
      | None => sp e = Some None
      | Some s =>
          exists s',
            sp e = Some (Some s') /\
            (sp_renorm ext s (Webbpsf.bandpass io) = Some s' \/
             sp_renorm ext s (Webbpsf.bandpass io) = None /\
             exists s2, array_spectrum ext s = Some s2 /\
                        sp_renorm ext s2 (Webbpsf.bandpass io) = Some s')
      end.
Proof.
  intros inst filt image_mask fov os sp_arg uc date e l Hc.
  destruct (construct_inr _ _ _ _ _ _ _ _ _ _ Hc)
    as (k & m & c & sp' & dx & dy & lsp & lrec & Hfacts).
  cbv zeta in Hfacts.
  destruct Hfacts as (_ & _ & _ & _ & _ & Hren & _ & _ & _ & -> & _).
  eexists. cbn [inst_on sp]. split; [reflexivity |].
  unfold renormalised in Hren. destruct sp_arg as [s |].
  - destruct (sp_renorm ext s _) as [s1 |] eqn:Hs1.
    + injection Hren as <-. exists s1. split; [reflexivity | now left].
    + destruct (array_spectrum ext s) as [s2 |] eqn:Hs2; [| discriminate].
      destruct (sp_renorm ext s2 _) as [s3 |] eqn:Hs3; [| discriminate].
      injection Hren as <-. exists s3. split; [reflexivity |]. right.
      split; [reflexivity |]. now exists s2.
  - now injection Hren as <-.
Qed.

(** X20: on an object that the constructor returns the properties give
    back its arguments: fov_pix, oversample, filter, image_mask and
    use_coeff; pupil_mask is the Lyot stop chosen from the last character
    of the mask name, and bandpass is that of the on-axis instrument. *)
Theorem properties_return_the_constructor_arguments :
  forall inst filt image_mask fov os sp_arg uc date e l,
    construct ext inst filt image_mask fov os sp_arg uc date = (inr e, l) ->
    forall l', let w := mk_world e l' in
    JWST_PSF.fov_pix w = (inr fov, w) /\
    JWST_PSF.oversample w = (inr os, w) /\
    JWST_PSF.filter w = (inr filt, w) /\
    JWST_PSF.image_mask w = (inr image_mask, w) /\
    JWST_PSF.use_coeff w = (inr uc, w) /\
    exists k m c,
      recognised inst = Some k /\ image_mask = Some m /\ Py.last_char m = Some c /\
      let pm := Some (if Ascii.eqb c "R" then "CIRCLYOT"
                      else if Ascii.eqb c "B" then "WEDGELYOT"
                      else if Py.contains "FQPM" m then "MASKFQPM" else "MASKLYOT") in
      JWST_PSF.pupil_mask w = (inr pm, w) /\
      JWST_PSF.bandpass w = (inr (inst_bandpass ext k filt image_mask pm), w).
Proof.
  intros inst filt image_mask fov os sp_arg uc date e l Hc l' w.
  destruct (construct_inr _ _ _ _ _ _ _ _ _ _ Hc)
    as (k & m & c & sp' & dx & dy & lsp & lrec & Hfacts).
  cbv zeta in Hfacts.
  destruct Hfacts as (Hk & -> & Hlast & _ & _ & _ & _ & _ & _ & He & _).
  subst w. rewrite He.
  repeat (split; [reflexivity |]).
  exists k, m, c. repeat split; assumption.
Qed.

Lemma upper_ascii_idempotent (c : ascii) :
  Py.upper_ascii (Py.upper_ascii c) = Py.upper_ascii c.
Proof. destruct c as [[] [] [] [] [] [] [] []]; reflexivity. Qed.

Lemma upper_idempotent (s : string) : Py.upper (Py.upper s) = Py.upper s.
Proof.
  induction s as [| c s IH]; cbn [Py.upper]; [reflexivity |].
  now rewrite upper_ascii_idempotent, IH.
Qed.

(** X21: the constructor reads the instrument name in upper case: a name
    and its upper-case form (of ASCII text) give the same object, the same
    calls or the same exception. *)
Theorem construct_reads_the_instrument_name_in_upper_case :
  forall inst filt image_mask fov os sp_arg uc date,
    construct ext (Py.upper inst) filt image_mask fov os sp_arg uc date
    = construct ext inst filt image_mask fov os sp_arg uc date.
Proof.
  intros. unfold construct, __init__. now rewrite upper_idempotent.
Qed.


Lemma bind_returns {A B : Type} (m : M F A) (k : A -> M F B) (P : A -> World F -> Prop) w :
  (exists a w1, m w = (inr a, w1) /\ P a w1) ->
  (forall a w1, P a w1 -> exists b w2, k a w1 = (inr b, w2)) ->
  exists b w2, bind m k w = (inr b, w2).
Proof.
  intros (a & w1 & Hm & HP) Hk. unfold bind. rewrite Hm. now apply (Hk a w1).
Qed.

Lemma construct_returns inst filt m fov os sp_arg uc date k c :
  well_behaved ext ->
  recognised inst = Some k ->
  Py.last_char m = Some c ->
  let pm := Some (if Ascii.eqb c "R" then "CIRCLYOT"
                  else if Ascii.eqb c "B" then "WEDGELYOT"
                  else if Py.contains "FQPM" m then "MASKFQPM" else "MASKLYOT") in
  inst_accepts ext k filt (Some m) pm = true ->
  inst_accepts ext k filt None pm = true ->
  renormalised ext sp_arg (inst_bandpass ext k filt (Some m) pm) <> None ->
  exists e l, construct ext inst filt (Some m) fov os sp_arg uc date = (inr e, l).
Proof.
  intros Hwb Hk Hlast pm Hacc_on Hacc_off Hren.
  unfold construct.
  enough (exists u w', __init__ ext inst filt (Some m) fov os sp_arg uc date
                         (mk_world new_object []) = (inr u, w')) as (u & w' & ->) by eauto.
  unfold __init__.
  set (ready_for := fun w : World F => self w = set_inst_ext k new_object).
  apply bind_returns with (P := fun _ => ready_for).
  { unfold recognised in Hk. destruct (Py.upper inst =? "NIRCAM")%string.
    - injection Hk as <-. do 2 eexists. split; reflexivity.
    - destruct (Py.upper inst =? "MIRI")%string; [| discriminate].
      injection Hk as <-. do 2 eexists. split; reflexivity. }
  intros _ w1 Hw1.
  apply bind_returns with (P := fun p w => p = pm /\ ready_for w).
  { exists pm, w1. split; [| now split].
    unfold choose_pupil_mask, bind, lift, Py.subscript_last, ret. rewrite Hlast. subst pm.
    destruct (Ascii.eqb c "R"); [reflexivity |]. destruct (Ascii.eqb c "B"); reflexivity. }
  intros ? w2 [-> Hw2].
  apply bind_returns with (P := fun k' w => k' = k /\ ready_for w).
  { exists k, w2. split; [| now split]. apply getattr_ok. now rewrite Hw2. }
  intros ? w3 [-> Hw3].
  apply bind_returns
    with (P := fun io w => Webbpsf.bandpass io = inst_bandpass ext k filt (Some m) pm /\
                           ready_for w).
  { unfold new_inst, call_result. rewrite Hacc_on. do 2 eexists.
    split; [reflexivity |]. now split. }
  intros on4 w4 [Hbp4 Hw4].
  apply bind_returns with (P := fun k' w => k' = k /\ ready_for w).
  { exists k, w4. split; [| now split]. apply getattr_ok. now rewrite Hw4. }
  intros ? w5 [-> Hw5].
  apply bind_returns
    with (P := fun io w => Webbpsf.fov_pix io = fov /\ Webbpsf.oversample io = os /\
                           ready_for w).
  { unfold new_inst, call_result. rewrite Hacc_off. do 2 eexists.
    split; [reflexivity |]. now repeat split. }
  intros off6 w6 (Hfov6 & Hos6 & Hw6).
  apply bind_returns
    with (P := fun p w => Webbpsf.bandpass (fst p) = inst_bandpass ext k filt (Some m) pm /\
                          side (snd p) = fov * os /\ ready_for w).
  { destruct date as [d |].
    - unfold bind, call, ret. do 2 eexists. split; [reflexivity |]. cbn [fst snd self].
      unfold side. cbn. now rewrite Hfov6, Hos6.
    - unfold ret. do 2 eexists. split; [reflexivity |]. cbn [fst snd].
      unfold side. now rewrite Hfov6, Hos6. }
  intros [on7 off7] w7 (Hbp7 & Hside7 & Hw7). cbn [fst snd] in Hbp7, Hside7.
  apply bind_returns
    with (P := fun p w =>
                 Webbpsf.bandpass (fst (fst (fst p))) = inst_bandpass ext k filt (Some m) pm /\
                 side (snd (fst (fst p))) = fov * os /\ ready_for w).
  { destruct uc.
    - unfold bind, call, ret. do 2 eexists. split; [reflexivity |]. cbn [fst snd self].
      now repeat split.
    - unfold ret. do 2 eexists. split; [reflexivity |]. cbn [fst snd]. now repeat split. }
  intros [[[on8 off8] f_on] f_off] w8 (Hbp8 & Hside8 & Hw8). cbn [fst snd] in Hbp8, Hside8.
  apply bind_returns with (P := fun _ => ready_for).
  { rewrite Hbp8. unfold renormalised in Hren.
    destruct sp_arg as [s |]; [| unfold ret; eauto].
    unfold bind, try_except, renorm, call_result, ret.
    destruct (sp_renorm ext s _); [cbn [self]; eauto |].
    destruct (array_spectrum ext s) as [s2 |]; [| contradiction].
    cbv beta iota. destruct (sp_renorm ext s2 _); [cbn [self]; eauto | contradiction]. }
  intros sp' w9 Hw9.
  unfold bind at 1. unfold lift at 1. unfold Py.subscript_last. rewrite Hlast.
  apply bind_returns with (P := fun _ w => exists on, psf_on (self w) = Some on).
  { destruct (Ascii.eqb c "B").
    - unfold bind at 1. unfold setattr at 1. unfold bind at 1. rewrite for_each_call.
      unfold setattr. cbn [self calls]. do 2 eexists. split; [reflexivity |].
      cbn [self psf_on set_psf_on]. eauto.
    - unfold bind, call, setattr. cbn [self calls]. do 2 eexists.
      split; [reflexivity |]. cbn [self psf_on set_psf_on]. eauto. }
  intros _ w11 [on Hon].
  unfold bind at 1. unfold call at 1. unfold bind at 1. unfold setattr at 1.
  cbn [self calls].
  destruct (recenter_psfs_returns ext
              (mk_world (set_psf_off (calc ext f_off off8 sp' None None) (self w11))
                        (calls w11 ++ [ECalc f_off off8 sp' None None]))
              10 on (calc ext f_off off8 sp' None None))
    as (dx & dy & w13 & _ & _ & Hrec).
  { exact Hon. }
  { reflexivity. }
  { now rewrite (proj1 (calc_image Hwb f_off off8 sp')). }
  { lia. }
  unfold bind at 1. rewrite Hrec.
  unfold bind, setattr. cbn [self calls]. eauto.
Qed.


(** X16: when the PSFs that the collaborators compute are 2-D images, the
    constructor returns an object exactly when the instrument name is
    NIRCAM or MIRI in any case, the mask name is a non-empty string, the
    extension class accepts the configuration with and without the image
    mask, and the spectrum is None or can be renormalised, directly or
    after conversion. *)
Theorem construct_returns_exactly_when :
  forall inst filt image_mask fov os sp_arg uc date,
    well_behaved ext ->
    ((exists e l, construct ext inst filt image_mask fov os sp_arg uc date = (inr e, l)) <->
     (exists k m c,
         recognised inst = Some k /\ image_mask = Some m /\ Py.last_char m = Some c /\
         let pm := Some (if Ascii.eqb c "R" then "CIRCLYOT"
                         else if Ascii.eqb c "B" then "WEDGELYOT"
                         else if Py.contains "FQPM" m then "MASKFQPM" else "MASKLYOT") in
         inst_accepts ext k filt (Some m) pm = true /\
         inst_accepts ext k filt None pm = true /\
         renormalised ext sp_arg (inst_bandpass ext k filt (Some m) pm) <> None)).
Proof.
  intros inst filt image_mask fov os sp_arg uc date Hwb. split.
  - intros (e & l & Hc).
    destruct (construct_inr _ _ _ _ _ _ _ _ _ _ Hc)
      as (k & m & c & sp' & dx & dy & lsp & lrec & Hfacts).
    cbv zeta in Hfacts.
    destruct Hfacts as (Hk & Hm & Hlast & Hon & Hoff & Hren & _).
    exists k, m, c. cbv zeta. repeat split; try assumption.
    cbn [Webbpsf.bandpass] in Hren. now rewrite Hren.
  - intros (k & m & c & Hk & -> & Hlast & Hon & Hoff & Hren).
    now apply (construct_returns inst filt m fov os sp_arg uc date k c).
Qed.

End Configuration.

(** * Runs in the laboratory configuration *)

Section Runs.
Import Webbpsf JWST_PSF Lab.
Local Open Scope Qc_scope.

#[local] Instance Qc_exact : Exact Qc.
Proof.
  split; cbn; intros.
  - ring.
  - ring.
  - ring.
  - ring.
  - ring.
  - ring.
  - unfold Qcdiv. ring.
  - unfold Qcdiv. ring.
  - now apply Qcmult_inv_r.
Qed.

Lemma round_world_ready : ready lab_ext round_world round_inst (flat 2 quarter) (fun _ => dark).
Proof.
  split.
  - vm_compute. reflexivity.
  - exists "MASK335R", "R"%char. split; reflexivity.
  - split; [vm_compute; reflexivity | split; reflexivity].
  - change (is_bar round_inst) with false. cbv iota.
    exists (flat 2 (Q2Qc 0)). split; [vm_compute; reflexivity |].
    split; [split; reflexivity | reflexivity].
Qed.

Lemma bar_world_ready :
  ready lab_ext bar_world bar_inst (flat 2 quarter) (fun _ => dark).
Proof.
  split.
  - vm_compute. reflexivity.
  - exists "MASKLWB", "B"%char. split; reflexivity.
  - split; [vm_compute; reflexivity | split; reflexivity].
  - change (is_bar bar_inst) with true. cbv iota.
    exists bar_xvals, (Np.stack (List.repeat (flat 2 (Q2Qc 0)) 9)), 9.
    split; [vm_compute; reflexivity |].
    split; [vm_compute; reflexivity |].
    split; [reflexivity |]. intros x. split; reflexivity.
Qed.

Local Open Scope Qc_scope.


Lemma side_lab : (0 < side bar_inst)%nat.
Proof. unfold side. cbn. lia. Qed.

Lemma quick_psf_at_full_and_zero_transmission_witness :
  fst (gen_psf_idl lab_ext (at_ one zero) "idl" true None true false round_world)
  = inr (Np.squeeze (flat 2 quarter)) /\
  fst (gen_psf_idl lab_ext (at_ zero zero) "idl" true None true false round_world)
  = inr (Np.squeeze (Np.mk_nd [side round_inst; side round_inst] dark)).
Proof.
  split.
  - apply (proj1 (quick_psf_at_full_and_zero_transmission lab_ext round_world round_inst
                    (flat 2 quarter) (fun _ => dark) one zero "idl" one one zero
                    round_world_ready eq_refl)).
    reflexivity.
  - apply (proj2 (quick_psf_at_full_and_zero_transmission lab_ext round_world round_inst
                    (flat 2 quarter) (fun _ => dark) zero zero "idl" zero zero zero
                    round_world_ready eq_refl)).
    reflexivity.
Defined.

Lemma quick_batch_on_bar_mask_raises_witness :
  fst (gen_psf_idl lab_ext (batch [zero; one] [zero; zero]) "idl" true None false false
         bar_world)
  = inl (ValueError "cannot reshape array").
Proof.
  apply (quick_batch_on_bar_mask_raises lab_ext bar_world bar_inst (flat 2 quarter)
           (fun _ => dark)).
  - exact bar_world_ready.
  - apply positions_vector. reflexivity.
  - reflexivity.
  - vm_compute. discriminate.
  - exact side_lab.
Defined.

Lemma batch_on_bar_mask_raises_where_single_calls_return_witness :
  (exists psf, fst (gen_psf_idl lab_ext (at_ zero zero) "idl" true None true false bar_world)
               = inr psf) /\
  (exists psf, fst (gen_psf_idl lab_ext (at_ one zero) "idl" true None true false bar_world)
               = inr psf) /\
  fst (gen_psf_idl lab_ext (batch [zero; one] [zero; zero]) "idl" true None true false
         bar_world)
  = inl (ValueError "cannot reshape array").
Proof.
  destruct (batch_on_bar_mask_raises_where_single_calls_return lab_ext bar_world bar_inst
              (flat 2 quarter) (fun _ => dark) [zero; one] [zero; zero] "idl"
              bar_world_ready eq_refl side_lab eq_refl) as [Hsingle Hbatch].
  - vm_compute. discriminate.
  - split; [apply Hsingle | split; [apply Hsingle | exact Hbatch]].
Defined.

Lemma rth_to_xy_effective_angle_witness :
  fst (rth_to_xy lab_ext (Np.scalar one) (Np.scalar zero) zero "idl" true round_world)
  = inr (rtheta_to_xy lab_ext (Np.scalar one)
           (Np.map (fun t => fsub t (fadd zero (V3IdlYAngle (siaf_ap round_inst))))
                   (Np.scalar zero))).
Proof.
  pose proof (rth_to_xy_effective_angle lab_ext round_world round_inst (Np.scalar one)
                (Np.scalar zero) zero "idl" true) as Hthm.
  cbv zeta in Hthm. rewrite Hthm; [reflexivity | vm_compute; reflexivity].
Defined.

(** C6 as stated fails when addV3Yidl is False: with V3IdlYAngle = 1 the
    angle handed to rtheta_to_xy is th - PA_V3, not th - (PA_V3 + 1). *)
Lemma rth_to_xy_leaves_out_the_idl_angle_when_told :
  calls (snd (rth_to_xy lab_ext (Np.scalar one) (Np.scalar zero) zero "idl" false
                round_world))
  = calls round_world ++ [ERthetaToXy (Np.scalar one) (Np.scalar (zero - zero))] /\
  Np.scalar (zero - zero)
  <> Np.map (fun t => fsub t (fadd zero (V3IdlYAngle (siaf_ap round_inst)))) (Np.scalar zero).
Proof.
  split.
  - reflexivity.
  - intros Heq. apply (f_equal (fun a => List.map Qcanon.this (Np.data a))) in Heq.
    vm_compute in Heq. discriminate.
Qed.

Lemma calc_psf_off_shift_two_passes_witness :
  fst (_calc_psf_off_shift lab_ext 10 round_world) = inr tt /\
  List.length (calls (snd (_calc_psf_off_shift lab_ext 10 round_world)))
  = (List.length (calls round_world) + 7)%nat.
Proof.
  pose proof (calc_psf_off_shift_two_passes lab_ext round_world (flat 2 quarter) 10) as Hthm.
  cbv zeta in Hthm. rewrite Hthm.
  - split; [reflexivity |]. cbn [snd calls]. rewrite length_app. reflexivity.
  - vm_compute. reflexivity.
  - reflexivity.
  - lia.
Defined.

(** The sum that normalisation divides by is not guarded: at a position of
    zero transmission over a dark on-axis reference the division leaves a
    frame that does not sum to 1 (in float64 it is all NaN). *)
Lemma normalized_dark_psf_does_not_sum_to_one :
  exists psf,
    fst (gen_psf lab_ext (at_ zero zero) "xy" zero true false true true true None round_world)
    = inr psf /\
    Np.sum psf <> fone.
Proof.
  eexists. split.
  - vm_compute. reflexivity.
  - intros Heq. apply (f_equal Qcanon.this) in Heq. vm_compute in Heq. discriminate.
Qed.


Lemma normalized_psf_sums_to_one_in_total_witness :
  exists psf,
    fst (gen_psf lab_ext (at_ half zero) "xy" zero true false true true true None round_world)
    = inr psf /\
    Np.sum psf = fone /\
    Qcanon.this (Np.sum dimmed_psf) = (1 # 4)%Q.
Proof.
  destruct (normalized_psf_sums_to_one_in_total lab_ext round_world (at_ half zero) "xy" zero
              true false true true None dimmed_psf (snd dimmed_run))
    as [Hrun Hsum].
  - vm_compute. reflexivity.
  - intros Heq. apply (f_equal Qcanon.this) in Heq. vm_compute in Heq. discriminate.
  - eexists. split; [rewrite Hrun; reflexivity |]. split; [exact Hsum |].
    vm_compute. reflexivity.
Defined.

(** C3 as stated fails on a MIRI mask: FQPM1065 ends in neither R nor B, the
    pupil mask is defaulted to MASKFQPM, and the engine is built. *)
Lemma miri_mask_is_built_with_a_default_pupil :
  exists e l,
    construct lab_ext "MIRI" "F1065C" (Some "FQPM1065") 2 1 None true None = (inr e, l) /\
    hd_error l = Some (EInstExt MIRI_ext "F1065C" (Some "FQPM1065") (Some "MASKFQPM") 2 1).
Proof.
  do 2 eexists. split.
  - vm_compute. reflexivity.
  - reflexivity.
Qed.


Lemma gen_psf_rotates_before_resampling_witness :
  exists cube rotated out,
    gen_psf lab_ext (at_ one zero) "xy" zero false true true false true None round_world
    = (inr out,
       mk_world (self (snd shifted_run))
         (calls (snd shifted_run) ++
            [ERotate cube (fneg (fadd zero (V3IdlYAngle (siaf_ap round_inst)))) false
                     "constant" fzero (-1, -2)%Z;
             EFrebin rotated (fdiv fone (of_nat 1))])).
Proof.
  pose proof (gen_psf_rotates_before_resampling lab_ext round_world round_inst (at_ one zero)
                "xy" zero false true false true None (at_ one zero) round_world
                shifted_psf (snd shifted_run)) as Hthm.
  cbv zeta in Hthm. do 3 eexists. rewrite Hthm.
  - reflexivity.
  - vm_compute. reflexivity.
  - unfold side. cbn. lia.
  - reflexivity.
  - vm_compute. reflexivity.
Defined.

Lemma init_unrecognised_configuration_witness :
  construct lab_ext "NIRSPEC" "F335M" (Some "MASK335R") 2 1 None true None
  = (inl (AttributeError "inst_ext"), []) /\
  hd_error (snd (construct lab_ext "miri" "F1065C" (Some "FQPM1065") 2 1 None true None))
  = Some (EInstExt MIRI_ext "F1065C" (Some "FQPM1065") (Some "MASKFQPM") 2 1).
Proof.
  split.
  - apply (proj1 (init_unrecognised_configuration lab_ext "NIRSPEC" "F335M"
                    (Some "MASK335R") 2 1 None true None)).
    reflexivity.
  - apply (proj2 (init_unrecognised_configuration lab_ext "miri" "F1065C"
                    (Some "FQPM1065") 2 1 None true None) MIRI_ext "FQPM1065" "5"%char);
      try reflexivity; discriminate.
Defined.

Lemma init_without_mask_never_builds_witness :
  construct lab_ext "NIRCAM" "F335M" None 2 1 (Some (SynphotSpectrum "G2V")) true
    (Some "2022-07-01T07:20:00")
  = (inl (TypeError "'NoneType' object is not subscriptable"),
     [EInstExt NIRCam_ext "F335M" None None 2 1; EInstExt NIRCam_ext "F335M" None None 2 1;
      ELoadWssOpd "2022-07-01T07:20:00"; ELoadWssOpd "2022-07-01T07:20:00";
      EGenPsfCoeff; EGenPsfCoeff; EGenWfemaskCoeff;
      ERenorm (SynphotSpectrum "G2V"); EArraySpectrum (SynphotSpectrum "G2V");
      ERenorm (PysynphotSpectrum "G2V")]).
Proof.
  apply (proj2 (init_without_mask_never_builds lab_ext "NIRCAM" "F335M" 2 1
                  (Some (SynphotSpectrum "G2V")) true (Some "2022-07-01T07:20:00"))
               NIRCam_ext); try reflexivity. discriminate.
Defined.

Lemma quick_blend_weighs_by_squared_transmission_witness :
  fst (quick_psfs lab_ext (batch [zero; one] [zero; zero]) "idl" (side round_inst)
         (side round_inst) round_world)
  = inr (Np.mk_nd [2; 2; 2]%nat
           (blend_frame zero (Np.data (flat 2 quarter)) dark
            ++ blend_frame one (Np.data (flat 2 quarter)) dark)).
Proof.
  rewrite (quick_blend_weighs_by_squared_transmission lab_ext round_world round_inst
             (flat 2 quarter) (fun _ => dark) (batch [zero; one] [zero; zero]) "idl"
             round_world_ready).
  - reflexivity.
  - apply positions_vector. reflexivity.
  - discriminate.
Defined.

Lemma batch_on_round_mask_is_the_single_calls_witness :
  exists stack,
    fst (gen_psf_idl lab_ext (batch [zero; one] [zero; zero]) "idl" true None true false
           round_world) = inr stack /\
    exists psf,
      fst (gen_psf_idl lab_ext (at_ one zero) "idl" true None true false round_world)
      = inr psf /\
      nth_error (Np.chunks 4 2 (Np.data stack)) 1 = Some (Np.data psf).
Proof.
  destruct (batch_on_round_mask_is_the_single_calls lab_ext round_world round_inst
              (flat 2 quarter) (fun _ => dark) [zero; one] [zero; zero] "idl"
              round_world_ready eq_refl eq_refl) as (stack & Hstack & Hframes).
  exists stack. split; [exact Hstack |].
  exact (Hframes 1%nat one zero eq_refl eq_refl).
Defined.

Lemma normalize_divides_by_the_sum_of_the_whole_stack_witness :
  exists psf first second,
    fst (gen_psf lab_ext (batch [one; one] [zero; zero]) "xy" zero true false true true true
           None round_world) = inr psf /\
    Np.shape psf = [2; 2; 2]%nat /\
    Np.frames psf = inr [first; second] /\
    Np.sum first <> fone /\ Np.sum second <> fone /\
    Qcanon.this (Np.sum first) = (1 # 2)%Q /\ Qcanon.this (Np.sum second) = (1 # 2)%Q.
Proof.
  destruct (normalize_divides_by_the_sum_of_the_whole_stack lab_ext round_world
              (batch [one; one] [zero; zero]) "xy" zero true false true true None pair_psf
              (snd pair_run)) as [Hrun Hframes].
  - vm_compute. reflexivity.
  - destruct (Hframes (List.map (Np.mk_nd [2; 2]%nat)
                         (Np.chunks 4 2 (Np.data pair_psf)))) as [_ Hfs].
    + vm_compute. reflexivity.
    + vm_compute. reflexivity.
    + do 3 eexists. split; [rewrite Hrun; reflexivity |].
      split; [vm_compute; reflexivity |].
      split; [rewrite Hfs; vm_compute; reflexivity |].
      repeat split; try (vm_compute; reflexivity);
        intros Heq; apply (f_equal Qcanon.this) in Heq; vm_compute in Heq; discriminate.
Defined.

(** [_shift_psfs] is a method that does write to [self]. *)
Lemma shift_psfs_writes_to_self :
  xoff (self (snd (_shift_psfs lab_ext (one, zero) round_world))) = Some one /\
  xoff (self round_world) = None.
Proof. split; reflexivity. Qed.

Lemma lab_well_behaved : well_behaved lab_ext.
Proof.
  split.
  - intros f io sp. unfold image. cbn. unfold lab_calc, flat.
    destruct (Webbpsf.image_mask io); cbn; now rewrite repeat_length.
  - intros f io sp x y fr. unfold image. cbn. unfold lab_calc, flat.
    destruct (Webbpsf.image_mask io); cbn; now rewrite repeat_length.
  - reflexivity.
  - intros xvals arr x. cbn. rewrite length_firstn, length_app, repeat_length. lia.
Qed.

Lemma construct_establishes_ready_witness :
  exists io off on_at,
    ready lab_ext (mk_world (self bar_world) (calls bar_world)) io off on_at /\
    Webbpsf.image_mask io = Some "MASKLWB" /\ side io = (2 * 1)%nat.
Proof.
  apply (construct_establishes_ready lab_ext "NIRCAM" "F460M" (Some "MASKLWB") 2 1 None true
           None (self bar_world) (calls bar_world) lab_well_behaved).
  vm_compute. reflexivity.
Defined.

Lemma round_world_built :
  construct lab_ext "NIRCAM" "F335M" (Some "MASK335R") 2 1 None true None
  = (inr (self round_world), calls round_world).
Proof. vm_compute. reflexivity. Qed.

Lemma bar_world_built :
  construct lab_ext "NIRCAM" "F460M" (Some "MASKLWB") 2 1 None true None
  = (inr (self bar_world), calls bar_world).
Proof. vm_compute. reflexivity. Qed.

Lemma round_world_inst : inst_on (self round_world) = Some round_inst.
Proof. vm_compute. reflexivity. Qed.

Lemma gen_psf_unknown_mode_raises_witness :
  gen_psf lab_ext (at_ one zero) "XY" zero true true true false true None round_world
  = (inl (UnboundLocalError "xidl"), round_world).
Proof.
  apply (gen_psf_unknown_mode_raises lab_ext round_world round_inst).
  - exact round_world_inst.
  - discriminate.
  - discriminate.
Defined.

Lemma gen_psf_rth_is_gen_psf_xy_at_the_converted_position_witness :
  fst (gen_psf lab_ext (at_ one zero) "rth" zero true false true false true None round_world)
  = fst (gen_psf lab_ext
           (rtheta_to_xy lab_ext (Np.scalar one)
              (Np.map (fun t => fsub t (fadd zero (V3IdlYAngle (siaf_ap round_inst))))
                      (Np.scalar zero)))
           "xy" zero true false true false true None round_world).
Proof.
  exact (gen_psf_rth_is_gen_psf_xy_at_the_converted_position lab_ext round_world round_inst
           (Np.scalar one) (Np.scalar zero) zero true false true false true None
           round_world_inst).
Defined.

Lemma slow_mode_computes_once_and_recentres_witness :
  exists psf,
    fst (gen_psf_idl lab_ext (at_ one zero) "idl" false None true false round_world) = inr psf /\
    List.filter is_calc
      (calls (snd (gen_psf_idl lab_ext (at_ one zero) "idl" false None true false round_world)))
    = List.filter is_calc (calls round_world)
      ++ [ECalc calc_psf_from_coeff round_inst None (Some (at_ one zero)) (Some "idl")].
Proof.
  pose proof (slow_mode_computes_once_and_recentres lab_ext round_world round_inst
                calc_psf_from_coeff (fst round_offset) (snd round_offset) (at_ one zero) "idl"
                None None true 1%nat round_world_inst) as Hthm.
  cbv zeta in Hthm. rewrite Hthm.
  - eexists. split; [reflexivity |]. cbn [snd calls]. rewrite filter_app. reflexivity.
  - vm_compute. reflexivity.
  - vm_compute. reflexivity.
  - vm_compute. reflexivity.
  - unfold side. cbn. lia.
  - reflexivity.
Defined.

Lemma given_spectrum_is_renormalised_in_quick_mode_too_witness :
  gen_psf_idl lab_ext (at_ one zero) "idl" true (Some (SynphotSpectrum "G2V")) true false
    round_world
  = (inl (ExternalError "renorm"),
     mk_world (self round_world) (calls round_world ++ [ERenorm (SynphotSpectrum "G2V")])) /\
  fst (gen_psf_idl lab_ext (at_ one zero) "idl" true (Some (PysynphotSpectrum "G2V")) true false
         round_world)
  = fst (gen_psf_idl lab_ext (at_ one zero) "idl" true None true false round_world).
Proof.
  split.
  - apply (proj1 (given_spectrum_is_renormalised_in_quick_mode_too lab_ext round_world
                    round_inst (at_ one zero) "idl" (SynphotSpectrum "G2V") true false
                    round_world_inst)).
    reflexivity.
  - apply (proj2 (given_spectrum_is_renormalised_in_quick_mode_too lab_ext round_world
                    round_inst (at_ one zero) "idl" (PysynphotSpectrum "G2V") true false
                    round_world_inst)).
    discriminate.
Defined.

Lemma shift_moves_each_frame_by_its_pixel_offset_witness :
  exists psf,
    fst (gen_psf_idl lab_ext (batch [zero; one] [zero; zero]) "idl" true None true true
           round_world) = inr psf /\
    List.length
      (List.filter (fun ev => match ev with EFourierImshift _ _ _ => true | _ => false end)
         (calls (snd (gen_psf_idl lab_ext (batch [zero; one] [zero; zero]) "idl" true None
                        true true round_world))))
    = (List.length
         (List.filter (fun ev => match ev with EFourierImshift _ _ _ => true | _ => false end)
            (calls (snd blended_run))) + 2)%nat.
Proof.
  pose proof (shift_moves_each_frame_by_its_pixel_offset lab_ext round_world (snd blended_run)
                round_inst (batch [zero; one] [zero; zero]) "idl" true blended 2%nat
                round_world_inst) as Hthm.
  cbv zeta in Hthm. rewrite Hthm.
  - eexists. split; [reflexivity |]. cbn [snd calls String.eqb Ascii.eqb Bool.eqb app].
    rewrite filter_app, length_app. reflexivity.
  - vm_compute. reflexivity.
  - reflexivity.
  - cbn. lia.
  - cbn. lia.
Defined.

Lemma recenter_psfs_shifts_both_by_the_centroid_offset_witness :
  exists dx dy w1,
    _calc_psf_off_shift lab_ext 10 round_world = (inr tt, w1) /\
    _xy_off_to_cen (self w1) = Some (dx, dy) /\
    _recenter_psfs lab_ext 10 round_world
    = (inr tt,
       mk_world
         (set_psf_off (shifted lab_ext (flat 2 quarter) dx dy)
            (set_psf_on (shifted lab_ext (flat 2 (Q2Qc 0)) dx dy)
               (set_xy_off_to_cen (dx, dy) (self round_world))))
         (calls w1 ++ [EFourierImshift (flat 2 (Q2Qc 0)) dx dy;
                       EFourierImshift (flat 2 quarter) dx dy])).
Proof.
  apply (recenter_psfs_shifts_both_by_the_centroid_offset lab_ext round_world 10
           (flat 2 (Q2Qc 0)) (flat 2 quarter)).
  - vm_compute. reflexivity.
  - vm_compute. reflexivity.
  - reflexivity.
  - lia.
Defined.

Lemma shift_psfs_accumulates_in_the_psfs_only_witness :
  xoff (self (snd (bind (_shift_psfs lab_ext (one, zero))
                     (fun _ => _shift_psfs lab_ext (zero, one)) round_world)))
  = Some zero /\
  yoff (self (snd (bind (_shift_psfs lab_ext (one, zero))
                     (fun _ => _shift_psfs lab_ext (zero, one)) round_world)))
  = Some one.
Proof.
  pose proof (shift_psfs_accumulates_in_the_psfs_only lab_ext round_world (flat 2 (Q2Qc 0))
                (flat 2 quarter) one zero zero one) as Hthm.
  cbv zeta in Hthm. rewrite Hthm.
  - split; reflexivity.
  - vm_compute. reflexivity.
  - vm_compute. reflexivity.
Defined.

Lemma shift_psfs_keeps_the_engine_ready_witness :
  exists w' on_at',
    _shift_psfs lab_ext (one, zero) round_world = (inr tt, w') /\
    ready lab_ext w' round_inst (shifted lab_ext (flat 2 quarter) one zero) on_at' /\
    xoff (self w') = Some one /\ yoff (self w') = Some zero /\
    _xy_off_to_cen (self w') = _xy_off_to_cen (self round_world).
Proof.
  exact (shift_psfs_keeps_the_engine_ready lab_ext round_world round_inst (flat 2 quarter)
           (fun _ => dark) one zero lab_well_behaved round_world_ready).
Defined.

Lemma quick_psfs_follow_shift_psfs_witness :
  fst (_shift_psfs lab_ext (one, zero) round_world) = inr tt /\
  fst (gen_psf_idl lab_ext (at_ one zero) "idl" true None true false
         (snd (_shift_psfs lab_ext (one, zero) round_world)))
  = inr (Np.squeeze (shifted lab_ext (flat 2 quarter) one zero)).
Proof.
  exact (quick_psfs_follow_shift_psfs lab_ext round_world round_inst (flat 2 quarter)
           (fun _ => dark) one zero one zero "idl" one zero lab_well_behaved round_world_ready
           eq_refl).
Defined.

Lemma construct_returns_exactly_when_witness :
  exists e l,
    construct lab_ext "nircam" "F460M" (Some "MASKLWB") 3 2 (Some (SynphotSpectrum "G2V"))
      false (Some "2022-07-01T07:20:00") = (inr e, l).
Proof.
  apply (proj2 (construct_returns_exactly_when lab_ext "nircam" "F460M" (Some "MASKLWB") 3 2
                  (Some (SynphotSpectrum "G2V")) false (Some "2022-07-01T07:20:00")
                  lab_well_behaved)).
  exists NIRCam_ext, "MASKLWB", "B"%char. cbv zeta.
  repeat split; try reflexivity; try discriminate.
Defined.

Lemma construct_computes_the_reference_psfs_witness :
  exists io ioff f sp' dx dy,
    inst_on (self bar_world) = Some io /\ inst_off (self bar_world) = Some ioff /\
    _func_on (self bar_world) = Some f /\ sp (self bar_world) = Some sp' /\
    _xy_off_to_cen (self bar_world) = Some (dx, dy) /\
    List.length (List.filter is_calc (calls bar_world)) = 10%nat /\
    psf_off (self bar_world) = Some (shifted lab_ext (calc lab_ext f ioff sp' None None) dx dy).
Proof.
  destruct (construct_computes_the_reference_psfs lab_ext "NIRCAM" "F460M" (Some "MASKLWB")
              2 1 None true None (self bar_world) (calls bar_world) bar_world_built)
    as (io & ioff & f & sp' & dx & dy & Hio & Hioff & Hf & _ & Hsp & Hxy & Hfacts).
  cbv zeta in Hfacts. destruct Hfacts as (Hcalc & _ & _ & Hoff).
  assert (io = bar_inst) as ->.
  { assert (Hb : inst_on (self bar_world) = Some bar_inst) by (vm_compute; reflexivity).
    rewrite Hb in Hio. now injection Hio. }
  exists bar_inst, ioff, f, sp', dx, dy.
  split; [exact Hio |]. split; [exact Hioff |]. split; [exact Hf |]. split; [exact Hsp |].
  split; [exact Hxy |]. split; [| exact Hoff].
  rewrite Hcalc, length_app, length_map. reflexivity.
Defined.

Lemma construct_configures_both_instruments_witness :
  exists io ioff,
    inst_on (self round_world) = Some io /\ inst_off (self round_world) = Some ioff /\
    Webbpsf.image_mask io = Some "MASK335R" /\ Webbpsf.image_mask ioff = None /\
    Webbpsf.pupil_mask ioff = Webbpsf.pupil_mask io /\
    jitter_sigma io = Some fzero /\ wfemask_coeff io = true /\ wfemask_coeff ioff = false.
Proof.
  destruct (construct_configures_both_instruments lab_ext "NIRCAM" "F335M" (Some "MASK335R")
              2 1 None true None (self round_world) (calls round_world) round_world_built)
    as (io & ioff & Hfacts).
  exists io, ioff. tauto.
Defined.

Lemma construct_keeps_the_renormalised_spectrum_witness :
  exists e l io,
    construct lab_ext "NIRCAM" "F335M" (Some "MASK335R") 2 1 (Some (SynphotSpectrum "G2V"))
      true None = (inr e, l) /\
    inst_on e = Some io /\
    sp e = Some (Some (PysynphotSpectrum "G2V")).
Proof.
  destruct (construct lab_ext "NIRCAM" "F335M" (Some "MASK335R") 2 1
              (Some (SynphotSpectrum "G2V")) true None) as [[err | e] l] eqn:Hc;
    [vm_compute in Hc; discriminate |].
  destruct (construct_keeps_the_renormalised_spectrum lab_ext _ _ _ _ _ _ _ _ e l Hc)
    as (io & Hio & s' & Hsp & [Hdirect | (_ & s2 & Hconv & Hren)]).
  - discriminate.
  - exists e, l, io. split; [reflexivity |]. split; [exact Hio |].
    injection Hconv as <-. injection Hren as <-. exact Hsp.
Defined.

Lemma properties_return_the_constructor_arguments_witness :
  let w := mk_world (self round_world) (calls round_world) in
  JWST_PSF.fov_pix w = (inr 2%nat, w) /\
  JWST_PSF.filter w = (inr "F335M", w) /\
  JWST_PSF.pupil_mask w = (inr (Some "CIRCLYOT"), w).
Proof.
  destruct (properties_return_the_constructor_arguments lab_ext "NIRCAM" "F335M"
              (Some "MASK335R") 2 1 None true None (self round_world) (calls round_world)
              round_world_built (calls round_world))
    as (Hfov & _ & Hfilt & _ & _ & k & m & c & _ & Hm & Hlast & Hpm & _).
  injection Hm as <-. injection Hlast as <-.
  split; [exact Hfov |]. split; [exact Hfilt | exact Hpm].
Defined.

Lemma quick_gen_psf_returns_witness :
  exists psf,
    fst (gen_psf lab_ext (batch [zero; one] [zero; zero]) "xy" one false true true true true
           None round_world) = inr psf.
Proof.
  apply (quick_gen_psf_returns lab_ext round_world round_inst (flat 2 quarter) (fun _ => dark)).
  - exact round_world_ready.
  - apply positions_vector. reflexivity.
  - discriminate.
  - unfold side. cbn. lia.
Defined.

Lemma quick_frames_at_full_and_zero_transmission_witness :
  (exists psfs,
      Np.shape psfs = [2; 2; 2]%nat /\
      fst (gen_psf_idl lab_ext (batch [zero; one] [zero; zero]) "idl" true
             (Some (PysynphotSpectrum "G2V")) false false round_world)
      = inr (Np.squeeze (frebin lab_ext psfs (fdiv fone (of_nat 1)))) /\
      nth_error (Np.chunks 4 2 (Np.data psfs)) 0 = Some dark /\
      nth_error (Np.chunks 4 2 (Np.data psfs)) 1 = Some (Np.data (flat 2 quarter))) /\
  fst (gen_psf_idl lab_ext (batch [one; one] [zero; zero]) "idl" true None true false
         bar_world)
  = inl (ValueError "cannot reshape array").
Proof.
  split.
  - destruct (proj1 (quick_frames_at_full_and_zero_transmission lab_ext round_world round_inst
                       (flat 2 quarter) (fun _ => dark) (batch [zero; one] [zero; zero]) "idl"
                       (Some (PysynphotSpectrum "G2V")) round_world_ready
                       (positions_vector [zero; one] [zero; zero] eq_refl)
                       ltac:(discriminate)))
      as (psfs & Hshape & Hrun & Hframes).
    + discriminate.
    + exists psfs. split; [exact Hshape |]. split; [exact (Hrun false) |]. split.
      * exact (proj2 (Hframes 0%nat zero zero zero zero zero eq_refl eq_refl eq_refl) eq_refl).
      * exact (proj1 (Hframes 1%nat one zero one one zero eq_refl eq_refl eq_refl) eq_refl).
  - apply (proj2 (quick_frames_at_full_and_zero_transmission lab_ext bar_world bar_inst
                    (flat 2 quarter) (fun _ => dark) (batch [one; one] [zero; zero]) "idl"
                    None bar_world_ready
                    (positions_vector [one; one] [zero; zero] eq_refl) I)).
    + reflexivity.
    + vm_compute. discriminate.
    + exact side_lab.
Defined.

End Runs.
